(** * devmem: code-unit extraction, keyword derivation and ranked search

    A shallow embedding of [src/indexer/IndexManager.ts],
    [src/db/Database.ts] and [src/query/QueryManager.ts].

    Texts are sequences of character codes.  On the JavaScript side these
    are the UTF-16 code units that [length], [slice], [substring],
    [split] and the regular-expression engine work on; on the SQLite side
    they are the characters that [LIKE] and the BINARY collation work on.
    The two views coincide for text of the Basic Multilingual Plane.

    File discovery and file reading stay outside: a run of the indexer
    takes the files it finds, each with its content, as an input.  The
    store is the content of the two tables; the SQL statements of
    [Database.ts] are modelled by what SQLite does with them. *)

From Stdlib Require Import List NArith ZArith Arith Lia Bool String Ascii.
From Stdlib Require Import Sorting.Sorted Sorting.Permutation.
Import ListNotations.

Set Implicit Arguments.

(* ================================================================== *)
(** * JavaScript strings *)
(* ================================================================== *)

Module JS.

Definition char := N.
Definition text := list char.

(** A string literal of the source, as a text. *)
Definition js (s : string) : text := map N_of_ascii (list_ascii_of_string s).

Definition char_eqb (a b : char) : bool := N.eqb a b.

Fixpoint text_eqb (a b : text) : bool :=
  match a, b with
  | [], [] => true
  | x :: a', y :: b' => char_eqb x y && text_eqb a' b'
  | _, _ => false
  end.

Definition NL : char := 10%N.
Definition SPACE : char := 32%N.
Definition DQUOTE : char := 34%N.
Definition SQUOTE : char := 39%N.
Definition BACKSLASH : char := 92%N.
Definition LBRACE : char := 123%N.
Definition RBRACE : char := 125%N.

(** [s.substring(a, b)]: the arguments are clamped to the length and
    swapped when [a > b]. *)
Definition substring (a b : nat) (s : text) : text :=
  let lo := Nat.min a b in
  let hi := Nat.max a b in
  firstn (hi - lo) (skipn lo s).

(** [s.slice(0, n)] for a non-negative [n]. *)
Definition slice0 (n : nat) (s : text) : text := firstn n s.

(** [s.split(sep)] for a one-character separator. *)
Fixpoint split (sep : char) (s : text) : list text :=
  match s with
  | [] => [[]]
  | c :: s' =>
      if char_eqb c sep then [] :: split sep s'
      else match split sep s' with
           | l :: ls => (c :: l) :: ls
           | [] => [[c]]
           end
  end.

(** [parts.join(sep)]. *)
Fixpoint join (sep : text) (parts : list text) : text :=
  match parts with
  | [] => []
  | [p] => p
  | p :: ps => p ++ sep ++ join sep ps
  end.

(** [String.prototype.toLowerCase] on one character.  The source applies it
    only to tokens made of [\w] characters, where it acts on [A-Z] alone. *)
Definition lowerChar (c : char) : char :=
  if (65 <=? c)%N && (c <=? 90)%N then (c + 32)%N else c.

Definition toLowerCase (s : text) : text := map lowerChar s.

(** Number of occurrences of a character. *)
Definition count (c : char) (s : text) : nat :=
  List.length (filter (char_eqb c) s).

End JS.
Import JS.

(* ================================================================== *)
(** * Regular expressions *)
(* ================================================================== *)

(** The fragment of JavaScript regular expressions that the source's
    literals use: literal characters, character classes, sequencing,
    prioritised alternation, greedy [?] on a group that cannot match the
    empty text, greedy [*] and [+] on a single character class, numbered
    capture groups and [\b]. *)

Module Regex.

Inductive regex : Type :=
| Eps
| Chr (c : char)
| Class (p : char -> bool)
| Seq (r1 r2 : regex)
| Alt (r1 r2 : regex)
| Opt (r : regex)
| Star (p : char -> bool)
| Plus (p : char -> bool)
| Group (n : nat) (r : regex)
| WordB.

Declare Scope regex_scope.
Delimit Scope regex_scope with re.
Bind Scope regex_scope with regex.
Infix ">>" := Seq (at level 61, right associativity) : regex_scope.
Infix "<|>" := Alt (at level 71, right associativity) : regex_scope.

(** A literal run of characters. *)
Fixpoint str (s : text) : regex :=
  match s with
  | [] => Eps
  | [c] => Chr c
  | c :: s' => Seq (Chr c) (str s')
  end.

Definition lit (s : string) : regex := str (js s).

(** [\s]: WhiteSpace and LineTerminator code points. *)
Definition isSpace (c : char) : bool :=
  ((9 <=? c) && (c <=? 13) || (c =? 32) || (c =? 160) || (c =? 5760)
   || (8192 <=? c) && (c <=? 8202) || (c =? 8232) || (c =? 8233)
   || (c =? 8239) || (c =? 8287) || (c =? 12288) || (c =? 65279))%N.

(** [[a-zA-Z_]] *)
Definition isIdentStart (c : char) : bool :=
  ((65 <=? c) && (c <=? 90) || (97 <=? c) && (c <=? 122) || (c =? 95))%N.

(** [\w] *)
Definition isWord (c : char) : bool :=
  ((48 <=? c) && (c <=? 57))%N || isIdentStart c.

(** [[^)]] *)
Definition notRParen (c : char) : bool := negb (c =? 41)%N.

Definition captures := list (nat * text).

Fixpoint capture (n : nat) (caps : captures) : option text :=
  match caps with
  | [] => None
  | (k, v) :: rest => if Nat.eqb k n then Some v else capture n rest
  end.

Record MatchResult : Type := mkMatch {
  index : nat;
  endIndex : nat;
  groups : captures
}.

Section Matcher.

Variable content : text.

(** Greedy repetition of a character class: take the longest run, then
    give characters back one at a time while the continuation fails. *)
Fixpoint star {A} (p : char -> bool) (i : nat) (s : text)
         (k : nat -> text -> option A) : option A :=
  match s with
  | c :: s' =>
      if p c then
        match star p (S i) s' k with
        | Some x => Some x
        | None => k i s
        end
      else k i s
  | [] => k i s
  end.

Definition charBefore (i : nat) : option char :=
  match i with
  | O => None
  | S j => nth_error content j
  end.

Definition wordAt (c : option char) : bool :=
  match c with
  | Some x => isWord x
  | None => false
  end.

(** Backtracking matcher in continuation-passing style.  [i] is the
    current offset in [content] and [s] the text from that offset on. *)
Fixpoint m {A} (r : regex) (i : nat) (s : text) (caps : captures)
         (k : nat -> text -> captures -> option A) : option A :=
  match r with
  | Eps => k i s caps
  | Chr c =>
      match s with
      | d :: s' => if char_eqb d c then k (S i) s' caps else None
      | [] => None
      end
  | Class p =>
      match s with
      | d :: s' => if p d then k (S i) s' caps else None
      | [] => None
      end
  | Seq r1 r2 =>
      m r1 i s caps (fun i1 s1 caps1 => m r2 i1 s1 caps1 k)
  | Alt r1 r2 =>
      match m r1 i s caps k with
      | Some x => Some x
      | None => m r2 i s caps k
      end
  | Opt r1 =>
      match m r1 i s caps k with
      | Some x => Some x
      | None => k i s caps
      end
  | Star p => star p i s (fun i1 s1 => k i1 s1 caps)
  | Plus p =>
      match s with
      | d :: s' => if p d then star p (S i) s' (fun i1 s1 => k i1 s1 caps)
                   else None
      | [] => None
      end
  | Group n r1 =>
      m r1 i s caps
        (fun i1 s1 caps1 => k i1 s1 ((n, substring i i1 content) :: caps1))
  | WordB =>
      if xorb (wordAt (charBefore i)) (wordAt (hd_error s))
      then k i s caps else None
  end.

(** Try a match at offset [i], then at every later offset. *)
Fixpoint execAt (r : regex) (i : nat) (s : text) : option MatchResult :=
  match m r i s [] (fun e _ caps => Some (mkMatch i e caps)) with
  | Some x => Some x
  | None =>
      match s with
      | [] => None
      | _ :: s' => execAt r (S i) s'
      end
  end.

(** [regex.exec(content)] for a global regex whose [lastIndex] is given;
    on success the new [lastIndex] is the match's [endIndex]. *)
Definition exec (r : regex) (lastIndex : nat) : option MatchResult :=
  if Nat.ltb (List.length content) lastIndex then None
  else execAt r lastIndex (skipn lastIndex content).

(** [while ((match = regex.exec(content)) !== null) body]: [None] when the
    fuel runs out, which is how a loop that never ends shows. *)
Fixpoint whileExec {A} (fuel : nat) (r : regex) (lastIndex : nat)
         (body : MatchResult -> A -> option A) (acc : A) : option A :=
  match fuel with
  | O => None
  | S fuel' =>
      match exec r lastIndex with
      | None => Some acc
      | Some mt =>
          match body mt acc with
          | Some acc' => whileExec fuel' r (endIndex mt) body acc'
          | None => None
          end
      end
  end.

(** [content.match(regex)] for a global regex: every match in turn; after
    an empty match the scan resumes one character further. *)
Fixpoint matchAll (fuel : nat) (r : regex) (lastIndex : nat)
  : option (list text) :=
  match fuel with
  | O => None
  | S fuel' =>
      match exec r lastIndex with
      | None => Some []
      | Some mt =>
          let next := if Nat.eqb (endIndex mt) (index mt)
                      then S (endIndex mt) else endIndex mt in
          match matchAll fuel' r next with
          | Some rest => Some (substring (index mt) (endIndex mt) content :: rest)
          | None => None
          end
      end
  end.

End Matcher.

End Regex.
Import Regex.

(* ================================================================== *)
(** * The store ([src/db/Database.ts]) *)
(* ================================================================== *)

Module Database.

(** A row of [projects]. *)
Record Project : Type := mkProject {
  p_id : nat;
  p_name : text;
  p_path : text;
  p_file_count : nat;
  p_indexed_at : text
}.

(** A row of [code_entries]. *)
Record CodeEntry : Type := mkEntry {
  ce_id : nat;
  ce_project_id : nat;
  ce_file_path : text;
  ce_name : text;
  ce_type : text;
  ce_code : text;
  ce_snippet : text;
  ce_line_start : nat;
  ce_line_end : nat;
  ce_keywords : text
}.

(** The argument of [addCodeEntry]: an entry without its [id]. *)
Record NewEntry : Type := mkNewEntry {
  projectId : nat;
  filePath : text;
  entryName : text;
  entryType : text;
  entryCode : text;
  snippet : text;
  entryLineStart : nat;
  entryLineEnd : nat;
  entryKeywords : text
}.

(** The database file: both tables in row order, the [AUTOINCREMENT]
    counters of [sqlite_sequence], and whether the connection enforces the
    [FOREIGN KEY] clause of [code_entries], a setting of the SQLite driver
    that the source leaves at its default. *)
Record Store : Type := mkStore {
  projects : list Project;
  code_entries : list CodeEntry;
  seq_projects : nat;
  seq_code_entries : nat;
  foreign_keys : bool
}.

Inductive exn : Type :=
| Error (message : text)
| SqliteError (message : text).

(** How a call ends: with a value, with a thrown exception, or not at
    all; in the first two cases the store is left in some state. *)
Inductive result (A : Type) : Type :=
| Ok (a : A) (st : Store)
| Throw (e : exn) (st : Store)
| Hang.

Arguments Ok {A} a st.
Arguments Throw {A} e st.
Arguments Hang {A}.

(** Computations over the store that may throw. *)
Definition M (A : Type) : Type := Store -> result A.

Definition ret {A} (a : A) : M A := fun st => Ok a st.

Definition bind {A B} (c : M A) (f : A -> M B) : M B :=
  fun st =>
    match c st with
    | Ok a st' => f a st'
    | Throw e st' => Throw e st'
    | Hang => Hang
    end.

Definition throw {A} (e : exn) : M A := fun st => Throw e st.

Definition hang {A} : M A := fun _ => Hang.

Declare Scope store_scope.
Delimit Scope store_scope with store.
Notation "x <- c1 ;; c2" := (bind c1 (fun x => c2))
  (at level 61, c1 at next level, right associativity) : store_scope.
Notation "c1 ;;; c2" := (bind c1 (fun _ => c2))
  (at level 61, right associativity) : store_scope.

(** [list.forEach(f)] for an [f] that works on the store. *)
Fixpoint forEach {A} (l : list A) (f : A -> M unit) : M unit :=
  match l with
  | [] => ret tt
  | x :: l' => (f x ;;; forEach l' f)%store
  end.

Definition FK_FAILED : exn := SqliteError (js "FOREIGN KEY constraint failed").

(** [INSERT OR REPLACE INTO projects (name, path, indexed_at) VALUES (?, ?,
    datetime('now'))]: the row that holds the same unique [name] is deleted
    and a new row is inserted under the next [AUTOINCREMENT] id, with
    [file_count] at its default.  Under foreign-key enforcement the
    statement fails, and changes nothing, when an entry still refers to
    the deleted row. *)
Definition addProject (name path now : text) : M nat :=
  fun st =>
    let replaced := filter (fun p => text_eqb (p_name p) name) (projects st) in
    let kept := filter (fun p => negb (text_eqb (p_name p) name)) (projects st) in
    let id := S (seq_projects st) in
    let orphaned (ce : CodeEntry) :=
      existsb (fun p => Nat.eqb (ce_project_id ce) (p_id p)) replaced in
    if foreign_keys st && existsb orphaned (code_entries st)
    then Throw FK_FAILED st
    else Ok id (mkStore (kept ++ [mkProject id name path 0 now])
                        (code_entries st) id (seq_code_entries st)
                        (foreign_keys st)).

(** [UPDATE projects SET file_count = ? WHERE id = ?] *)
Definition updateProjectFileCount (projectId count : nat) : M unit :=
  fun st =>
    let upd p := if Nat.eqb (p_id p) projectId
                 then mkProject (p_id p) (p_name p) (p_path p) count
                                (p_indexed_at p)
                 else p in
    Ok tt (mkStore (map upd (projects st)) (code_entries st)
                   (seq_projects st) (seq_code_entries st) (foreign_keys st)).

(** [INSERT INTO code_entries (...) VALUES (...)] *)
Definition addCodeEntry (entry : NewEntry) : M nat :=
  fun st =>
    let id := S (seq_code_entries st) in
    if foreign_keys st
       && negb (existsb (fun p => Nat.eqb (p_id p) (projectId entry))
                        (projects st))
    then Throw FK_FAILED st
    else Ok id (mkStore (projects st)
                        (code_entries st ++
                           [mkEntry id (projectId entry) (filePath entry)
                                    (entryName entry) (entryType entry)
                                    (entryCode entry) (snippet entry)
                                    (entryLineStart entry)
                                    (entryLineEnd entry)
                                    (entryKeywords entry)])
                        (seq_projects st) id (foreign_keys st)).

(** [SELECT * FROM projects WHERE name = ?] *)
Definition getProject (name : text) (st : Store) : option Project :=
  find (fun p => text_eqb (p_name p) name) (projects st).

(** [SELECT * FROM code_entries WHERE id = ?] *)
Definition getCodeEntry (id : nat) (st : Store) : option CodeEntry :=
  find (fun ce => Nat.eqb (ce_id ce) id) (code_entries st).

(** [DELETE FROM code_entries WHERE project_id = ?] *)
Definition clearProjectEntries (projectId : nat) : M unit :=
  fun st =>
    Ok tt (mkStore (projects st)
                   (filter (fun ce => negb (Nat.eqb (ce_project_id ce) projectId))
                           (code_entries st))
                   (seq_projects st) (seq_code_entries st) (foreign_keys st)).

(** [DELETE FROM projects WHERE id = ?] *)
Definition deleteProjectRow (id : nat) : M unit :=
  fun st =>
    if foreign_keys st
       && existsb (fun ce => Nat.eqb (ce_project_id ce) id) (code_entries st)
    then Throw FK_FAILED st
    else Ok tt (mkStore (filter (fun p => negb (Nat.eqb (p_id p) id))
                                (projects st))
                        (code_entries st) (seq_projects st)
                        (seq_code_entries st) (foreign_keys st)).

Definition PROJECT_NOT_FOUND (name : text) : exn :=
  Error (js "Project not found: " ++ name).

Definition removeProject (name : text) : M unit :=
  fun st =>
    match getProject name st with
    | None => Throw (PROJECT_NOT_FOUND name) st
    | Some project =>
        (clearProjectEntries (p_id project) ;;;
         deleteProjectRow (p_id project))%store st
    end.

(** ** Search *)

Definition NUL : char := 0%N.
Definition PERCENT : char := 37%N.
Definition UNDERSCORE : char := 95%N.

(** SQLite compares the characters of a [LIKE] without regard to the case
    of ASCII letters. *)
Definition likeCharEq (a b : char) : bool :=
  char_eqb (lowerChar a) (lowerChar b).

Fixpoint anySuffix (f : text -> bool) (s : text) : bool :=
  f s || match s with
         | [] => false
         | _ :: s' => anySuffix f s'
         end.

(** SQLite's matcher of [LIKE] on two strings: [%] stands for any run of
    characters, [_] for any one character; there is no escape
    character. *)
Fixpoint patternCompare (pattern s : text) : bool :=
  match pattern with
  | [] => match s with [] => true | _ :: _ => false end
  | c :: pattern' =>
      if char_eqb c PERCENT then anySuffix (patternCompare pattern') s
      else match s with
           | [] => false
           | d :: s' =>
               (char_eqb c UNDERSCORE || likeCharEq c d)
               && patternCompare pattern' s'
           end
  end.

(** The matcher reads its two arguments as NUL-terminated strings: of a
    text that holds the character U+0000 it sees the part before the
    first one. *)
Fixpoint cstr (s : text) : text :=
  match s with
  | [] => []
  | c :: s' => if char_eqb c NUL then [] else c :: cstr s'
  end.

(** [s LIKE pattern] *)
Definition like (pattern s : text) : bool :=
  patternCompare (cstr pattern) (cstr s).

(** [field LIKE ?] with the parameter [`%${query}%`]. *)
Definition likeQuery (query field : text) : bool :=
  like ([PERCENT] ++ query ++ [PERCENT]) field.

(** The [CASE] expression of the query. *)
Definition relevance (query : text) (ce : CodeEntry) : nat :=
  if likeQuery query (ce_name ce) then 100
  else if likeQuery query (ce_keywords ce) then 50
  else if likeQuery query (ce_snippet ce) then 25
  else 10.

(** A row of the search result: [ce.*], [projectName] and [relevance]. *)
Record SearchRow : Type := mkRow {
  entry : CodeEntry;
  projectName : text;
  rowRelevance : nat
}.

(** An optional filter is applied when the option is a non-empty string. *)
Definition filterBy (opt : option text) (value : text) : bool :=
  match opt with
  | Some (c :: o) => text_eqb value (c :: o)
  | _ => true
  end.

(** The [WHERE] clause with its optional [AND] parts. *)
Definition whereClause (query : text) (project type : option text)
           (ce : CodeEntry) (p : Project) : bool :=
  (likeQuery query (ce_name ce) || likeQuery query (ce_keywords ce)
   || likeQuery query (ce_snippet ce))
  && filterBy project (p_name p)
  && filterBy type (ce_type ce).

(** [FROM code_entries ce JOIN projects p ON ce.project_id = p.id WHERE ...],
    before ordering. *)
Definition candidates (query : text) (project type : option text)
           (st : Store) : list SearchRow :=
  flat_map
    (fun ce =>
       map (fun p => mkRow ce (p_name p) (relevance query ce))
           (filter (fun p => Nat.eqb (ce_project_id ce) (p_id p)
                             && whereClause query project type ce p)
                   (projects st)))
    (code_entries st).

(** The BINARY collation: character by character, a proper prefix first. *)
Fixpoint text_leb (a b : text) : bool :=
  match a, b with
  | [], _ => true
  | _ :: _, [] => false
  | x :: a', y :: b' => (x <? y)%N || (x =? y)%N && text_leb a' b'
  end.

(** [ORDER BY relevance DESC, ce.name] *)
Definition rowLeb (r1 r2 : SearchRow) : bool :=
  Nat.ltb (rowRelevance r2) (rowRelevance r1)
  || Nat.eqb (rowRelevance r1) (rowRelevance r2)
     && text_leb (ce_name (entry r1)) (ce_name (entry r2)).

Fixpoint insertRow (r : SearchRow) (l : list SearchRow) : list SearchRow :=
  match l with
  | [] => [r]
  | r' :: l' => if rowLeb r r' then r :: l else r' :: insertRow r l'
  end.

(** The sorter.  SQL leaves the order of rows that compare equal open;
    here they keep their scan order. *)
Definition orderBy (l : list SearchRow) : list SearchRow :=
  fold_right insertRow [] l.

(** [LIMIT ?]: a negative limit means no limit.  The limit is a number
    with an integer value that SQLite takes for a 64-bit integer. *)
Definition applyLimit (limit : Z) (l : list SearchRow) : list SearchRow :=
  if (limit <? 0)%Z then l else firstn (Z.to_nat limit) l.

(** The rows of a search that SQLite carries out.  SQLite refuses the
    statement, and [stmt.all] throws, for a limit outside the 64-bit
    integers and for a pattern of more than 50000 bytes; such calls have
    no rows and are outside this function. *)
Definition searchCode (query : text) (project type : option text)
           (limit : Z) (st : Store) : list SearchRow :=
  applyLimit limit (orderBy (candidates query project type st)).

End Database.
Import Database.

(* ================================================================== *)
(** * The extractor ([src/indexer/IndexManager.ts]) *)
(* ================================================================== *)

Module IndexManager.

(** One element of the arrays built by [extractFunctions] and
    [extractClasses]. *)
Record CodeUnit : Type := mkUnit {
  name : text;
  code : text;
  lineStart : nat;
  lineEnd : nat;
  keywords : text
}.

(** [/(async\s+)?function\s+(\w+)|const\s+(\w+)\s*=\s*(async\s+)?\(|(\w+)\s*\([^)]*\)\s*{/g] *)
Definition functionRegex : regex :=
  (  (Opt (Group 1 (lit "async" >> Plus isSpace))
      >> lit "function" >> Plus isSpace >> Group 2 (Plus isWord))
 <|> (lit "const" >> Plus isSpace >> Group 3 (Plus isWord) >> Star isSpace
      >> lit "=" >> Star isSpace
      >> Opt (Group 4 (lit "async" >> Plus isSpace)) >> lit "(")
 <|> (Group 5 (Plus isWord) >> Star isSpace >> lit "(" >> Star notRParen
      >> lit ")" >> Star isSpace >> lit "{"))%re.

(** [/class\s+(\w+)/g] *)
Definition classRegex : regex :=
  (lit "class" >> Plus isSpace >> Group 1 (Plus isWord))%re.

(** [/\b[a-zA-Z_]\w*\b/g] *)
Definition wordRegex : regex :=
  (WordB >> Class isIdentStart >> Star isWord >> WordB)%re.

(** [char === stringChar], where [stringChar] starts as the empty string. *)
Definition isStringChar (c : char) (stringChar : option char) : bool :=
  match stringChar with
  | Some q => char_eqb c q
  | None => false
  end.

(** [content[i - 1] !== '\\'] *)
Definition notEscaped (content : text) (i : nat) : bool :=
  match charBefore content i with
  | Some c => negb (char_eqb c BACKSLASH)
  | None => true
  end.

(** The [for] loop of [findClosingBrace]: [s] is the text from offset [i]. *)
Fixpoint scanBraces (content s : text) (i : nat) (openBraces : Z)
         (inString : bool) (stringChar : option char) : nat :=
  match s with
  | [] => List.length content
  | c :: s' =>
      if inString then
        if isStringChar c stringChar && notEscaped content i
        then scanBraces content s' (S i) openBraces false stringChar
        else scanBraces content s' (S i) openBraces true stringChar
      else if char_eqb c DQUOTE || char_eqb c SQUOTE
      then scanBraces content s' (S i) openBraces true (Some c)
      else if char_eqb c LBRACE
      then scanBraces content s' (S i) (openBraces + 1) false stringChar
      else if char_eqb c RBRACE
      then if (openBraces - 1 =? 0)%Z then S i
           else scanBraces content s' (S i) (openBraces - 1) false stringChar
      else scanBraces content s' (S i) openBraces false stringChar
  end.

Definition findClosingBrace (content : text) (startIndex : nat) : nat :=
  scanBraces content (skipn startIndex content) startIndex 0 false None.

(** The stoplist of [extractKeywords]. *)
Definition excluded : list text :=
  map js ["const"; "let"; "var"; "if"; "else"; "for"; "while"; "return";
          "function"; "class"]%string.

(** A JavaScript [Set] of strings, in insertion order. *)
Definition setHas (x : text) (l : list text) : bool := existsb (text_eqb x) l.

Definition setAdd (x : text) (l : list text) : list text :=
  if setHas x l then l else l ++ [x].

(** [code.match(/\b[a-zA-Z_]\w*\b/g) || []] *)
Definition words (code : text) : option (list text) :=
  matchAll code (S (S (List.length code))) wordRegex 0.

(** The body of [words.forEach]. *)
Definition addKeyword (keywords : list text) (word : text) : list text :=
  if negb (setHas word excluded) && Nat.ltb 2 (List.length word)
  then setAdd (toLowerCase word) keywords
  else keywords.

(** The [Set] that [extractKeywords] builds. *)
Definition keywordSet (code : text) : option (list text) :=
  match words code with
  | Some ws => Some (fold_left addKeyword ws [])
  | None => None
  end.

Definition extractKeywords (code : text) : option text :=
  match keywordSet code with
  | Some ks => Some (join [SPACE] ks)
  | None => None
  end.

(** [a || b] on values that are a string or [undefined]: the empty string
    and [undefined] are falsy. *)
Definition orElse (a b : option text) : option text :=
  match a with
  | Some (_ :: _) => a
  | _ => b
  end.

(** Lines 146-158 and 178-189: locate, cut out and describe one unit. *)
Definition unitAt (content : text) (nm : text) (matchIndex : nat)
  : option CodeUnit :=
  let lineStart := List.length (split NL (substring 0 matchIndex content)) in
  let endIndex := findClosingBrace content matchIndex in
  let code := substring matchIndex endIndex content in
  let lineEnd := lineStart + List.length (split NL code) in
  match extractKeywords code with
  | Some kw => Some (mkUnit nm code lineStart lineEnd kw)
  | None => None
  end.

Definition functionBody (content : text) (mt : MatchResult)
           (functions : list CodeUnit) : option (list CodeUnit) :=
  let g := groups mt in
  match orElse (capture 2 g) (orElse (capture 3 g) (capture 5 g)) with
  | Some (c :: nm) =>
      match unitAt content (c :: nm) (index mt) with
      | Some u => Some (functions ++ [u])
      | None => None
      end
  | _ => Some functions
  end.

Definition extractFunctions (content : text) : option (list CodeUnit) :=
  whileExec content (S (List.length content)) functionRegex 0
            (functionBody content) [].

Definition classBody (content : text) (mt : MatchResult)
           (classes : list CodeUnit) : option (list CodeUnit) :=
  match capture 1 (groups mt) with
  | Some nm =>
      match unitAt content nm (index mt) with
      | Some u => Some (classes ++ [u])
      | None => None
      end
  | None => None
  end.

Definition extractClasses (content : text) : option (list CodeUnit) :=
  whileExec content (S (List.length content)) classRegex 0
            (classBody content) [].

(** [.] of a regex: any character but a line terminator. *)
Definition notLineTerminator (c : char) : bool :=
  negb ((c =? 10) || (c =? 13) || (c =? 8232) || (c =? 8233))%N.

(** The class of the single and the double quote. *)
Definition quoteClass (c : char) : bool := char_eqb c SQUOTE || char_eqb c DQUOTE.

(** [/import\s+.+\s+from\s+Q(.+)Q/g], where [Q] is the class of the two
    quote characters. *)
Definition importRegex : regex :=
  (lit "import" >> Plus isSpace >> Plus notLineTerminator >> Plus isSpace
   >> lit "from" >> Plus isSpace >> Class quoteClass
   >> Group 1 (Plus notLineTerminator) >> Class quoteClass)%re.

Definition patternBody (mt : MatchResult) (patterns : list text)
  : option (list text) :=
  match capture 1 (groups mt) with
  | Some module => Some (patterns ++ [js "import:" ++ module])
  | None => None
  end.

Definition extractPatterns (content : text) : option (list text) :=
  whileExec content (S (List.length content)) importRegex 0 patternBody [].

(** ** Indexing *)

Section Indexing.

(** [basename] of Node's [path] module. *)
Variable basename : text -> text.

Record IndexResult : Type := mkIndexResult {
  filesIndexed : nat;
  functionsFound : nat;
  classesFound : nat;
  patternsExtracted : nat
}.

(** An extraction loop that never ended would leave the caller hanging. *)
Definition orHang {A} (o : option A) : M A :=
  match o with
  | Some a => ret a
  | None => hang
  end.

(** The object literal handed to [addCodeEntry] for one unit. *)
Definition toEntry (projectId : nat) (file : text) (type : string)
           (u : CodeUnit) : NewEntry :=
  mkNewEntry projectId file (name u) (js type) (code u)
             (slice0 200 (code u)) (lineStart u) (lineEnd u) (keywords u).

Definition storeUnit (projectId : nat) (file : text) (type : string)
           (u : CodeUnit) : M unit :=
  (_ <- addCodeEntry (toEntry projectId file type u) ;; ret tt)%store.

(** The body of [for (const file of files)]; [file] is a relative path
    with the content that [readFileSync] returns for it. *)
Definition indexFile (projectId : nat) (file : text * text)
           (counts : nat * nat * nat) : M (nat * nat * nat) :=
  let '(functionsFound, classesFound, patternsExtracted) := counts in
  (functions <- orHang (extractFunctions (snd file)) ;;
   forEach functions (storeUnit projectId (fst file) "function") ;;;
   classes <- orHang (extractClasses (snd file)) ;;
   forEach classes (storeUnit projectId (fst file) "class") ;;;
   patterns <- orHang (extractPatterns (snd file)) ;;
   ret (functionsFound + List.length functions,
        classesFound + List.length classes,
        patternsExtracted + List.length patterns))%store.

Fixpoint indexFiles (projectId : nat) (files : list (text * text))
         (counts : nat * nat * nat) : M (nat * nat * nat) :=
  match files with
  | [] => ret counts
  | file :: files' =>
      (counts' <- indexFile projectId file counts ;;
       indexFiles projectId files' counts')%store
  end.

(** [indexProject(path, options)]: [name] is [options.name]; [files] is
    what file discovery finds under [path] in this run, in its order, each
    with its content; [now] is the value of [datetime('now')]. *)
Definition indexProject (path : text) (name : option text)
           (files : list (text * text)) (now : text) : M IndexResult :=
  let projectName := match name with
                     | Some (c :: n) => c :: n
                     | _ => basename path
                     end in
  (projectId <- addProject projectName path now ;;
   clearProjectEntries projectId ;;;
   counts <- indexFiles projectId files (0, 0, 0) ;;
   updateProjectFileCount projectId (List.length files) ;;;
   let '(functionsFound, classesFound, patternsExtracted) := counts in
   ret (mkIndexResult (List.length files) functionsFound classesFound
                      patternsExtracted))%store.

Definition updateProject (projectName : text) (files : list (text * text))
           (now : text) : M unit :=
  fun st =>
    match getProject projectName st with
    | None => Throw (PROJECT_NOT_FOUND projectName) st
    | Some project =>
        (indexProject (p_path project) (Some projectName) files now ;;;
         ret tt)%store st
    end.

End Indexing.

End IndexManager.
Import IndexManager.

(* ================================================================== *)
(** * Queries ([src/query/QueryManager.ts]) *)
(* ================================================================== *)

Module QueryManager.

Definition CODE_ENTRY_NOT_FOUND : exn := Error (js "Code entry not found").

Definition getCode (id : nat) : M text :=
  fun st =>
    match getCodeEntry id st with
    | None => Throw CODE_ENTRY_NOT_FOUND st
    | Some entry => Ok (ce_code entry) st
    end.

End QueryManager.
Import QueryManager.


(* ================================================================== *)
(** * What a regex matches *)
(* ================================================================== *)

Module RegexSpec.

(** The texts a regex can consume, with captures and [\b] left out. *)
Fixpoint lang (r : regex) (w : text) : Prop :=
  match r with
  | Eps => w = []
  | Chr c => w = [c]
  | Class p => exists c, w = [c] /\ p c = true
  | Seq r1 r2 => exists w1 w2, w = w1 ++ w2 /\ lang r1 w1 /\ lang r2 w2
  | Alt r1 r2 => lang r1 w \/ lang r2 w
  | Opt r1 => w = [] \/ lang r1 w
  | Star p => forallb p w = true
  | Plus p => w <> [] /\ forallb p w = true
  | Group _ r1 => lang r1 w
  | WordB => w = []
  end.

(** The least number of characters a match consumes. *)
Fixpoint minLen (r : regex) : nat :=
  match r with
  | Eps => 0
  | Chr _ => 1
  | Class _ => 1
  | Seq r1 r2 => minLen r1 + minLen r2
  | Alt r1 r2 => Nat.min (minLen r1) (minLen r2)
  | Opt _ => 0
  | Star _ => 0
  | Plus _ => 1
  | Group _ r1 => minLen r1
  | WordB => 0
  end.

(** Group [n] lies on every path through the regex. *)
Fixpoint alwaysCaptures (n : nat) (r : regex) : bool :=
  match r with
  | Seq r1 r2 => alwaysCaptures n r1 || alwaysCaptures n r2
  | Alt r1 r2 => alwaysCaptures n r1 && alwaysCaptures n r2
  | Group k r1 => Nat.eqb k n || alwaysCaptures n r1
  | _ => false
  end.

(** What [exec] promises about a match it reports. *)
Definition goodMatch (content : text) (r : regex) (lastIndex : nat) (mt : MatchResult) : Prop :=
  lastIndex <= index mt
  /\ endIndex mt <= List.length content
  /\ exists w, substring (index mt) (endIndex mt) content = w
               /\ endIndex mt = index mt + List.length w
               /\ lang r w.

End RegexSpec.
Import RegexSpec.

(* ================================================================== *)
(** * Brace matching: the scan in closed form *)
(* ================================================================== *)

(** What the loop of [findClosingBrace] computes, written without the
    loop: the string mode and the depth after [n] characters as the source
    updates them, its own test of the preceding character included.  This
    describes the code; what the specification asks of the scan is
    [LiteralSpec] below. *)

Module BraceSpec.

Section Spec.

Variable content : text.
Variable start : nat.

Definition isQuote (c : char) : bool := char_eqb c DQUOTE || char_eqb c SQUOTE.

(** The value of [inString] and [stringChar] once [n] characters from
    [start] on have been examined: [Some q] when [inString] is set with
    [stringChar = q].  The flag is set on a quote met while it is clear and
    cleared on the same quote when the character before it is not a
    backslash. *)
Fixpoint modeAfter (n : nat) : option char :=
  match n with
  | O => None
  | S n' =>
      match nth_error content (start + n') with
      | None => modeAfter n'
      | Some c =>
          match modeAfter n' with
          | Some q =>
              if char_eqb c q && notEscaped content (start + n')
              then None else Some q
          | None => if isQuote c then Some c else None
          end
      end
  end.

(** What the character at offset [start + n] adds to the nesting depth:
    nothing inside a literal, [+1] for an opening and [-1] for a closing
    brace outside. *)
Definition delta (n : nat) : Z :=
  match modeAfter n, nth_error content (start + n) with
  | None, Some c =>
      if char_eqb c LBRACE then 1%Z
      else if char_eqb c RBRACE then (-1)%Z else 0%Z
  | _, _ => 0%Z
  end.

(** The nesting depth once [n] characters have been examined. *)
Fixpoint depthAfter (n : nat) : Z :=
  match n with
  | O => 0%Z
  | S n' => (depthAfter n' + delta n')%Z
  end.

(** The character at offset [start + n] is a closing brace outside any
    literal that brings the depth back to zero. *)
Definition closesAt (n : nat) : bool :=
  match modeAfter n, nth_error content (start + n) with
  | None, Some c => char_eqb c RBRACE && (depthAfter (S n) =? 0)%Z
  | _, _ => false
  end.

(** The first such character, if any. *)
Definition firstClose : option nat :=
  find closesAt (seq 0 (List.length content - start)).

(** The offset just after it, or the end of the text. *)
Definition closingOffset : nat :=
  match firstClose with
  | Some n => S (start + n)
  | None => List.length content
  end.

End Spec.

End BraceSpec.
Import BraceSpec.

(* ================================================================== *)
(** * Brace matching, as the specification words it *)
(* ================================================================== *)

(** The specification: a nesting depth, incremented on an opening and
    decremented on a closing brace, and a string-literal mode, entered on
    an unescaped quote character and exited on a matching unescaped quote
    of the same kind; characters inside string-literal mode never affect
    the depth; the result is the offset immediately after the closing
    brace that brings the depth back to zero, and the end of the text if
    there is none. *)

Module LiteralSpec.

(** The backslashes at the head of a text. *)
Fixpoint leadingBackslashes (s : text) : nat :=
  match s with
  | c :: s' => if char_eqb c BACKSLASH then S (leadingBackslashes s') else 0
  | [] => 0
  end.

(** The backslashes that stand immediately before offset [i]. *)
Definition backslashesBefore (content : text) (i : nat) : nat :=
  leadingBackslashes (rev (firstn i content)).

(** The character at offset [i] is escaped: the backslashes immediately
    before it are odd in number, so that, paired off from the left, one is
    left over for it. *)
Definition escaped (content : text) (i : nat) : bool :=
  Nat.odd (backslashesBefore content i).

Section Spec.

Variable content : text.
Variable start : nat.

(** The unescaped quote character at offset [i], if there is one. *)
Definition unescapedQuote (i : nat) : option char :=
  match nth_error content i with
  | Some c => if isQuote c && negb (escaped content i) then Some c else None
  | None => None
  end.

(** The literal that is open once [n] characters from [start] on have
    been read: [Some q] inside a literal that the quote [q] opened. *)
Fixpoint literalAfter (n : nat) : option char :=
  match n with
  | O => None
  | S n' =>
      match literalAfter n', unescapedQuote (start + n') with
      | None, Some q => Some q
      | Some q, Some q' => if char_eqb q q' then None else Some q
      | mode, None => mode
      end
  end.

(** The character at offset [start + n] is a brace outside every
    literal. *)
Definition braceAt (brace : char) (n : nat) : bool :=
  match literalAfter n, nth_error content (start + n) with
  | None, Some c => char_eqb c brace
  | _, _ => false
  end.

(** The nesting depth once [n] characters have been read. *)
Fixpoint depth (n : nat) : Z :=
  match n with
  | O => 0%Z
  | S n' =>
      if braceAt LBRACE n' then (depth n' + 1)%Z
      else if braceAt RBRACE n' then (depth n' - 1)%Z
      else depth n'
  end.

(** The character at offset [start + n] is a closing brace outside every
    literal that brings the depth back to zero. *)
Definition closes (n : nat) : bool :=
  braceAt RBRACE n && (depth (S n) =? 0)%Z.

(** The offset immediately after the first such brace, or the end of the
    text. *)
Definition matchingOffset : nat :=
  match find closes (seq 0 (List.length content - start)) with
  | Some n => S (start + n)
  | None => List.length content
  end.

End Spec.

(** The text holds no backslash. *)
Definition noBackslash (content : text) : bool :=
  forallb (fun c => negb (char_eqb c BACKSLASH)) content.

End LiteralSpec.
Import LiteralSpec.

(* ================================================================== *)
(** * Worked inputs and properties under discussion *)
(* ================================================================== *)

Module Samples.

(** The text [function f() { const s = Q{Q; return s; }], where [Q] is the
    double quote. *)
Definition quotedBrace : text :=
  js "function f() { const s = " ++ [DQUOTE] ++ js "{" ++ [DQUOTE]
     ++ js "; return s; }".

(** Two functions: the first holds the literal of one escaped backslash,
    the second a literal with a closing brace in it. *)
Definition escapedBackslash : text :=
  js "function f() { var a = '\\'; } function g() { return '}'; }".

Definition ifStatement : text := js "if (x) { y(); }".

Definition oneLiner : text := js "function f() {}".

(** ** A project indexed twice *)

(** Stands for [basename]; the runs below always pass a name. *)
Definition lastSegment (path : text) : text := path.

Definition emptyStore (foreign_keys : bool) : Store :=
  mkStore [] [] 0 0 foreign_keys.

Definition firstFiles : list (text * text) :=
  [(js "a.ts", js "function foo() { return 1; }")].

Definition secondFiles : list (text * text) :=
  [(js "a.ts", js "function bar() { return 2; }")].

(** The row that the first run stores for [foo]. *)
Definition fooEntry : CodeEntry :=
  mkEntry 1 1 (js "a.ts") (js "foo") (js "function")
          (js "function foo() { return 1; }")
          (js "function foo() { return 1; }") 1 2 (js "foo").

(** The row that a second run stores for [bar]. *)
Definition barEntry : CodeEntry :=
  mkEntry 2 2 (js "a.ts") (js "bar") (js "function")
          (js "function bar() { return 2; }")
          (js "function bar() { return 2; }") 1 2 (js "bar").

(** The store after [devmem index /src/api --name api] on an empty
    store. *)
Definition indexedOnce (foreign_keys : bool) : Store :=
  mkStore [mkProject 1 (js "api") (js "/src/api") 1 (js "t1")]
          [fooEntry] 1 1 foreign_keys.

End Samples.
Import Samples.

Module Properties.

(** [a] is a prefix of [b]. *)
Definition isPrefix (a b : text) : Prop := exists rest, b = a ++ rest.

(** Every unit that either extractor emits for [content] satisfies [P]. *)
Definition allUnits (content : text) (P : CodeUnit -> Prop) : Prop :=
  exists functions classes,
    extractFunctions content = Some functions
    /\ extractClasses content = Some classes
    /\ Forall P (functions ++ classes).

(** The end line is the start line plus the newlines of the body. *)
Definition endIsStartPlusNewlines (u : CodeUnit) : Prop :=
  lineEnd u = lineStart u + count NL (code u).

(** The end line is the start line plus the lines of the body, which are
    one more than its newlines. *)
Definition endIsStartPlusLines (u : CodeUnit) : Prop :=
  lineEnd u = lineStart u + count NL (code u) + 1.

(** The invariant of a stored unit. *)
Definition wellLocated (u : CodeUnit) : Prop :=
  forall (projectId : nat) (file : text) (type : string),
    let e := toEntry projectId file type u in
    1 <= entryLineStart e
    /\ entryLineStart e <= entryLineEnd e
    /\ entryCode e = code u
    /\ isPrefix (snippet e) (entryCode e)
    /\ List.length (snippet e) <= 200.

(** [t] has the shape of an identifier: a letter or underscore, then word
    characters. *)
Definition isIdentifier (t : text) : Prop :=
  exists c rest, t = c :: rest /\ isIdentStart c = true
                 /\ forallb isWord rest = true.

Definition isLowerCased (t : text) : Prop := toLowerCase t = t.

(** The keywords string as the specification describes it: lower-cased
    identifier tokens joined by single spaces, no token twice, none of
    length two or less, none in the stoplist. *)
Definition keywordsAsSpecified (kw : text) : Prop :=
  exists tokens,
    kw = join [SPACE] tokens
    /\ NoDup tokens
    /\ Forall (fun t => isIdentifier t /\ isLowerCased t
                        /\ 2 < List.length t /\ ~ In t excluded) tokens.

(** The keywords string as the code builds it: the stoplist is consulted
    with the word as it is spelled in the code, before lower-casing. *)
Definition keywordsAsBuilt (code kw : text) : Prop :=
  exists ws tokens,
    words code = Some ws
    /\ kw = join [SPACE] tokens
    /\ NoDup tokens
    /\ Forall (fun t => isIdentifier t /\ isLowerCased t
                        /\ 2 < List.length t
                        /\ exists word, In word ws /\ t = toLowerCase word
                                        /\ ~ In word excluded) tokens.

Definition capitalized : text := js "Function".

(** ** Search *)

(** [q] starts [s], the case of ASCII letters ignored. *)
Fixpoint startsWithCI (q s : text) : bool :=
  match q, s with
  | [], _ => true
  | _ :: _, [] => false
  | c :: q', d :: s' => likeCharEq c d && startsWithCI q' s'
  end.

(** The query substring appears in [s], the case of ASCII letters
    ignored. *)
Definition occursIn (q s : text) : bool := anySuffix (startsWithCI q) s.

(** The tier table of the specification: the first field in which the
    query substring appears decides. *)
Definition substringTier (query : text) (ce : CodeEntry) : nat :=
  if occursIn query (ce_name ce) then 100
  else if occursIn query (ce_keywords ce) then 50
  else if occursIn query (ce_snippet ce) then 25
  else 10.

(** The query holds neither of the wildcards of [LIKE]. *)
Definition wildcardFree (query : text) : bool :=
  forallb (fun c => negb (char_eqb c PERCENT || char_eqb c UNDERSCORE)) query.

(** The text does not hold the character U+0000. *)
Definition noNul (s : text) : bool :=
  forallb (fun c => negb (char_eqb c NUL)) s.

(** Ascending lexicographic order on texts. *)
Inductive lexLe : text -> text -> Prop :=
| lexLe_nil (b : text) : lexLe [] b
| lexLe_lt (x y : char) (a b : text) : (x < y)%N -> lexLe (x :: a) (y :: b)
| lexLe_eq (x : char) (a b : text) : lexLe a b -> lexLe (x :: a) (x :: b).

(** [r1] may stand before [r2]: a higher score, or the same score and a
    name that is not greater. *)
Definition rowOrder (r1 r2 : SearchRow) : Prop :=
  rowRelevance r2 < rowRelevance r1
  \/ (rowRelevance r1 = rowRelevance r2
      /\ lexLe (ce_name (entry r1)) (ce_name (entry r2))).

(** The two entries of the ordering example, in one project. *)
Definition authLogin : CodeEntry :=
  mkEntry 1 1 (js "auth.ts") (js "authLogin") (js "function")
          (js "function authLogin() {}") (js "function authLogin() {}") 1 2
          (js "token session").

Definition login : CodeEntry :=
  mkEntry 2 1 (js "auth.ts") (js "login") (js "function")
          (js "function login() {}") (js "function login() {}") 3 4
          (js "auth token").

Definition authStore : Store :=
  mkStore [mkProject 1 (js "api") (js "/src/api") 1 (js "2024-01-01 00:00:00")]
          [login; authLogin] 1 2 true.

(** An entry that the query [_] reaches through the wildcard only. *)
Definition abc : CodeEntry :=
  mkEntry 1 1 (js "a.ts") (js "abc") (js "function")
          (js "function abc() {}") (js "function abc() {}") 1 2 (js "a_b").

Definition abcStore : Store :=
  mkStore [mkProject 1 (js "api") (js "/src/api") 1 (js "2024-01-01 00:00:00")]
          [abc] 1 1 true.

(** A function whose body holds [return] past its 200th character only,
    and the store that indexing it leaves: [return] is a stoplist word, so
    that the name, the keywords and the snippet of the entry do not hold
    it. *)
Definition deepCode : text :=
  js "function pad() { " ++ repeat 47%N 200 ++ js " return 1 }".

Definition deep : CodeEntry :=
  mkEntry 1 1 (js "a.ts") (js "pad") (js "function")
          deepCode (slice0 200 deepCode) 1 2 (js "pad").

Definition deepStore : Store :=
  mkStore [mkProject 1 (js "api") (js "/src/api") 1 (js "t1")]
          [deep] 1 1 true.

(** A unit as [unitAt] builds it. *)
Definition builtAt (content : text) (u : CodeUnit) : Prop :=
  exists nm idx, unitAt content nm idx = Some u.

(** What holds of every token in the set. *)
Definition tokenBuilt (ws : list text) (t : text) : Prop :=
  isIdentifier t /\ isLowerCased t /\ 2 < List.length t
  /\ exists word, In word ws /\ t = toLowerCase word /\ ~ In word excluded.

(** A row of [code_entries] that refers to project [id] can be inserted:
    the reference is not checked, or the project is there. *)
Definition canInsert (id : nat) (st : Store) : Prop :=
  foreign_keys st = false
  \/ existsb (fun p => Nat.eqb (p_id p) id) (projects st) = true.

(** What indexing under project [id] stores for a unit. *)
Definition storedFor (id : nat) (ce : CodeEntry) : Prop :=
  ce_project_id ce = id
  /\ 1 <= ce_line_start ce
  /\ ce_line_start ce <= ce_line_end ce
  /\ ce_snippet ce = slice0 200 (ce_code ce).

(** [st'] holds the entries of [st], in order, and after them only entries
    stored for project [id]. *)
Definition extends (id : nat) (st st' : Store) : Prop :=
  exists added,
    code_entries st' = code_entries st ++ added
    /\ Forall (storedFor id) added.

End Properties.
Import Properties.

(** Comparisons of character codes, read as propositions. *)
Ltac bool_to_prop :=
  repeat rewrite ?orb_true_iff, ?andb_true_iff, ?andb_false_iff,
                 ?N.leb_le, ?N.leb_gt, ?N.eqb_eq, ?N.eqb_neq in *.

(* ================================================================== *)
(** * The store as the tool leaves it *)
(* ================================================================== *)

Module StoreSpec.

(** The row that [addCodeEntry] inserts for [e] under the id [id]. *)
Definition rowOf (id : nat) (e : NewEntry) : CodeEntry :=
  mkEntry id (projectId e) (filePath e) (entryName e) (entryType e)
          (entryCode e) (snippet e) (entryLineStart e) (entryLineEnd e)
          (entryKeywords e).

(** The rows for a batch of entries inserted one after the other when the
    last id given out was [last]. *)
Fixpoint stored (last : nat) (news : list NewEntry) : list CodeEntry :=
  match news with
  | [] => []
  | e :: news' => rowOf (S last) e :: stored (S last) news'
  end.

(** The store after that batch. *)
Definition withEntries (st : Store) (news : list NewEntry) : Store :=
  mkStore (projects st)
          (code_entries st ++ stored (seq_code_entries st) news)
          (seq_projects st)
          (seq_code_entries st + List.length news)
          (foreign_keys st).

(** What one file contributes: its functions, then its classes. *)
Definition entriesOf (id : nat) (file : text) (functions classes : list CodeUnit)
  : list NewEntry :=
  map (toEntry id file "function") functions
  ++ map (toEntry id file "class") classes.

(** The constraints of the schema that concern keys: ids are unique and
    were given out by the counters, project names are unique. *)
Definition wfStore (st : Store) : Prop :=
  NoDup (map p_id (projects st))
  /\ NoDup (map p_name (projects st))
  /\ Forall (fun p => p_id p <= seq_projects st) (projects st)
  /\ NoDup (map ce_id (code_entries st))
  /\ Forall (fun ce => ce_id ce <= seq_code_entries st) (code_entries st).

(** Every entry refers to a stored project. *)
Definition noOrphans (st : Store) : Prop :=
  Forall (fun ce => exists p, In p (projects st) /\ p_id p = ce_project_id ce)
         (code_entries st).

Section Reach.

Variable basename : text -> text.

(** The stores that runs of the indexer and removals lead to from an empty
    database. *)
Inductive Reachable : Store -> Prop :=
| reach_empty (fk : bool) : Reachable (emptyStore fk)
| reach_index (st st' : Store) (path : text) (name : option text)
              (files : list (text * text)) (now : text) (r : IndexResult) :
    Reachable st ->
    indexProject basename path name files now st = Ok r st' ->
    Reachable st'
| reach_remove (st st' : Store) (name : text) :
    Reachable st -> removeProject name st = Ok tt st' -> Reachable st'.

End Reach.

(** [options.name || basename(path)] *)
Definition projectNameOf (basename : text -> text) (path : text)
           (name : option text) : text :=
  match name with
  | Some (c :: n) => c :: n
  | _ => basename path
  end.

End StoreSpec.
Import StoreSpec.

(* ================================================================== *)
(** * More about what the extractor emits *)
(* ================================================================== *)

Module ExtractorSpec.

(** The groups of a regex, each with the regex it encloses. *)
Fixpoint groupsOf (r : regex) : list (nat * regex) :=
  match r with
  | Seq r1 r2 => groupsOf r1 ++ groupsOf r2
  | Alt r1 r2 => groupsOf r1 ++ groupsOf r2
  | Opt r1 => groupsOf r1
  | Group n r1 => (n, r1) :: groupsOf r1
  | _ => []
  end.

(** A character that is neither a brace nor a quote. *)
Definition plain (c : char) : bool :=
  negb (char_eqb c LBRACE || char_eqb c RBRACE
        || char_eqb c DQUOTE || char_eqb c SQUOTE).

(** Text without quotes in which every brace has its partner. *)
Inductive Balanced : text -> Prop :=
| bal_nil : Balanced []
| bal_plain (c : char) (b : text) :
    plain c = true -> Balanced b -> Balanced (c :: b)
| bal_block (b1 b2 : text) :
    Balanced b1 -> Balanced b2 ->
    Balanced ([LBRACE] ++ b1 ++ [RBRACE] ++ b2).

(** A name as [\w+] captures it. *)
Definition isWordName (nm : text) : Prop :=
  nm <> [] /\ forallb isWord nm = true.

(** The unit is a non-empty slice of the file, its start line is the line
    of the slice's first character, and its end line is at most one past
    the last line of the file. *)
Definition withinFile (content : text) (u : CodeUnit) : Prop :=
  exists before after,
    content = before ++ code u ++ after
    /\ code u <> []
    /\ lineStart u = S (count NL before)
    /\ lineEnd u <= S (List.length (split NL content)).

(** A unit as [unitAt] builds it from a match inside the text with a
    captured name. *)
Definition builtInside (content : text) (u : CodeUnit) : Prop :=
  exists nm idx,
    idx < List.length content /\ isWordName nm
    /\ unitAt content nm idx = Some u.

(** A tag of [extractPatterns]: [import:] and the module as written
    between the quotes. *)
Definition isImportTag (tag : text) : Prop :=
  exists module,
    tag = js "import:" ++ module
    /\ module <> [] /\ forallb notLineTerminator module = true.

(** The words that [extractKeywords] keeps. *)
Definition keeps (word : text) : Prop :=
  ~ In word excluded /\ 2 < List.length word.

End ExtractorSpec.
Import ExtractorSpec.

(* ================================================================== *)
(** * Listing and statistics ([src/db/Database.ts]) *)
(* ================================================================== *)

Module Reports.

(** [ORDER BY indexed_at DESC] *)
Definition projectLeb (a b : Project) : bool :=
  text_leb (p_indexed_at b) (p_indexed_at a).

Fixpoint insertProject (p : Project) (l : list Project) : list Project :=
  match l with
  | [] => [p]
  | q :: l' => if projectLeb p q then p :: l else q :: insertProject p l'
  end.

(** [SELECT * FROM projects ORDER BY indexed_at DESC] *)
Definition getProjects (st : Store) : list Project :=
  fold_right insertProject [] (projects st).

(** The row that [getStats] returns; [None] is SQL's [NULL]. *)
Record Stats : Type := mkStats {
  totalProjects : nat;
  totalFiles : option nat;
  totalFunctions : option nat;
  totalClasses : option nat;
  totalPatterns : option nat;
  totalLines : option Z
}.

(** The entries of a project. *)
Definition entriesOfProject (st : Store) (p : Project) : list CodeEntry :=
  filter (fun ce => Nat.eqb (p_id p) (ce_project_id ce)) (code_entries st).

(** [FROM projects p LEFT JOIN code_entries ce ON p.id = ce.project_id]: a
    project without entries gives one row with no entry. *)
Definition leftJoin (st : Store) : list (Project * option CodeEntry) :=
  flat_map (fun p =>
              match entriesOfProject st p with
              | [] => [(p, None)]
              | ces => map (fun ce => (p, Some ce)) ces
              end)
           (projects st).

(** [SUM] over the values that are not [NULL]: [NULL] when there are
    none. *)
Definition sumNat (l : list nat) : option nat :=
  match l with
  | [] => None
  | _ :: _ => Some (fold_right Nat.add 0 l)
  end.

Definition sumZ (l : list Z) : option Z :=
  match l with
  | [] => None
  | _ :: _ => Some (fold_right Z.add 0%Z l)
  end.

(** [CASE WHEN ce.type = ? THEN 1 ELSE 0 END], which is 0 for a row
    without an entry. *)
Definition isOfType (type : string) (row : Project * option CodeEntry) : nat :=
  match snd row with
  | Some ce => if text_eqb (ce_type ce) (js type) then 1 else 0
  | None => 0
  end.

(** [ce.line_end - ce.line_start], [NULL] for a row without an entry. *)
Definition lineSpan (row : Project * option CodeEntry) : list Z :=
  match snd row with
  | Some ce => [(Z.of_nat (ce_line_end ce) - Z.of_nat (ce_line_start ce))%Z]
  | None => []
  end.

Definition getStats (st : Store) : Stats :=
  let rows := leftJoin st in
  mkStats
    (List.length (nodup Nat.eq_dec (map (fun row => p_id (fst row)) rows)))
    (sumNat (map (fun row => p_file_count (fst row)) rows))
    (sumNat (map (isOfType "function") rows))
    (sumNat (map (isOfType "class") rows))
    (sumNat (map (isOfType "pattern") rows))
    (sumZ (flat_map lineSpan rows)).

(** Newest first, by the text of [indexed_at]. *)
Definition newerFirst (a b : Project) : Prop :=
  lexLe (p_indexed_at b) (p_indexed_at a).

(** The sum of a list of numbers. *)
Definition total (l : list nat) : nat := fold_right Nat.add 0 l.

(** The rows of one project. *)
Definition rowsOf (st : Store) (p : Project)
  : list (Project * option CodeEntry) :=
  match entriesOfProject st p with
  | [] => [(p, None)]
  | ces => map (fun ce => (p, Some ce)) ces
  end.

End Reports.
Import Reports.

(* ================================================================== *)
(** * The export ([src/query/QueryManager.ts]) *)
(* ================================================================== *)

Module ContextExport.

Fixpoint digits (u : Decimal.uint) : text :=
  match u with
  | Decimal.Nil => []
  | Decimal.D0 u' => 48%N :: digits u'
  | Decimal.D1 u' => 49%N :: digits u'
  | Decimal.D2 u' => 50%N :: digits u'
  | Decimal.D3 u' => 51%N :: digits u'
  | Decimal.D4 u' => 52%N :: digits u'
  | Decimal.D5 u' => 53%N :: digits u'
  | Decimal.D6 u' => 54%N :: digits u'
  | Decimal.D7 u' => 55%N :: digits u'
  | Decimal.D8 u' => 56%N :: digits u'
  | Decimal.D9 u' => 57%N :: digits u'
  end.

(** A length in a template literal. *)
Definition decimal (n : nat) : text := digits (Nat.to_uint n).

Definition BACKTICK : char := 96%N.

(** The text that [markdown] starts with. *)
Definition HEADER : text :=
  js "# DevMem Code Context" ++ [NL; NL]
  ++ js "This file contains indexed code patterns from your projects." ++ [NL]
  ++ js "Use it as context when working with AI coding assistants."
  ++ [NL; NL].

(** The body of the two [forEach].  A row carries the columns of
    [code_entries] under their SQL names, [file_path] among them; it has no
    property [filePath], and the template prints [undefined] for it. *)
Definition renderEntry (r : SearchRow) : text :=
  js "#### " ++ ce_name (entry r) ++ [NL; NL]
  ++ js "File: " ++ [BACKTICK] ++ js "undefined" ++ [BACKTICK]
  ++ [NL; NL]
  ++ [BACKTICK; BACKTICK; BACKTICK] ++ js "typescript" ++ [NL]
  ++ ce_snippet (entry r)
  ++ [NL] ++ [BACKTICK; BACKTICK; BACKTICK] ++ [NL; NL].

(** [entries.filter(e => e.type === type)] *)
Definition ofType (type : string) (rows : list SearchRow) : list SearchRow :=
  filter (fun r => text_eqb (ce_type (entry r)) (js type)) rows.

(** [rows.slice(0, 20)] *)
Definition shown (rows : list SearchRow) : list SearchRow := firstn 20 rows.

(** One of the two [if (rows.length > 0)] blocks. *)
Definition renderGroup (title : string) (rows : list SearchRow) : text :=
  match rows with
  | [] => []
  | _ :: _ =>
      js "### " ++ js title ++ js " (" ++ decimal (List.length rows)
      ++ js ")" ++ [NL; NL]
      ++ List.concat (map renderEntry (shown rows))
  end.

(** [this.db.searchCode('', { project: project.name, limit: 1000 })] *)
Definition entriesFor (st : Store) (project : Project) : list SearchRow :=
  searchCode [] (Some (p_name project)) None 1000 st.

(** The body of [for (const project of projects)]. *)
Definition renderProject (st : Store) (project : Project) : text :=
  let entries := entriesFor st project in
  js "## Project: " ++ p_name project ++ [NL; NL]
  ++ js "Path: " ++ p_path project ++ [NL; NL]
  ++ renderGroup "Functions" (ofType "function" entries)
  ++ renderGroup "Classes" (ofType "class" entries)
  ++ [NL] ++ js "---" ++ [NL; NL].

(** [options.project ? [getProject(options.project)].filter(Boolean)
    : getProjects()] *)
Definition exportedProjects (project : option text) (st : Store)
  : list Project :=
  match project with
  | Some (c :: n) =>
      match getProject (c :: n) st with
      | Some p => [p]
      | None => []
      end
  | _ => getProjects st
  end.

(** [exportContext(options)]: the text handed to [writeFileSync] for
    [options.output]. *)
Definition exportContext (project : option text) (st : Store) : text :=
  HEADER ++ List.concat (map (renderProject st) (exportedProjects project st)).

End ContextExport.
Import ContextExport.

(* ================================================================== *)
(** * Updating every project ([src/indexer/IndexManager.ts]) *)
(* ================================================================== *)

Module Batch.

Section Batch.

Variable basename : text -> text.

(** What file discovery and reading give for a path at the [k]-th turn of
    the loop, and the time at that turn. *)
Variable filesAt : nat -> text -> list (text * text).
Variable clock : nat -> text.

(** [for (const project of projects) await this.indexProject(project.path,
    { name: project.name })], from the [k]-th turn on. *)
Fixpoint updateEach (k : nat) (ps : list Project) : M unit :=
  match ps with
  | [] => ret tt
  | project :: ps' =>
      (indexProject basename (p_path project) (Some (p_name project))
                    (filesAt k (p_path project)) (clock k) ;;;
       updateEach (S k) ps')%store
  end.

Definition updateAllProjects : M unit :=
  fun st => updateEach 0 (getProjects st) st.

End Batch.

(** The names of the stored projects. *)
Definition projectNames (st : Store) : list text := map p_name (projects st).

(** How a batch may end: well, or with the refusal of a database that
    enforces foreign keys; in both cases with the same project names and
    with unique keys. *)
Definition batchOutcome (st : Store) (out : result unit) : Prop :=
  match out with
  | Ok _ st' =>
      Permutation (projectNames st') (projectNames st) /\ wfStore st'
  | Throw e st' =>
      e = FK_FAILED /\ foreign_keys st = true
      /\ Permutation (projectNames st') (projectNames st) /\ wfStore st'
  | Hang => False
  end.

End Batch.
Import Batch.
(* ================================================================== *)
(** * Facts about the matcher *)
(* ================================================================== *)

Module RegexFacts.

Lemma lang_minLen (r : regex) : forall w, lang r w -> minLen r <= List.length w.
Proof.
  induction r; simpl; intros w H.
  - lia.
  - subst; simpl; lia.
  - destruct H as (c & -> & _); simpl; lia.
  - destruct H as (w1 & w2 & -> & H1 & H2).
    rewrite length_app. specialize (IHr1 _ H1). specialize (IHr2 _ H2). lia.
  - destruct H as [H | H]; [specialize (IHr1 _ H) | specialize (IHr2 _ H)]; lia.
  - lia.
  - lia.
  - destruct H as [H _]. destruct w; [congruence | simpl; lia].
  - auto.
  - lia.
Qed.

Section Soundness.

Variable content : text.

Lemma star_sound {A} (p : char -> bool) (s : text) :
  forall (i : nat) (k : nat -> text -> option A) (x : A),
    star p i s k = Some x ->
    exists w s', s = w ++ s' /\ forallb p w = true
                 /\ k (i + List.length w) s' = Some x.
Proof.
  induction s as [| c s IH]; simpl; intros i k x H.
  - exists [], []. simpl. rewrite Nat.add_0_r. auto.
  - destruct (p c) eqn:Hp.
    + destruct (star p (S i) s k) eqn:Hs.
      * inversion H; subst.
        destruct (IH _ _ _ Hs) as (w & s' & -> & Hw & Hk).
        exists (c :: w), s'. simpl. rewrite Hp, Hw.
        replace (i + S (List.length w)) with (S i + List.length w) by lia.
        auto.
      * exists [], (c :: s). simpl. rewrite Nat.add_0_r. auto.
    + exists [], (c :: s). simpl. rewrite Nat.add_0_r. auto.
Qed.

(** Whatever the matcher accepts, it accepts by consuming a text of the
    regex's language and handing the rest to the continuation. *)
Lemma m_sound {A} (r : regex) :
  forall (i : nat) (s : text) (caps : captures)
         (k : nat -> text -> captures -> option A) (x : A),
    m content r i s caps k = Some x ->
    exists w s' caps', s = w ++ s' /\ lang r w
                       /\ k (i + List.length w) s' caps' = Some x.
Proof.
  induction r; simpl; intros i s caps k x H.
  - exists [], s, caps. simpl. rewrite Nat.add_0_r. auto.
  - destruct s as [| d s']; [discriminate |].
    destruct (char_eqb d c) eqn:E; [| discriminate].
    apply N.eqb_eq in E; subst d.
    exists [c], s', caps. simpl. rewrite Nat.add_1_r. auto.
  - destruct s as [| d s']; [discriminate |].
    destruct (p d) eqn:E; [| discriminate].
    exists [d], s', caps. simpl. rewrite Nat.add_1_r. eauto.
  - destruct (IHr1 _ _ _ _ _ H) as (w1 & s1 & caps1 & -> & L1 & H1).
    destruct (IHr2 _ _ _ _ _ H1) as (w2 & s2 & caps2 & -> & L2 & H2).
    exists (w1 ++ w2), s2, caps2. rewrite <- app_assoc, length_app.
    rewrite Nat.add_assoc. eauto 10.
  - destruct (m content r1 i s caps k) eqn:E.
    + inversion H; subst.
      destruct (IHr1 _ _ _ _ _ E) as (w & s' & caps' & -> & L & Hk). eauto 10.
    + destruct (IHr2 _ _ _ _ _ H) as (w & s' & caps' & -> & L & Hk). eauto 10.
  - destruct (m content r i s caps k) eqn:E.
    + inversion H; subst.
      destruct (IHr _ _ _ _ _ E) as (w & s' & caps' & -> & L & Hk). eauto 10.
    + exists [], s, caps. simpl. rewrite Nat.add_0_r. auto.
  - destruct (star_sound _ _ _ _ H) as (w & s' & -> & Hw & Hk). eauto 10.
  - destruct s as [| d s']; [discriminate |].
    destruct (p d) eqn:E; [| discriminate].
    destruct (star_sound _ _ _ _ H) as (w & s'' & -> & Hw & Hk).
    exists (d :: w), s'', caps. simpl. rewrite E, Hw.
    replace (i + S (List.length w)) with (S i + List.length w) by lia.
    repeat split; auto. discriminate.
  - destruct (IHr _ _ _ _ _ H) as (w & s' & caps' & -> & L & Hk). eauto 10.
  - destruct (xorb _ _); [| discriminate].
    exists [], s, caps. simpl. rewrite Nat.add_0_r. auto.
Qed.

Lemma execAt_sound (r : regex) (s : text) :
  forall (i : nat) (mt : MatchResult),
    s = skipn i content -> i <= List.length content ->
    execAt content r i s = Some mt -> goodMatch content r i mt.
Proof.
  induction s as [| c s IH]; intros i mt Hs Hi H; simpl in H.
  - destruct (m content r i [] [] _) eqn:E; [| discriminate].
    inversion H; subst m0; clear H.
    destruct (m_sound _ _ _ _ _ E) as (w & s' & caps' & Hw & L & Hk).
    inversion Hk; subst mt; clear Hk.
    destruct w; [| discriminate]. unfold goodMatch; simpl.
    rewrite Nat.add_0_r. repeat split; auto.
    exists []. unfold substring. rewrite Nat.min_id, Nat.max_id, Nat.sub_diag.
    auto.
  - destruct (m content r i (c :: s) [] _) eqn:E.
    + inversion H; subst m0; clear H.
      destruct (m_sound _ _ _ _ _ E) as (w & s' & caps' & Hw & L & Hk).
      inversion Hk; subst mt; clear Hk.
      assert (Hlen : List.length (skipn i content) = List.length w + List.length s')
        by (rewrite <- Hs, Hw, length_app; reflexivity).
      rewrite length_skipn in Hlen.
      unfold goodMatch; simpl. repeat split; auto; try lia.
      exists w. unfold substring.
      rewrite Nat.min_l, Nat.max_r by lia.
      replace (i + List.length w - i) with (List.length w) by lia.
      rewrite <- Hs, Hw, firstn_app, Nat.sub_diag, firstn_all. simpl.
      rewrite app_nil_r. auto.
    + assert (Hlen : List.length (skipn i content) = S (List.length s))
        by (rewrite <- Hs; reflexivity).
      rewrite length_skipn in Hlen.
      assert (G : goodMatch content r (S i) mt).
      { apply IH; auto; try lia.
        replace (S i) with (1 + i) by lia.
        rewrite <- skipn_skipn, <- Hs. reflexivity. }
      destruct G as (G1 & G2 & G3). unfold goodMatch. repeat split; auto; lia.
Qed.

Lemma exec_sound (r : regex) (lastIndex : nat) (mt : MatchResult) :
  exec content r lastIndex = Some mt -> goodMatch content r lastIndex mt.
Proof.
  unfold exec. destruct (Nat.ltb_spec (List.length content) lastIndex);
    [discriminate |].
  apply execAt_sound; auto.
Qed.

Lemma exec_progress (r : regex) (lastIndex : nat) (mt : MatchResult) :
  exec content r lastIndex = Some mt ->
  lastIndex + minLen r <= endIndex mt /\ endIndex mt <= List.length content.
Proof.
  intros H. destruct (exec_sound _ _ H) as (H1 & H2 & w & _ & H3 & L).
  apply lang_minLen in L. lia.
Qed.

(** A [while]-[exec] loop over a regex that cannot match the empty text
    ends, and keeps any invariant that its body keeps on the matches the
    loop can hand to it. *)
Lemma whileExec_inv {A} (r : regex) (body : MatchResult -> A -> option A)
      (P : A -> Prop) (Q : MatchResult -> Prop) :
  0 < minLen r ->
  (forall li mt, exec content r li = Some mt -> Q mt) ->
  (forall mt acc, Q mt -> P acc ->
                  exists acc', body mt acc = Some acc' /\ P acc') ->
  forall (fuel lastIndex : nat) (acc : A),
    List.length content - lastIndex < fuel -> P acc ->
    exists out, whileExec content fuel r lastIndex body acc = Some out /\ P out.
Proof.
  intros Hmin HQ Hbody. induction fuel as [| fuel IH]; intros li acc Hf HP.
  - lia.
  - simpl. destruct (exec content r li) eqn:E; [| eauto].
    destruct (Hbody m0 acc (HQ _ _ E) HP) as (acc' & -> & HP').
    apply exec_progress in E. apply IH; auto. lia.
Qed.

(** A group on every path through the regex is set in every match. *)
Lemma m_captures {A} (n : nat) (r : regex) :
  forall (i : nat) (s : text) (caps : captures)
         (k : nat -> text -> captures -> option A) (x : A),
    m content r i s caps k = Some x ->
    exists i' s' caps',
      k i' s' caps' = Some x
      /\ (alwaysCaptures n r = true \/ capture n caps <> None ->
          capture n caps' <> None).
Proof.
  induction r; simpl; intros i s caps k x H.
  - exists i, s, caps. split; auto. intros [? | ?]; [discriminate | auto].
  - destruct s as [| d s']; [discriminate |].
    destruct (char_eqb d c); [| discriminate].
    exists (S i), s', caps. split; auto. intros [? | ?]; [discriminate | auto].
  - destruct s as [| d s']; [discriminate |].
    destruct (p d); [| discriminate].
    exists (S i), s', caps. split; auto. intros [? | ?]; [discriminate | auto].
  - destruct (IHr1 _ _ _ _ _ H) as (i1 & s1 & caps1 & H1 & C1).
    destruct (IHr2 _ _ _ _ _ H1) as (i2 & s2 & caps2 & H2 & C2).
    exists i2, s2, caps2. split; auto.
    intros [E | E]; [apply orb_true_iff in E; destruct E |]; auto.
  - destruct (m content r1 i s caps k) eqn:E.
    + inversion H; subst.
      destruct (IHr1 _ _ _ _ _ E) as (i1 & s1 & caps1 & H1 & C1).
      exists i1, s1, caps1. split; auto.
      intros [F | F]; [apply andb_true_iff in F; destruct F |]; auto.
    + destruct (IHr2 _ _ _ _ _ H) as (i1 & s1 & caps1 & H1 & C1).
      exists i1, s1, caps1. split; auto.
      intros [F | F]; [apply andb_true_iff in F; destruct F |]; auto.
  - destruct (m content r i s caps k) eqn:E.
    + inversion H; subst.
      destruct (IHr _ _ _ _ _ E) as (i1 & s1 & caps1 & H1 & C1).
      exists i1, s1, caps1. split; auto.
      intros [F | F]; [discriminate | auto].
    + exists i, s, caps. split; auto. intros [? | ?]; [discriminate | auto].
  - destruct (star_sound _ _ _ _ H) as (w & s' & _ & _ & Hk).
    exists (i + List.length w), s', caps. split; auto.
    intros [? | ?]; [discriminate | auto].
  - destruct s as [| d s']; [discriminate |].
    destruct (p d); [| discriminate].
    destruct (star_sound _ _ _ _ H) as (w & s'' & _ & _ & Hk).
    exists (S i + List.length w), s'', caps. split; auto.
    intros [? | ?]; [discriminate | auto].
  - destruct (IHr _ _ _ _ _ H) as (i1 & s1 & caps1 & H1 & C1).
    exists i1, s1, ((n0, substring i i1 content) :: caps1). split; auto.
    intros F. simpl. destruct (Nat.eqb n0 n) eqn:E; [discriminate |].
    apply C1. destruct F as [F | F]; auto.
  - destruct (xorb _ _); [| discriminate].
    exists i, s, caps. split; auto. intros [? | ?]; [discriminate | auto].
Qed.

Lemma exec_captures (n : nat) (r : regex) (lastIndex : nat) (mt : MatchResult) :
  alwaysCaptures n r = true ->
  exec content r lastIndex = Some mt -> capture n (groups mt) <> None.
Proof.
  intros Hn. unfold exec. destruct (Nat.ltb _ _); [discriminate |].
  generalize (skipn lastIndex content) as s. generalize lastIndex as i.
  intros i s. revert i.
  induction s as [| c s IH]; intros i H; simpl in H.
  - destruct (m content r i [] [] _) eqn:E; [| discriminate].
    inversion H; subst.
    destruct (m_captures n _ _ _ _ _ E) as (i' & s' & caps' & Hk & C).
    inversion Hk; subst; simpl. auto.
  - destruct (m content r i (c :: s) [] _) eqn:E.
    + inversion H; subst.
      destruct (m_captures n _ _ _ _ _ E) as (i' & s' & caps' & Hk & C).
      inversion Hk; subst; simpl. auto.
    + eapply IH; eauto.
Qed.

(** [match] with a global regex always ends, and every string it returns
    belongs to the regex's language. *)
Lemma matchAll_total (r : regex) :
  forall (fuel lastIndex : nat),
    S (List.length content) - lastIndex < fuel ->
    exists l, matchAll content fuel r lastIndex = Some l /\ Forall (lang r) l.
Proof.
  induction fuel as [| fuel IH]; intros li Hf.
  - lia.
  - simpl. destruct (exec content r li) eqn:E; [| eauto].
    destruct (exec_sound _ _ E) as (H1 & H2 & w & Hw & H3 & L).
    destruct (IH (if Nat.eqb (endIndex m0) (index m0)
                  then S (endIndex m0) else endIndex m0)) as (l & -> & Hl).
    { destruct (Nat.eqb_spec (endIndex m0) (index m0)); lia. }
    exists (substring (index m0) (endIndex m0) content :: l). split; auto.
    constructor; auto. rewrite Hw. exact L.
Qed.

End Soundness.

End RegexFacts.
Import RegexFacts.

(* ================================================================== *)
(** * Facts about brace matching *)
(* ================================================================== *)

Module BraceFacts.

Section Spec.

Variable content : text.
Variable start : nat.

Local Abbreviation modeAfter := (BraceSpec.modeAfter content start).
Local Abbreviation delta := (BraceSpec.delta content start).
Local Abbreviation depthAfter := (BraceSpec.depthAfter content start).
Local Abbreviation closesAt := (BraceSpec.closesAt content start).
Local Abbreviation firstClose := (BraceSpec.firstClose content start).
Local Abbreviation closingOffset := (BraceSpec.closingOffset content start).

Lemma skipn_cons_nth (k : nat) (l : text) (c : char) (s : text) :
  skipn k l = c :: s -> nth_error l k = Some c /\ skipn (S k) l = s.
Proof.
  revert l. induction k as [| k IH]; intros l H.
  - destruct l; inversion H; subst; auto.
  - destruct l; [discriminate |]. simpl in H. apply IH in H. exact H.
Qed.

Lemma quote_not_brace (c : char) :
  isQuote c = true -> char_eqb c LBRACE = false /\ char_eqb c RBRACE = false.
Proof.
  unfold isQuote, char_eqb. intros H. apply orb_true_iff in H.
  destruct H as [H | H]; apply N.eqb_eq in H; subst; auto.
Qed.

Lemma lbrace_not_rbrace (c : char) :
  char_eqb c LBRACE = true -> char_eqb c RBRACE = false.
Proof.
  unfold char_eqb. intros H. apply N.eqb_eq in H; subst; auto.
Qed.

(** The loop of the source, started in a state that agrees with the
    counters above, returns what the first closing point dictates. *)
Lemma scanBraces_spec (s : text) :
  forall (n : nat) (openBraces : Z) (inString : bool) (stringChar : option char),
    skipn (start + n) content = s ->
    (if inString then stringChar = modeAfter n /\ stringChar <> None
     else modeAfter n = None) ->
    openBraces = depthAfter n ->
    scanBraces content s (start + n) openBraces inString stringChar
    = match find closesAt (seq n (List.length s)) with
      | Some j => S (start + j)
      | None => List.length content
      end.
Proof.
  induction s as [| c s IH]; intros n ob inS sc Hs Hmode Hob; [reflexivity |].
  apply skipn_cons_nth in Hs. destruct Hs as [Hc Hs].
  rewrite <- Nat.add_succ_r in Hs.
  cbn [scanBraces List.length seq find].
  rewrite <- !Nat.add_succ_r.
  destruct inS.
  - destruct Hmode as [Hsc Hne]. destruct sc as [q |]; [| congruence].
    assert (Hcl : closesAt n = false) by (unfold closesAt; rewrite <- Hsc; auto).
    rewrite Hcl. simpl isStringChar.
    assert (Hd : depthAfter (S n) = ob)
      by (simpl; unfold delta; rewrite <- Hsc; lia).
    destruct (char_eqb c q && notEscaped content (start + n)) eqn:E.
    + apply IH; auto. simpl. rewrite Hc, <- Hsc, E. reflexivity.
    + apply IH; auto. simpl. rewrite Hc, <- Hsc, E. split; congruence.
  - fold (isQuote c). destruct (isQuote c) eqn:Q.
    + destruct (quote_not_brace _ Q) as [QL QR].
      assert (Hcl : closesAt n = false)
        by (unfold closesAt; rewrite Hmode, Hc, QR; auto).
      rewrite Hcl. apply IH; auto.
      * simpl. rewrite Hc, Hmode, Q. split; congruence.
      * simpl. unfold delta. rewrite Hmode, Hc, QL, QR. lia.
    + destruct (char_eqb c LBRACE) eqn:L.
      * assert (Hcl : closesAt n = false).
        { unfold closesAt. rewrite Hmode, Hc, (lbrace_not_rbrace _ L). auto. }
        rewrite Hcl. apply IH; auto.
        -- simpl. rewrite Hc, Hmode, Q. reflexivity.
        -- simpl. unfold delta. rewrite Hmode, Hc, L. lia.
      * assert (Hd : depthAfter (S n)
                     = if char_eqb c RBRACE then (ob - 1)%Z else ob).
        { simpl. unfold delta. rewrite Hmode, Hc, L.
          destruct (char_eqb c RBRACE); lia. }
        assert (Hm : modeAfter (S n) = None)
          by (simpl; rewrite Hc, Hmode, Q; reflexivity).
        destruct (char_eqb c RBRACE) eqn:R.
        -- unfold closesAt at 1. rewrite Hmode, Hc, R, Hd. simpl andb.
           destruct (ob - 1 =? 0)%Z; [lia |].
           apply IH; auto.
        -- assert (Hcl : closesAt n = false)
             by (unfold closesAt; rewrite Hmode, Hc, R; auto).
           rewrite Hcl. apply IH; auto.
Qed.

Lemma findClosingBrace_closingOffset :
  findClosingBrace content start = closingOffset.
Proof.
  unfold findClosingBrace, closingOffset, firstClose.
  rewrite <- length_skipn.
  replace start with (start + 0) at 2 by lia.
  rewrite (@scanBraces_spec (skipn start content) 0 0%Z false None); auto.
  f_equal. lia.
Qed.

End Spec.

End BraceFacts.
Import BraceFacts.

(* ================================================================== *)
(** * The scan against the specification of literals *)
(* ================================================================== *)

Module LiteralFacts.

Lemma find_ext_in {A} (f g : A -> bool) (l : list A) :
  (forall x, f x = g x) -> find f l = find g l.
Proof.
  intros H. induction l as [| x l IH]; simpl; [reflexivity |].
  rewrite H, IH. reflexivity.
Qed.

Lemma leadingBackslashes_none (s : text) :
  noBackslash s = true -> leadingBackslashes s = 0.
Proof.
  destruct s as [| c s]; [reflexivity |]. simpl. intros H.
  apply andb_true_iff in H. destruct H as [H _].
  apply negb_true_iff in H. rewrite H. reflexivity.
Qed.

Lemma noBackslash_In (s : text) (c : char) :
  noBackslash s = true -> In c s -> char_eqb c BACKSLASH = false.
Proof.
  unfold noBackslash. rewrite forallb_forall. intros H Hin.
  apply negb_true_iff. auto.
Qed.

Lemma noBackslash_forall (s : text) :
  (forall c, In c s -> char_eqb c BACKSLASH = false) -> noBackslash s = true.
Proof.
  intros H. unfold noBackslash. apply forallb_forall. intros c Hc.
  apply negb_true_iff. auto.
Qed.

Section Agreement.

Variable content : text.
Variable start : nat.
Hypothesis plain : noBackslash content = true.

(** Without backslashes no character is escaped, by the count of the
    specification and by the test of the source alike. *)
Lemma escaped_never (i : nat) : escaped content i = false.
Proof.
  unfold escaped, backslashesBefore.
  rewrite leadingBackslashes_none; [reflexivity |].
  apply noBackslash_forall. intros c Hc. apply in_rev in Hc.
  apply (noBackslash_In content); auto.
  rewrite <- (firstn_skipn i content). apply in_or_app. auto.
Qed.

Lemma notEscaped_always (i : nat) : notEscaped content i = true.
Proof.
  unfold notEscaped, charBefore. destruct i as [| j]; [reflexivity |].
  destruct (nth_error content j) as [c |] eqn:E; [| reflexivity].
  apply nth_error_In in E. rewrite (noBackslash_In content); auto.
Qed.

Lemma modeAfter_quote (n : nat) (q : char) :
  modeAfter content start n = Some q -> isQuote q = true.
Proof.
  revert q. induction n as [| n IH]; intros q; simpl; [discriminate |].
  destruct (nth_error content (start + n)) as [c |]; [| apply IH].
  destruct (modeAfter content start n) as [q0 |].
  - destruct (char_eqb c q0 && notEscaped content (start + n));
      [discriminate |]. intros H. injection H as <-. apply IH. reflexivity.
  - destruct (isQuote c) eqn:Q; [| discriminate].
    intros H. injection H as <-. exact Q.
Qed.

(** The flag of the source is the literal mode of the specification. *)
Lemma literalAfter_modeAfter (n : nat) :
  literalAfter content start n = modeAfter content start n.
Proof.
  induction n as [| n IH]; [reflexivity |].
  cbn [literalAfter BraceSpec.modeAfter]. rewrite IH.
  unfold unescapedQuote. rewrite escaped_never, notEscaped_always.
  destruct (nth_error content (start + n)) as [c |];
    [| destruct (modeAfter content start n); reflexivity].
  destruct (modeAfter content start n) as [q |] eqn:M;
    rewrite ?andb_true_r.
  - destruct (isQuote c) eqn:Q.
    + unfold char_eqb. rewrite N.eqb_sym. reflexivity.
    + destruct (char_eqb c q) eqn:E; [| reflexivity].
      apply N.eqb_eq in E. subst c.
      rewrite (modeAfter_quote _ M) in Q. discriminate.
  - destruct (isQuote c); reflexivity.
Qed.

Lemma depth_depthAfter (n : nat) :
  depth content start n = depthAfter content start n.
Proof.
  induction n as [| n IH]; [reflexivity |].
  cbn [depth BraceSpec.depthAfter]. rewrite IH.
  unfold braceAt, delta. rewrite literalAfter_modeAfter.
  destruct (modeAfter content start n);
    [lia |].
  destruct (nth_error content (start + n)) as [c |]; [| lia].
  destruct (char_eqb c LBRACE); [reflexivity |].
  destruct (char_eqb c RBRACE); lia.
Qed.

Lemma closes_closesAt (n : nat) :
  closes content start n = closesAt content start n.
Proof.
  unfold closes, closesAt, braceAt.
  rewrite literalAfter_modeAfter, depth_depthAfter.
  destruct (modeAfter content start n); [reflexivity |].
  destruct (nth_error content (start + n)); reflexivity.
Qed.

(** On a text without backslashes the scan of the source finds what the
    specification asks for. *)
Lemma findClosingBrace_matchingOffset :
  findClosingBrace content start = matchingOffset content start.
Proof.
  rewrite findClosingBrace_closingOffset.
  unfold closingOffset, firstClose, matchingOffset.
  rewrite (find_ext_in _ _ _ closes_closesAt). reflexivity.
Qed.

End Agreement.

End LiteralFacts.
Import LiteralFacts.

(* ================================================================== *)
(** * Facts about the extractor *)
(* ================================================================== *)

Module ExtractorFacts.

Lemma split_length (sep : char) (s : text) :
  List.length (split sep s) = S (count sep s).
Proof.
  unfold count. induction s as [| c s IH]; [reflexivity |].
  simpl. unfold char_eqb in *. rewrite (N.eqb_sym sep c).
  destruct (c =? sep)%N; simpl.
  - rewrite IH. reflexivity.
  - destruct (split sep s); simpl in *; [discriminate | exact IH].
Qed.

Lemma words_total (code : text) :
  exists ws, words code = Some ws /\ Forall (lang wordRegex) ws.
Proof. unfold words. apply matchAll_total. lia. Qed.

Lemma keywordSet_total (code : text) : exists ks, keywordSet code = Some ks.
Proof.
  unfold keywordSet. destruct (words_total code) as (ws & -> & _). eauto.
Qed.

Lemma extractKeywords_total (code : text) :
  exists kw, extractKeywords code = Some kw.
Proof.
  unfold extractKeywords. destruct (keywordSet_total code) as (ks & ->). eauto.
Qed.

Lemma unitAt_total (content nm : text) (idx : nat) :
  exists u, unitAt content nm idx = Some u.
Proof.
  unfold unitAt.
  destruct (extractKeywords_total
              (substring idx (findClosingBrace content idx) content))
    as (kw & ->). eauto.
Qed.

Lemma Forall_snoc {A} (P : A -> Prop) (l : list A) (x : A) :
  Forall P l -> P x -> Forall P (l ++ [x]).
Proof. intros. apply Forall_app. split; auto. Qed.

Lemma extractFunctions_total (content : text) :
  exists functions,
    extractFunctions content = Some functions
    /\ Forall (builtAt content) functions.
Proof.
  unfold extractFunctions.
  apply whileExec_inv
    with (P := Forall (builtAt content)) (Q := fun _ => True); auto.
  - vm_compute. lia.
  - intros mt acc _ Hacc. unfold functionBody.
    destruct (orElse _ _) as [[| c nm] |]; eauto.
    destruct (unitAt_total content (c :: nm) (index mt)) as (u & Hu).
    rewrite Hu. eexists; split; eauto.
    apply Forall_snoc; auto. red; eauto.
  - lia.
Qed.

Lemma extractClasses_total (content : text) :
  exists classes,
    extractClasses content = Some classes
    /\ Forall (builtAt content) classes.
Proof.
  unfold extractClasses.
  apply whileExec_inv
    with (P := Forall (builtAt content))
         (Q := fun mt => capture 1 (groups mt) <> None); auto.
  - vm_compute. lia.
  - intros li mt H. eapply exec_captures; eauto. reflexivity.
  - intros mt acc Hcap Hacc. unfold classBody.
    destruct (capture 1 (groups mt)) as [nm |]; [| congruence].
    destruct (unitAt_total content nm (index mt)) as (u & Hu).
    rewrite Hu. eexists; split; eauto.
    apply Forall_snoc; auto. red; eauto.
  - lia.
Qed.

Lemma extractPatterns_total (content : text) :
  exists patterns, extractPatterns content = Some patterns.
Proof.
  unfold extractPatterns.
  destruct (@whileExec_inv content (list text) importRegex patternBody
              (fun _ => True)
              (fun mt => capture 1 (groups mt) <> None))
    with (fuel := S (List.length content)) (lastIndex := 0)
         (acc := @nil text) as (out & H & _); eauto; try lia.
  - vm_compute. lia.
  - intros li mt H. eapply exec_captures; eauto. reflexivity.
  - intros mt acc Hcap _. unfold patternBody.
    destruct (capture 1 (groups mt)); [eauto | congruence].
Qed.

Lemma builtAt_lines (content : text) (u : CodeUnit) :
  builtAt content u ->
  1 <= lineStart u /\ lineEnd u = lineStart u + count NL (code u) + 1.
Proof.
  intros (nm & idx & H). unfold unitAt in H.
  destruct (extractKeywords _); [| discriminate].
  inversion H; subst; simpl. rewrite !split_length. lia.
Qed.

End ExtractorFacts.
Import ExtractorFacts.

(* ================================================================== *)
(** * Facts about keyword derivation *)
(* ================================================================== *)

Module KeywordFacts.

Lemma text_eqb_eq (a b : text) : text_eqb a b = true <-> a = b.
Proof.
  revert b. induction a as [| x a IH]; destruct b as [| y b]; simpl;
    try (split; [discriminate | discriminate]); [tauto |].
  unfold char_eqb. rewrite andb_true_iff, N.eqb_eq, IH.
  split; [intros [-> ->]; reflexivity | intros H; inversion H; auto].
Qed.

Lemma setHas_false (x : text) (l : list text) : setHas x l = false -> ~ In x l.
Proof.
  unfold setHas. intros H Hin.
  assert (E : existsb (text_eqb x) l = true).
  { apply existsb_exists. exists x. split; auto. apply text_eqb_eq. auto. }
  congruence.
Qed.

Lemma NoDup_snoc {A} (l : list A) (x : A) :
  NoDup l -> ~ In x l -> NoDup (l ++ [x]).
Proof.
  induction l as [| y l IH]; simpl; intros Hl Hx.
  - constructor; auto.
  - inversion Hl; subst. constructor.
    + rewrite in_app_iff. simpl. intros [? | [? | []]]; subst; tauto.
    + apply IH; auto.
Qed.

Lemma lowerChar_identStart (c : char) :
  isIdentStart c = true -> isIdentStart (lowerChar c) = true.
Proof.
  unfold isIdentStart, lowerChar. intros H.
  destruct ((65 <=? c) && (c <=? 90))%N eqn:E; bool_to_prop; lia.
Qed.

Lemma lowerChar_word (c : char) :
  isWord c = true -> isWord (lowerChar c) = true.
Proof.
  unfold isWord, isIdentStart, lowerChar. intros H.
  destruct ((65 <=? c) && (c <=? 90))%N eqn:E; bool_to_prop; lia.
Qed.

Lemma lowerChar_idem (c : char) : lowerChar (lowerChar c) = lowerChar c.
Proof.
  unfold lowerChar.
  destruct ((65 <=? c) && (c <=? 90))%N eqn:E; [| rewrite E; reflexivity].
  destruct ((65 <=? c + 32) && (c + 32 <=? 90))%N eqn:F; auto.
  bool_to_prop. lia.
Qed.

Lemma toLowerCase_idem (t : text) : toLowerCase (toLowerCase t) = toLowerCase t.
Proof.
  unfold toLowerCase. rewrite map_map. apply map_ext. apply lowerChar_idem.
Qed.

Lemma toLowerCase_identifier (t : text) :
  isIdentifier t -> isIdentifier (toLowerCase t).
Proof.
  intros (c & rest & -> & Hc & Hr).
  exists (lowerChar c), (toLowerCase rest). repeat split.
  - apply lowerChar_identStart; auto.
  - unfold toLowerCase. rewrite forallb_forall in *. intros x Hx.
    apply in_map_iff in Hx. destruct Hx as (y & <- & Hy).
    apply lowerChar_word. auto.
Qed.

(** Every match of the word pattern has the shape of an identifier. *)
Lemma wordRegex_identifier (w : text) : lang wordRegex w -> isIdentifier w.
Proof.
  simpl. intros (w1 & w2 & -> & -> & w3 & w4 & -> & (c & -> & Hc)
                 & w5 & w6 & -> & Hw & ->).
  exists c, w5. rewrite app_nil_r. auto.
Qed.

Section Tokens.

Variable ws : list text.

Lemma addKeyword_inv (acc : list text) (w : text) :
  In w ws -> isIdentifier w ->
  NoDup acc /\ Forall (tokenBuilt ws) acc ->
  NoDup (addKeyword acc w) /\ Forall (tokenBuilt ws) (addKeyword acc w).
Proof.
  intros Hin Hid [Hnd Hall]. unfold addKeyword.
  destruct (setHas w excluded) eqn:Hex; simpl; auto.
  destruct (Nat.ltb_spec 2 (List.length w)); auto.
  unfold setAdd. destruct (setHas (toLowerCase w) acc) eqn:Hhas; auto.
  split.
  - apply NoDup_snoc; auto. apply setHas_false; auto.
  - apply Forall_app. split; auto. constructor; auto.
    repeat split.
    + apply toLowerCase_identifier; auto.
    + apply toLowerCase_idem.
    + unfold toLowerCase. rewrite length_map. auto.
    + exists w. repeat split; auto. apply setHas_false; auto.
Qed.

Lemma fold_addKeyword_inv (l : list text) :
  forall acc,
    (forall w, In w l -> In w ws /\ isIdentifier w) ->
    NoDup acc /\ Forall (tokenBuilt ws) acc ->
    NoDup (fold_left addKeyword l acc)
    /\ Forall (tokenBuilt ws) (fold_left addKeyword l acc).
Proof.
  induction l as [| w l IH]; simpl; intros acc Hl Hacc; auto.
  apply IH.
  - intros w' Hw'. apply Hl. auto.
  - destruct (Hl w (or_introl eq_refl)). apply addKeyword_inv; auto.
Qed.

End Tokens.

Lemma extractKeywords_built (code : text) :
  exists kw, extractKeywords code = Some kw /\ keywordsAsBuilt code kw.
Proof.
  destruct (words_total code) as (ws & Hws & Hlang).
  unfold extractKeywords, keywordSet. rewrite Hws.
  eexists; split; [reflexivity |].
  exists ws, (fold_left addKeyword ws []).
  destruct (@fold_addKeyword_inv ws ws []) as [Hnd Hall].
  - intros w Hw. split; auto. apply wordRegex_identifier.
    rewrite Forall_forall in Hlang. auto.
  - split; constructor.
  - repeat split; auto.
Qed.

Lemma join_two_has_space (t1 t2 : text) (rest : list text) :
  In SPACE (join [SPACE] (t1 :: t2 :: rest)).
Proof.
  change (join [SPACE] (t1 :: t2 :: rest))
    with (t1 ++ [SPACE] ++ join [SPACE] (t2 :: rest)).
  apply in_or_app. right. left. reflexivity.
Qed.

End KeywordFacts.
Import KeywordFacts.

(* ================================================================== *)
(** * Facts about search *)
(* ================================================================== *)

Module SearchFacts.

Lemma anySuffix_ext (f g : text -> bool) (s : text) :
  (forall t, f t = g t) -> anySuffix f s = anySuffix g s.
Proof.
  intros H. induction s as [| c s IH]; simpl; rewrite H; [| rewrite IH]; auto.
Qed.

Lemma anySuffix_end (f : text -> bool) (s : text) :
  f [] = true -> anySuffix f s = true.
Proof.
  intros H. induction s as [| c s IH]; simpl.
  - rewrite H. reflexivity.
  - rewrite IH. apply orb_true_r.
Qed.

Lemma anySuffix_true (f : text -> bool) (s : text) :
  anySuffix f s = true <-> exists pre post, s = pre ++ post /\ f post = true.
Proof.
  induction s as [| c s IH]; simpl.
  - rewrite orb_false_r. split.
    + intros H. exists [], []. auto.
    + intros (pre & post & H & Hf).
      symmetry in H. apply app_eq_nil in H. destruct H; subst. auto.
  - rewrite orb_true_iff, IH. split.
    + intros [H | (pre & post & -> & H)].
      * exists [], (c :: s). auto.
      * exists (c :: pre), post. auto.
    + intros (pre & post & H & Hf). destruct pre as [| d pre]; simpl in H.
      * subst. auto.
      * inversion H; subst. right. eauto.
Qed.

(** Without wildcards in the query, the matcher looks for the query at
    the start of the text. *)
Lemma like_prefix (q s : text) :
  wildcardFree q = true ->
  patternCompare (q ++ [PERCENT]) s = startsWithCI q s.
Proof.
  revert s. induction q as [| c q IH]; intros s H.
  - simpl. apply anySuffix_end. reflexivity.
  - simpl in H. apply andb_true_iff in H. destruct H as [Hc Hq].
    apply negb_true_iff, orb_false_iff in Hc. destruct Hc as [Hp Hu].
    simpl. rewrite Hp, Hu. destruct s as [| d s]; auto.
    rewrite IH; auto.
Qed.

(** A text without U+0000 is read whole. *)
Lemma cstr_noNul (s : text) : noNul s = true -> cstr s = s.
Proof.
  induction s as [| c s IH]; intros H; [reflexivity |].
  simpl in H. apply andb_true_iff in H. destruct H as [Hc Hs].
  apply negb_true_iff in Hc. simpl. rewrite Hc, IH; auto.
Qed.

Lemma cstr_app_noNul (a b : text) :
  noNul a = true -> cstr (a ++ b) = a ++ cstr b.
Proof.
  induction a as [| c a IH]; intros H; [reflexivity |].
  simpl in H. apply andb_true_iff in H. destruct H as [Hc Ha].
  apply negb_true_iff in Hc. simpl. rewrite Hc, IH; auto.
Qed.

(** For a query without wildcards and without U+0000 the test of the
    query is occurrence in the text as [LIKE] reads it. *)
Lemma likeQuery_cstr (q s : text) :
  wildcardFree q = true -> noNul q = true ->
  likeQuery q s = occursIn q (cstr s).
Proof.
  intros H N. unfold likeQuery, like, occursIn.
  change ([PERCENT] ++ q ++ [PERCENT]) with (PERCENT :: (q ++ [PERCENT])).
  change (cstr (PERCENT :: (q ++ [PERCENT])))
    with (PERCENT :: cstr (q ++ [PERCENT])).
  rewrite cstr_app_noNul by exact N.
  change (cstr [PERCENT]) with [PERCENT].
  cbn [patternCompare]. change (char_eqb PERCENT PERCENT) with true. cbv iota.
  apply anySuffix_ext. intros t. apply like_prefix. exact H.
Qed.

Lemma likeQuery_occursIn (q s : text) :
  wildcardFree q = true -> noNul q = true -> noNul s = true ->
  likeQuery q s = occursIn q s.
Proof.
  intros H N Ns. rewrite likeQuery_cstr by assumption.
  rewrite cstr_noNul by exact Ns. reflexivity.
Qed.

Lemma startsWithCI_true (q s : text) :
  startsWithCI q s = true <->
  exists mid post, s = mid ++ post /\ toLowerCase mid = toLowerCase q.
Proof.
  revert s. induction q as [| c q IH]; intros s; simpl.
  - split; auto. intros _. exists [], s. auto.
  - destruct s as [| d s].
    + split; [discriminate |]. intros (mid & post & H & Hl).
      symmetry in H. apply app_eq_nil in H. destruct H; subst. discriminate.
    + rewrite andb_true_iff, IH. unfold likeCharEq, char_eqb.
      rewrite N.eqb_eq. split.
      * intros (Hc & mid & post & -> & Hl).
        exists (d :: mid), post. simpl. rewrite Hl, Hc. auto.
      * intros (mid & post & H & Hl). destruct mid as [| e mid];
          [discriminate |]. simpl in H, Hl. inversion H; subst.
        inversion Hl. split; eauto.
Qed.

(** [occursIn] is occurrence as a substring, the case of ASCII letters
    ignored. *)
Lemma occursIn_true (q s : text) :
  occursIn q s = true <->
  exists pre mid post,
    s = pre ++ mid ++ post /\ toLowerCase mid = toLowerCase q.
Proof.
  unfold occursIn. rewrite anySuffix_true. split.
  - intros (pre & t & -> & H). apply startsWithCI_true in H.
    destruct H as (mid & post & -> & H). eauto.
  - intros (pre & mid & post & -> & H). exists pre, (mid ++ post).
    split; auto. apply startsWithCI_true. eauto.
Qed.

(** ** The order of the result *)

Lemma text_leb_lexLe (a b : text) : text_leb a b = true <-> lexLe a b.
Proof.
  revert b. induction a as [| x a IH]; intros b.
  - simpl. split; auto. constructor.
  - destruct b as [| y b]; simpl.
    + split; [discriminate | intros H; inversion H].
    + rewrite orb_true_iff, andb_true_iff, N.ltb_lt, N.eqb_eq, IH. split.
      * intros [H | [-> H]]; [apply lexLe_lt | apply lexLe_eq]; auto.
      * intros H; inversion H; subst; auto.
Qed.

Lemma lexLe_trans (a b c : text) : lexLe a b -> lexLe b c -> lexLe a c.
Proof.
  intros H. revert c. induction H; intros c Hc.
  - constructor.
  - inversion Hc; subst; apply lexLe_lt; lia.
  - inversion Hc; subst; [apply lexLe_lt | apply lexLe_eq]; auto.
Qed.

Lemma lexLe_total (a b : text) : lexLe a b \/ lexLe b a.
Proof.
  revert b. induction a as [| x a IH]; intros b.
  - left. constructor.
  - destruct b as [| y b]; [right; constructor |].
    destruct (N.lt_trichotomy x y) as [H | [H | H]].
    + left. apply lexLe_lt. auto.
    + subst. destruct (IH b); [left | right]; apply lexLe_eq; auto.
    + right. apply lexLe_lt. auto.
Qed.

Lemma rowLeb_rowOrder (r1 r2 : SearchRow) :
  rowLeb r1 r2 = true <-> rowOrder r1 r2.
Proof.
  unfold rowLeb, rowOrder.
  rewrite orb_true_iff, andb_true_iff, Nat.ltb_lt, Nat.eqb_eq, text_leb_lexLe.
  tauto.
Qed.

Lemma rowOrder_trans (a b c : SearchRow) :
  rowOrder a b -> rowOrder b c -> rowOrder a c.
Proof.
  unfold rowOrder. intros [H1 | [H1 L1]] [H2 | [H2 L2]]; try (left; lia).
  right. split; [lia |]. eapply lexLe_trans; eauto.
Qed.

Lemma rowOrder_total (a b : SearchRow) : rowOrder a b \/ rowOrder b a.
Proof.
  unfold rowOrder.
  destruct (Nat.lt_trichotomy (rowRelevance a) (rowRelevance b)) as [H | [H | H]];
    auto.
  destruct (lexLe_total (ce_name (entry a)) (ce_name (entry b))); auto.
Qed.

Lemma insertRow_perm (r : SearchRow) (l : list SearchRow) :
  Permutation (insertRow r l) (r :: l).
Proof.
  induction l as [| r' l IH]; simpl; auto.
  destruct (rowLeb r r'); auto.
  rewrite IH. apply perm_swap.
Qed.

Lemma insertRow_sorted (r : SearchRow) (l : list SearchRow) :
  StronglySorted rowOrder l -> StronglySorted rowOrder (insertRow r l).
Proof.
  induction l as [| r' l IH]; simpl; intros Hl.
  - repeat constructor.
  - inversion Hl as [| ? ? Hs Hall]; subst.
    destruct (rowLeb r r') eqn:E.
    + apply rowLeb_rowOrder in E. constructor; auto. constructor; auto.
      eapply Forall_impl; [| exact Hall]. intros x Hx.
      eapply rowOrder_trans; eauto.
    + assert (Hr : rowOrder r' r).
      { destruct (rowOrder_total r r') as [H | H]; auto.
        apply rowLeb_rowOrder in H. congruence. }
      constructor; auto.
      rewrite (insertRow_perm r l). constructor; auto.
Qed.

Lemma orderBy_perm (l : list SearchRow) : Permutation (orderBy l) l.
Proof.
  induction l as [| r l IH]; simpl; auto.
  rewrite insertRow_perm. auto.
Qed.

Lemma orderBy_sorted (l : list SearchRow) : StronglySorted rowOrder (orderBy l).
Proof.
  induction l as [| r l IH]; simpl; [constructor |].
  apply insertRow_sorted. exact IH.
Qed.

Lemma firstn_In {A} (n : nat) (l : list A) (x : A) :
  In x (firstn n l) -> In x l.
Proof.
  revert l. induction n as [| n IH]; intros [| y l]; simpl; try tauto.
  intros [H | H]; auto.
Qed.

Lemma firstn_sorted (n : nat) (l : list SearchRow) :
  StronglySorted rowOrder l -> StronglySorted rowOrder (firstn n l).
Proof.
  revert l. induction n as [| n IH]; intros l Hl; simpl; [constructor |].
  destruct l as [| r l]; [constructor |].
  inversion Hl; subst. constructor; auto.
  rewrite Forall_forall in *. intros x Hx. apply firstn_In in Hx. auto.
Qed.

Lemma applyLimit_sorted (limit : Z) (l : list SearchRow) :
  StronglySorted rowOrder l -> StronglySorted rowOrder (applyLimit limit l).
Proof.
  unfold applyLimit. destruct (limit <? 0)%Z; auto. apply firstn_sorted.
Qed.

Lemma applyLimit_In (limit : Z) (l : list SearchRow) (r : SearchRow) :
  In r (applyLimit limit l) -> In r l.
Proof.
  unfold applyLimit. destruct (limit <? 0)%Z; auto. apply firstn_In.
Qed.

(** ** What a returned row is *)

Lemma candidates_In (query : text) (project type : option text) (st : Store)
      (r : SearchRow) :
  In r (candidates query project type st) ->
  exists ce p,
    In ce (code_entries st) /\ In p (projects st)
    /\ ce_project_id ce = p_id p
    /\ whereClause query project type ce p = true
    /\ r = mkRow ce (p_name p) (relevance query ce).
Proof.
  unfold candidates. rewrite in_flat_map. intros (ce & Hce & H).
  apply in_map_iff in H. destruct H as (p & <- & Hp).
  apply filter_In in Hp. destruct Hp as [Hp Hw].
  apply andb_true_iff in Hw. destruct Hw as [Hid Hw].
  apply Nat.eqb_eq in Hid. exists ce, p. auto.
Qed.

Lemma searchCode_In (query : text) (project type : option text) (limit : Z)
      (st : Store) (r : SearchRow) :
  In r (searchCode query project type limit st) ->
  In r (candidates query project type st).
Proof.
  unfold searchCode. intros H. apply applyLimit_In in H.
  eapply Permutation_in; [apply orderBy_perm | exact H].
Qed.

End SearchFacts.
Import SearchFacts.

(* ================================================================== *)
(** * Facts about the store *)
(* ================================================================== *)

Module StoreFacts.

Lemma extends_refl (id : nat) (st : Store) : extends id st st.
Proof. exists []. rewrite app_nil_r. auto. Qed.

Lemma extends_trans (id : nat) (st1 st2 st3 : Store) :
  extends id st1 st2 -> extends id st2 st3 -> extends id st1 st3.
Proof.
  intros (a1 & E1 & F1) (a2 & E2 & F2). exists (a1 ++ a2).
  rewrite E2, E1, app_assoc. split; auto. apply Forall_app. auto.
Qed.

Lemma addCodeEntry_ok (id : nat) (file : text) (type : string) (u : CodeUnit)
      (content : text) (st : Store) :
  builtAt content u -> canInsert id st ->
  exists n st', addCodeEntry (toEntry id file type u) st = Ok n st'
                /\ canInsert id st' /\ extends id st st'.
Proof.
  intros Hu H. unfold addCodeEntry.
  assert (E : foreign_keys st
              && negb (existsb (fun p => Nat.eqb (p_id p)
                                           (projectId (toEntry id file type u)))
                               (projects st)) = false).
  { destruct H as [H | H]; simpl; rewrite H; auto. apply andb_false_r. }
  rewrite E. eexists; eexists; split; [reflexivity |]. split.
  - destruct H as [H | H]; [left | right]; exact H.
  - eexists; split; [reflexivity |]. constructor; auto.
    apply builtAt_lines in Hu. red; simpl. repeat split; lia.
Qed.

Section Indexing.

Variable basename : text -> text.

Lemma storeUnits_ok (id : nat) (file : text) (type : string) (content : text)
      (units : list CodeUnit) :
  Forall (builtAt content) units ->
  forall st, canInsert id st ->
             exists st', forEach units (storeUnit id file type) st = Ok tt st'
                         /\ canInsert id st' /\ extends id st st'.
Proof.
  induction units as [| u units IH]; intros Hu st H; simpl.
  - exists st. repeat split; auto. apply extends_refl.
  - inversion Hu as [| ? ? Hu1 Hu2]; subst.
    unfold bind at 1. unfold storeUnit at 1. unfold bind at 1.
    destruct (@addCodeEntry_ok id file type u content st)
      as (n & st1 & E1 & H1 & X1); auto.
    rewrite E1. unfold ret.
    destruct (IH Hu2 st1 H1) as (st2 & E2 & H2 & X2).
    exists st2. repeat split; auto. eapply extends_trans; eauto.
Qed.

Lemma indexFile_ok (id : nat) (file : text * text) (counts : nat * nat * nat) :
  forall st, canInsert id st ->
             exists counts' st', indexFile id file counts st = Ok counts' st'
                                 /\ canInsert id st' /\ extends id st st'.
Proof.
  intros st H. unfold indexFile. destruct counts as [[f c] p].
  destruct (extractFunctions_total (snd file)) as (fs & -> & Ff).
  destruct (extractClasses_total (snd file)) as (cs & -> & Fc).
  destruct (extractPatterns_total (snd file)) as (ps & ->).
  unfold orHang, bind, ret.
  destruct (@storeUnits_ok id (fst file) "function" _ fs Ff st H)
    as (st1 & -> & H1 & X1).
  destruct (@storeUnits_ok id (fst file) "class" _ cs Fc st1 H1)
    as (st2 & -> & H2 & X2).
  eexists; eexists; repeat split; eauto. eapply extends_trans; eauto.
Qed.

Lemma indexFiles_ok (id : nat) (files : list (text * text)) :
  forall counts st,
    canInsert id st ->
    exists counts' st', indexFiles id files counts st = Ok counts' st'
                        /\ extends id st st'.
Proof.
  induction files as [| file files IH]; intros counts st H; simpl.
  - unfold ret. eexists; eexists; split; eauto. apply extends_refl.
  - unfold bind.
    destruct (indexFile_ok file counts H) as (counts' & st1 & -> & H1 & X1).
    destruct (IH counts' st1 H1) as (counts'' & st2 & E2 & X2).
    eexists; eexists; split; eauto. eapply extends_trans; eauto.
Qed.

Lemma addProject_outcome (name path now : text) (st : Store) :
  (foreign_keys st = true /\ addProject name path now st = Throw FK_FAILED st)
  \/ exists st', addProject name path now st = Ok (S (seq_projects st)) st'
                 /\ canInsert (S (seq_projects st)) st'
                 /\ code_entries st' = code_entries st.
Proof.
  unfold addProject.
  destruct (foreign_keys st && existsb _ (code_entries st)) eqn:E.
  - left. apply andb_true_iff in E. tauto.
  - right. eexists; split; [reflexivity |]. split; auto. right. simpl.
    rewrite existsb_app. simpl. rewrite Nat.eqb_refl.
    rewrite orb_true_r. reflexivity.
Qed.

(** Indexing ends.  Either the replacement of the project row is refused
    and nothing has changed, or the run ends well and the entries are
    those of before, less the ones that carry the new project id, followed
    by the ones stored in this run. *)
Lemma indexProject_outcome (path : text) (name : option text)
      (files : list (text * text)) (now : text) (st : Store) :
  (foreign_keys st = true
   /\ indexProject basename path name files now st = Throw FK_FAILED st)
  \/ exists r st' added,
       indexProject basename path name files now st = Ok r st'
       /\ code_entries st'
          = filter (fun ce => negb (Nat.eqb (ce_project_id ce)
                                            (S (seq_projects st))))
                   (code_entries st) ++ added
       /\ Forall (storedFor (S (seq_projects st))) added.
Proof.
  unfold indexProject.
  set (projectName := match name with
                      | Some (c :: n) => c :: n
                      | _ => basename path
                      end).
  destruct (addProject_outcome projectName path now st)
    as [[Hfk E] | (st1 & E & H1 & C1)].
  - left. split; auto. unfold bind at 1. rewrite E. reflexivity.
  - right. unfold bind at 1. rewrite E.
    unfold bind at 1. unfold clearProjectEntries at 1.
    set (st2 := mkStore _ _ _ _ _).
    assert (H2 : canInsert (S (seq_projects st)) st2).
    { destruct H1 as [H1 | H1]; [left | right]; exact H1. }
    unfold bind at 1.
    destruct (@indexFiles_ok (S (seq_projects st)) files (0, 0, 0) st2 H2)
      as (counts & st3 & E3 & added & X3 & F3).
    rewrite E3. unfold bind, updateProjectFileCount, ret.
    destruct counts as [[f c] p].
    eexists; eexists; exists added. split; [reflexivity |].
    simpl. rewrite X3. subst st2. simpl. rewrite C1. auto.
Qed.

(** No run of the indexer deletes an entry of an earlier run: the entries
    it clears are those of the project id it has just created. *)
Lemma indexProject_keeps_entries (path : text) (name : option text)
      (files : list (text * text)) (now : text) (st st' : Store)
      (r : IndexResult) (ce : CodeEntry) :
  indexProject basename path name files now st = Ok r st' ->
  In ce (code_entries st) -> ce_project_id ce <= seq_projects st ->
  In ce (code_entries st').
Proof.
  intros H Hin Hid.
  destruct (indexProject_outcome path name files now st)
    as [[_ E] | (r0 & st0 & added & E & C & _)]; rewrite E in H;
    [discriminate |].
  inversion H; subst. rewrite C. apply in_or_app. left.
  apply filter_In. split; auto.
  apply negb_true_iff, Nat.eqb_neq. lia.
Qed.

(** Every entry that a run adds is well located. *)
Lemma indexProject_stores_well (path : text) (name : option text)
      (files : list (text * text)) (now : text) (st st' : Store)
      (r : IndexResult) (ce : CodeEntry) :
  indexProject basename path name files now st = Ok r st' ->
  In ce (code_entries st') ->
  In ce (code_entries st) \/ storedFor (S (seq_projects st)) ce.
Proof.
  intros H Hin.
  destruct (indexProject_outcome path name files now st)
    as [[_ E] | (r0 & st0 & added & E & C & F)]; rewrite E in H;
    [discriminate |].
  inversion H; subst. rewrite C in Hin. apply in_app_or in Hin.
  destruct Hin as [Hin | Hin].
  - left. apply filter_In in Hin. tauto.
  - right. rewrite Forall_forall in F. auto.
Qed.

Lemma updateProject_not_found (projectName : text)
      (files : list (text * text)) (now : text) (st : Store) :
  getProject projectName st = None ->
  updateProject basename projectName files now st
  = Throw (PROJECT_NOT_FOUND projectName) st.
Proof. intros H. unfold updateProject. rewrite H. reflexivity. Qed.

Lemma updateProject_found (projectName : text) (files : list (text * text))
      (now : text) (st : Store) (project : Project) :
  getProject projectName st = Some project ->
  (foreign_keys st = true
   /\ updateProject basename projectName files now st = Throw FK_FAILED st)
  \/ exists st', updateProject basename projectName files now st = Ok tt st'.
Proof.
  intros H. unfold updateProject. rewrite H. unfold bind.
  destruct (indexProject_outcome (p_path project) (Some projectName)
                                 files now st)
    as [[Hfk E] | (r & st' & added & E & _)]; rewrite E; [left; auto | right].
  unfold ret. eauto.
Qed.

End Indexing.

Lemma removeProject_not_found (name : text) (st : Store) :
  getProject name st = None ->
  removeProject name st = Throw (PROJECT_NOT_FOUND name) st.
Proof. intros H. unfold removeProject. rewrite H. reflexivity. Qed.

Lemma removeProject_found (name : text) (st : Store) (project : Project) :
  getProject name st = Some project ->
  exists st', removeProject name st = Ok tt st'
              /\ (forall ce, In ce (code_entries st') ->
                             ce_project_id ce <> p_id project)
              /\ (forall p, In p (projects st') -> p_id p <> p_id project).
Proof.
  intros H. unfold removeProject. rewrite H.
  unfold bind, clearProjectEntries, deleteProjectRow. simpl.
  set (kept := filter (fun ce => negb (Nat.eqb (ce_project_id ce) (p_id project)))
                      (code_entries st)).
  assert (E : existsb (fun ce => Nat.eqb (ce_project_id ce) (p_id project)) kept
              = false).
  { destruct (existsb _ kept) eqn:E; auto.
    apply existsb_exists in E. destruct E as (ce & Hin & Hid).
    apply filter_In in Hin. destruct Hin as [_ Hn]. rewrite Hid in Hn.
    discriminate. }
  rewrite E, andb_false_r. eexists; split; [reflexivity |]. simpl. split.
  - intros ce Hin. apply filter_In in Hin. destruct Hin as [_ Hn].
    apply negb_true_iff, Nat.eqb_neq in Hn. exact Hn.
  - intros p Hin. apply filter_In in Hin. destruct Hin as [_ Hn].
    apply negb_true_iff, Nat.eqb_neq in Hn. exact Hn.
Qed.

Lemma getCode_not_found (id : nat) (st : Store) :
  getCodeEntry id st = None -> getCode id st = Throw CODE_ENTRY_NOT_FOUND st.
Proof. intros H. unfold getCode. rewrite H. reflexivity. Qed.

Lemma getCode_found (id : nat) (st : Store) (entry : CodeEntry) :
  getCodeEntry id st = Some entry -> getCode id st = Ok (ce_code entry) st.
Proof. intros H. unfold getCode. rewrite H. reflexivity. Qed.

End StoreFacts.
Import StoreFacts.

(* ================================================================== *)
(** * Extraction: brace matching, line numbers, snippets *)
(* ================================================================== *)

Module ExtractionClaims.

Lemma allUnits_built (content : text) (P : CodeUnit -> Prop) :
  (forall u, builtAt content u -> P u) -> allUnits content P.
Proof.
  intros HP.
  destruct (extractFunctions_total content) as (fs & Hf & Ff).
  destruct (extractClasses_total content) as (cs & Hc & Fc).
  exists fs, cs. repeat split; auto.
  apply Forall_app. split; eapply Forall_impl; eauto.
Qed.

(** C1: on the text of the claim, [function f() { const s = Q{Q; return
    s; }] with [Q] the double quote, the scan does what the specification
    asks: extraction emits exactly one unit, named [f], whose body is the
    whole text.  On the text [function f() { var a = '\\'; } function g()
    { return '}'; }] it does not.  The literal of [f] is one escaped
    backslash and ends with the quote at offset 26, which is not escaped;
    the block of [f] ends with the brace at offset 29, and the matching
    offset of the specification is 30.  The source takes the quote at
    offset 26 for an escaped one, because a backslash stands before it,
    reads on in string mode, and returns 55: the offset after the brace at
    offset 54, which stands inside the literal of [g].  The unit emitted
    for [f] so holds the first 55 characters of the text. *)
Theorem escaped_backslash_leaves_literal_open :
  extractFunctions quotedBrace = Some [mkUnit (js "f") quotedBrace 1 2 []]
  /\ findClosingBrace quotedBrace 0 = matchingOffset quotedBrace 0
  /\ nth_error escapedBackslash 26 = Some SQUOTE
  /\ escaped escapedBackslash 26 = false
  /\ notEscaped escapedBackslash 26 = false
  /\ nth_error escapedBackslash 29 = Some RBRACE
  /\ matchingOffset escapedBackslash 0 = 30
  /\ findClosingBrace escapedBackslash 0 = 55
  /\ nth_error escapedBackslash 54 = Some RBRACE
  /\ literalAfter escapedBackslash 0 54 = Some SQUOTE
  /\ extractFunctions escapedBackslash
     = Some [mkUnit (js "f") (firstn 55 escapedBackslash) 1 2 [];
             mkUnit (js "g") (skipn 31 escapedBackslash) 1 2 []].
Proof. repeat split; vm_compute; reflexivity. Qed.

(** C10: for the text [if (x) { y(); }] the third alternative of the
    function pattern matches [if (x) {] at offset 0 with the identifier
    [if] in its group, no later match exists, and the extractor emits
    exactly one unit, named [if], whose body is the whole statement up to
    and including its closing brace. *)
Theorem if_statement_extracted_as_function :
  exec ifStatement functionRegex 0 = Some (mkMatch 0 8 [(5, js "if")])
  /\ exec ifStatement functionRegex 8 = None
  /\ findClosingBrace ifStatement 0 = List.length ifStatement
  /\ extractFunctions ifStatement = Some [mkUnit (js "if") ifStatement 1 2 []].
Proof. repeat split; vm_compute; reflexivity. Qed.

(** C5, as stated, fails: the one-line function [function f() {}] starts
    on line 1, holds no newline, and ends on line 2. *)
Lemma end_line_not_start_plus_newlines :
  ~ (forall content : text, allUnits content endIsStartPlusNewlines).
Proof.
  intros H. destruct (H oneLiner) as (fs & cs & Hf & _ & HF).
  vm_compute in Hf. inversion Hf; subst fs; clear Hf.
  apply Forall_app in HF. destruct HF as [HF _].
  inversion HF as [| u l Hu _]; subst.
  vm_compute in Hu. discriminate.
Qed.

(** C5, amended: for every source text both extractors return, and every
    function or class unit has [lineEnd] equal to [lineStart] plus the
    number of lines of its body, that is the number of newline characters
    in the body plus one. *)
Theorem end_line_is_start_plus_line_count :
  forall content : text, allUnits content endIsStartPlusLines.
Proof.
  intros content. apply allUnits_built. intros u Hu.
  apply builtAt_lines in Hu. red. lia.
Qed.

(** C7: for every source text both extractors return, and every unit they
    emit is stored with [lineStart >= 1], [lineEnd >= lineStart], the
    unit's body as its code, a snippet that is a prefix of that code, and
    a snippet of at most 200 characters. *)
Theorem stored_units_well_located :
  forall content : text, allUnits content wellLocated.
Proof.
  intros content. apply allUnits_built. intros u Hu.
  apply builtAt_lines in Hu. destruct Hu as [H1 H2].
  unfold wellLocated, toEntry, slice0. intros projectId file type.
  cbn [entryLineStart entryLineEnd entryCode snippet].
  repeat split; try lia.
  - exists (skipn 200 (code u)). symmetry. apply firstn_skipn.
  - apply firstn_le_length.
Qed.

End ExtractionClaims.

(* ================================================================== *)
(** * Keyword derivation *)
(* ================================================================== *)

Module KeywordClaims.

(** C6, as stated, fails: the code [Function] yields the keywords string
    [function], whose only token is in the stoplist. *)
Lemma stoplist_word_survives_in_other_case :
  ~ (forall code : text,
        exists kw, extractKeywords code = Some kw /\ keywordsAsSpecified kw).
Proof.
  intros H. destruct (H capitalized) as (kw & Hkw & tokens & Hj & _ & Hall).
  vm_compute in Hkw. injection Hkw as Hkw. rewrite <- Hkw in Hj. clear Hkw.
  destruct tokens as [| t1 [| t2 rest]].
  - discriminate.
  - simpl in Hj. subst t1. inversion Hall as [| ? ? (_ & _ & _ & Hex) _]; subst.
    apply Hex. vm_compute. tauto.
  - pose proof (join_two_has_space t1 t2 rest) as Hs. rewrite <- Hj in Hs.
    vm_compute in Hs. intuition discriminate.
Qed.

(** C6, amended: for every code text keyword derivation returns a string
    that is the single-space join of lower-cased identifier tokens, with no
    token twice and no token of length two or less, each token being the
    lower-casing of a word of the code whose spelling in the code, case
    included, is not in the stoplist. *)
Theorem keywords_are_distinct_long_unlisted_words :
  forall code : text,
    exists kw, extractKeywords code = Some kw /\ keywordsAsBuilt code kw.
Proof. exact extractKeywords_built. Qed.

End KeywordClaims.

(* ================================================================== *)
(** * Search: tiers, order, limit *)
(* ================================================================== *)

Module SearchClaims.

(** C3, as stated, fails: for the query [_] the entry named [abc] with
    keywords [a_b] is a candidate whose name does not hold the query
    substring while its keywords do, and its score is 100, not 50. *)
Lemma wildcard_query_scores_name_tier :
  ~ (forall (st : Store) (query : text) (project type : option text)
            (limit : Z) (row : SearchRow),
        In row (searchCode query project type limit st) ->
        rowRelevance row = substringTier query (entry row)).
Proof.
  intros H.
  specialize (H abcStore (js "_") None None 10%Z (mkRow abc (js "api") 100)).
  vm_compute in H. specialize (H (or_introl eq_refl)). discriminate.
Qed.

(** What [LIKE] reads of a text ends at its first U+0000: the query [b]
    occurs in the text [a], U+0000, [b], and the test of the query fails
    on it. *)
Lemma like_reads_up_to_nul :
  occursIn (js "b") (js "a" ++ [NUL] ++ js "b") = true
  /\ likeQuery (js "b") (js "a" ++ [NUL] ++ js "b") = false.
Proof. split; vm_compute; reflexivity. Qed.

(** C3, amended: for every query that holds none of [%], [_] and U+0000
    and every entry whose name, keywords and snippet do not hold U+0000,
    the relevance score is that of the first tier that matches, the tiers
    not being summed: 100 if the query substring appears in the name (the
    case of ASCII letters ignored), otherwise 50 if it appears in the
    keywords, otherwise 25 if it appears in the snippet, otherwise 10.  For
    the query [auth] the entry named [authLogin] scores 100, the entry
    named [login] with keywords [auth token] scores 50, and the first is
    returned before the second. *)
Theorem relevance_is_first_matching_tier (query : text) (ce : CodeEntry) :
  wildcardFree query = true ->
  noNul query = true ->
  noNul (ce_name ce) = true ->
  noNul (ce_keywords ce) = true ->
  noNul (ce_snippet ce) = true ->
  relevance query ce = substringTier query ce
  /\ In (relevance query ce) [100; 50; 25; 10]
  /\ relevance (js "auth") authLogin = 100
  /\ relevance (js "auth") login = 50
  /\ searchCode (js "auth") None None 10 authStore
     = [mkRow authLogin (js "api") 100; mkRow login (js "api") 50].
Proof.
  intros H N Nn Nk Ns. repeat split; try (vm_compute; reflexivity).
  - unfold relevance, substringTier.
    rewrite !likeQuery_occursIn by assumption. reflexivity.
  - unfold relevance.
    destruct (likeQuery query (ce_name ce)); [simpl; auto |].
    destruct (likeQuery query (ce_keywords ce)); [simpl; auto |].
    destruct (likeQuery query (ce_snippet ce)); simpl; auto.
Qed.

Lemma relevance_is_first_matching_tier_witness :
  wildcardFree (js "auth") = true
  /\ noNul (js "auth") = true
  /\ noNul (ce_name login) = true
  /\ noNul (ce_keywords login) = true
  /\ noNul (ce_snippet login) = true
  /\ relevance (js "auth") login = substringTier (js "auth") login.
Proof.
  repeat (split; [reflexivity |]).
  apply (relevance_is_first_matching_tier (js "auth") login);
    reflexivity.
Defined.

(** C4: for every query, filter combination and limit, the rows that pass
    the filters are first put in order, by score descending and, among rows
    of one score, by name ascending lexicographically, and the result is
    the first [limit] rows of that ordered list (all of them for a negative
    limit); the result itself is in that order. *)
Theorem search_orders_then_limits :
  forall (st : Store) (query : text) (project type : option text) (limit : Z),
    let ordered := orderBy (candidates query project type st) in
    Permutation ordered (candidates query project type st)
    /\ StronglySorted rowOrder ordered
    /\ searchCode query project type limit st
       = (if (limit <? 0)%Z then ordered else firstn (Z.to_nat limit) ordered)
    /\ StronglySorted rowOrder (searchCode query project type limit st).
Proof.
  intros st query project type limit ordered. subst ordered.
  repeat split.
  - apply orderBy_perm.
  - apply orderBy_sorted.
  - unfold searchCode. apply applyLimit_sorted, orderBy_sorted.
Qed.

(** C9, as stated, fails: no store, query, filters, limit and returned row
    exist with the score 10. *)
Lemma fallback_tier_unreachable :
  ~ (exists (st : Store) (query : text) (project type : option text)
            (limit : Z) (row : SearchRow),
        In row (searchCode query project type limit st)
        /\ rowRelevance row = 10).
Proof.
  intros (st & query & project & type & limit & row & Hin & Hrel).
  apply searchCode_In, candidates_In in Hin.
  destruct Hin as (ce & p & _ & _ & _ & Hw & ->). simpl in Hrel.
  unfold whereClause in Hw. unfold relevance in Hrel.
  destruct (likeQuery query (ce_name ce)); [discriminate |].
  destruct (likeQuery query (ce_keywords ce)); [discriminate |].
  destruct (likeQuery query (ce_snippet ce)); discriminate.
Qed.

(** C9, amended: every returned row matches the query in its name, its
    keywords or its snippet and has the score 100, 50 or 25, never 10; the
    code column is not consulted, so that the entry that indexing stores
    for a function whose code holds [return] past its 200th character only
    is not returned for that query. *)
Theorem returned_rows_score_above_fallback
        (st : Store) (query : text) (project type : option text)
        (limit : Z) (row : SearchRow) :
  In row (searchCode query project type limit st) ->
  (likeQuery query (ce_name (entry row))
   || likeQuery query (ce_keywords (entry row))
   || likeQuery query (ce_snippet (entry row))) = true
  /\ In (rowRelevance row) [100; 50; 25]
  /\ indexProject lastSegment (js "/src/api") (Some (js "api"))
                  [(js "a.ts", deepCode)] (js "t1") (emptyStore true)
     = Ok (mkIndexResult 1 1 0 0) deepStore
  /\ occursIn (js "return") (ce_code deep) = true
  /\ searchCode (js "return") None None 10 deepStore = [].
Proof.
  intros Hin. apply searchCode_In, candidates_In in Hin.
  destruct Hin as (ce & p & _ & _ & _ & Hw & ->).
  cbn [entry rowRelevance].
  unfold whereClause in Hw. apply andb_true_iff in Hw. destruct Hw as [Hw _].
  apply andb_true_iff in Hw. destruct Hw as [Hw _].
  split; [exact Hw |]. split.
  - unfold relevance.
    destruct (likeQuery query (ce_name ce)); [simpl; auto |].
    destruct (likeQuery query (ce_keywords ce)); [simpl; auto |].
    destruct (likeQuery query (ce_snippet ce)); [simpl; auto | discriminate].
  - split; [| split]; vm_compute; reflexivity.
Qed.

Lemma returned_rows_score_above_fallback_witness :
  In (mkRow login (js "api") 50)
     (searchCode (js "auth") None None 10 authStore)
  /\ In (rowRelevance (mkRow login (js "api") 50)) [100; 50; 25].
Proof.
  assert (H : In (mkRow login (js "api") 50)
                 (searchCode (js "auth") None None 10 authStore))
    by (vm_compute; right; left; reflexivity).
  split; [exact H |].
  apply (returned_rows_score_above_fallback
           authStore (js "auth") None None 10 (mkRow login (js "api") 50) H).
Defined.

End SearchClaims.

(* ================================================================== *)
(** * The store: re-indexing and errors *)
(* ================================================================== *)

Module StoreClaims.

(** C2: the project [api] is indexed from a file that defines [foo] and
    then again, under the same name, from a file that defines [bar].  The
    second run replaces the project row, which thereby gets the new id 2,
    and deletes the entries of project 2, of which there are none.  Without
    foreign-key enforcement the entry for [foo] of the first run stays in
    [code_entries] beside the entry for [bar] and can be fetched by its id;
    with enforcement the replacement is refused, the run throws, and the
    store still holds the entry for [foo] and none for [bar]. *)
Theorem reindex_keeps_previous_entries :
  (forall fk : bool,
      indexProject lastSegment (js "/src/api") (Some (js "api")) firstFiles
                   (js "t1") (emptyStore fk)
      = Ok (mkIndexResult 1 1 0 0) (indexedOnce fk))
  /\ indexProject lastSegment (js "/src/api") (Some (js "api")) secondFiles
                  (js "t2") (indexedOnce false)
     = Ok (mkIndexResult 1 1 0 0)
          (mkStore [mkProject 2 (js "api") (js "/src/api") 1 (js "t2")]
                   [fooEntry; barEntry] 2 2 false)
  /\ getCode 1 (mkStore [mkProject 2 (js "api") (js "/src/api") 1 (js "t2")]
                        [fooEntry; barEntry] 2 2 false)
     = Ok (js "function foo() { return 1; }")
          (mkStore [mkProject 2 (js "api") (js "/src/api") 1 (js "t2")]
                   [fooEntry; barEntry] 2 2 false)
  /\ indexProject lastSegment (js "/src/api") (Some (js "api")) secondFiles
                  (js "t2") (indexedOnce true)
     = Throw FK_FAILED (indexedOnce true).
Proof.
  repeat split; try (vm_compute; reflexivity).
  intros [|]; vm_compute; reflexivity.
Qed.

(** C8: in the store left by indexing [api] once under foreign-key
    enforcement, the project [api] exists, and updating it throws all the
    same: not the not-found error, but the refusal of the statement that
    replaces the project row. *)
Theorem update_of_existing_project_throws :
  getProject (js "api") (indexedOnce true)
  = Some (mkProject 1 (js "api") (js "/src/api") 1 (js "t1"))
  /\ updateProject lastSegment (js "api") secondFiles (js "t2")
                   (indexedOnce true)
     = Throw FK_FAILED (indexedOnce true)
  /\ FK_FAILED <> PROJECT_NOT_FOUND (js "api").
Proof.
  repeat split; try (vm_compute; reflexivity). discriminate.
Qed.

End StoreClaims.

Unset Implicit Arguments.

(* ================================================================== *)
(** * More facts about search *)
(* ================================================================== *)

Module SearchMore.

Lemma lowerChar_percent (c : char) :
  char_eqb (lowerChar c) PERCENT = char_eqb c PERCENT.
Proof.
  unfold char_eqb, lowerChar, PERCENT.
  destruct ((65 <=? c) && (c <=? 90))%N eqn:E; auto.
  destruct (N.eqb_spec (c + 32) 37), (N.eqb_spec c 37); auto; bool_to_prop; lia.
Qed.

Lemma lowerChar_underscore (c : char) :
  char_eqb (lowerChar c) UNDERSCORE = char_eqb c UNDERSCORE.
Proof.
  unfold char_eqb, lowerChar, UNDERSCORE.
  destruct ((65 <=? c) && (c <=? 90))%N eqn:E; auto.
  destruct (N.eqb_spec (c + 32) 95), (N.eqb_spec c 95); auto; bool_to_prop; lia.
Qed.

Lemma lowerChar_nul (c : char) :
  char_eqb (lowerChar c) NUL = char_eqb c NUL.
Proof.
  unfold char_eqb, lowerChar, NUL.
  destruct ((65 <=? c) && (c <=? 90))%N eqn:E; auto.
  destruct (N.eqb_spec (c + 32) 0), (N.eqb_spec c 0); auto; bool_to_prop; lia.
Qed.

Lemma cstr_toLowerCase (s : text) :
  cstr (toLowerCase s) = toLowerCase (cstr s).
Proof.
  induction s as [| c s IH]; [reflexivity |].
  simpl. rewrite lowerChar_nul. destruct (char_eqb c NUL); [reflexivity |].
  simpl. rewrite IH. reflexivity.
Qed.

(** The case of the ASCII letters of a pattern does not matter. *)
Lemma patternCompare_lower_pattern (p : text) :
  forall s, patternCompare (toLowerCase p) s = patternCompare p s.
Proof.
  induction p as [| c p IH]; intros s; [reflexivity |].
  simpl. rewrite lowerChar_percent, lowerChar_underscore.
  destruct (char_eqb c PERCENT).
  - apply anySuffix_ext. exact IH.
  - destruct s as [| d s]; auto. rewrite IH.
    unfold likeCharEq. rewrite lowerChar_idem. reflexivity.
Qed.

Lemma like_lower_pattern (p s : text) :
  like (toLowerCase p) s = like p s.
Proof.
  unfold like. rewrite cstr_toLowerCase.
  apply patternCompare_lower_pattern.
Qed.

Lemma likeQuery_same_letters (q1 q2 s : text) :
  toLowerCase q1 = toLowerCase q2 -> likeQuery q1 s = likeQuery q2 s.
Proof.
  intros H. unfold likeQuery.
  rewrite <- (like_lower_pattern ([PERCENT] ++ q1 ++ [PERCENT])).
  rewrite <- (like_lower_pattern ([PERCENT] ++ q2 ++ [PERCENT])).
  unfold toLowerCase in *. rewrite !map_app, H. reflexivity.
Qed.

Lemma candidates_same_letters (q1 q2 : text) (project type : option text)
      (st : Store) :
  toLowerCase q1 = toLowerCase q2 ->
  candidates q1 project type st = candidates q2 project type st.
Proof.
  intros H. unfold candidates, whereClause, relevance.
  apply flat_map_ext. intros ce.
  rewrite !(@likeQuery_same_letters q1 q2 _ H). reflexivity.
Qed.

Lemma likeQuery_empty (s : text) : likeQuery [] s = true.
Proof.
  unfold likeQuery, like.
  change (cstr ([PERCENT] ++ [] ++ [PERCENT])) with [PERCENT; PERCENT].
  change (patternCompare [PERCENT; PERCENT] (cstr s))
    with (anySuffix (patternCompare [PERCENT]) (cstr s)).
  apply anySuffix_end. reflexivity.
Qed.

Lemma candidates_complete (query : text) (project type : option text)
      (st : Store) (ce : CodeEntry) (p : Project) :
  In ce (code_entries st) -> In p (projects st) ->
  ce_project_id ce = p_id p ->
  whereClause query project type ce p = true ->
  In (mkRow ce (p_name p) (relevance query ce))
     (candidates query project type st).
Proof.
  intros Hce Hp Hid Hw. unfold candidates. apply in_flat_map.
  exists ce. split; auto. apply in_map_iff. exists p. split; auto.
  apply filter_In. split; auto. rewrite Hw, Hid, Nat.eqb_refl. reflexivity.
Qed.

Lemma filterBy_true (opt : option text) (value name : text) :
  filterBy opt value = true -> opt = Some name -> name <> [] -> value = name.
Proof.
  intros H -> Hn. destruct name as [| c o]; [congruence |].
  simpl in H. apply text_eqb_eq. exact H.
Qed.

Lemma search_rows_pass_filters_aux
      (st : Store) (query : text) (project type : option text)
      (limit : Z) (row : SearchRow) :
  In row (searchCode query project type limit st) ->
  In (entry row) (code_entries st)
  /\ (forall name, project = Some name -> name <> [] ->
                   projectName row = name).
Proof.
  intros Hin. apply searchCode_In, candidates_In in Hin.
  destruct Hin as (ce & p & Hce & Hp & Hid & Hw & ->). simpl.
  unfold whereClause in Hw. apply andb_true_iff in Hw. destruct Hw as [Hw Ht].
  apply andb_true_iff in Hw. destruct Hw as [_ Hpr].
  split; auto. intros name Hn Hne. eapply filterBy_true; eauto.
Qed.

End SearchMore.
Import SearchMore.

(* ================================================================== *)
(** * What a run of the indexer does to the store *)
(* ================================================================== *)

Module RunFacts.

Lemma stored_app (last : nat) (a b : list NewEntry) :
  stored last (a ++ b) = stored last a ++ stored (last + List.length a) b.
Proof.
  revert last. induction a as [| e a IH]; intros last; simpl.
  - rewrite Nat.add_0_r. reflexivity.
  - rewrite IH.
    replace (last + S (List.length a)) with (S last + List.length a) by lia.
    reflexivity.
Qed.

Lemma stored_length (last : nat) (news : list NewEntry) :
  List.length (stored last news) = List.length news.
Proof.
  revert last. induction news as [| e news IH]; intros last; simpl; auto.
Qed.

Lemma stored_ids (last : nat) (news : list NewEntry) :
  map ce_id (stored last news) = seq (S last) (List.length news).
Proof.
  revert last. induction news as [| e news IH]; intros last; simpl; auto.
  rewrite IH. reflexivity.
Qed.

Lemma stored_In (last : nat) (news : list NewEntry) (ce : CodeEntry) :
  In ce (stored last news) ->
  exists e id, In e news /\ last < id /\ ce = rowOf id e.
Proof.
  revert last. induction news as [| e news IH]; intros last; simpl; [tauto |].
  intros [<- | H].
  - exists e, (S last). auto.
  - destruct (IH _ H) as (e' & id & He & Hid & ->).
    exists e', id. repeat split; auto. lia.
Qed.

Lemma withEntries_nil (st : Store) : withEntries st [] = st.
Proof.
  unfold withEntries. simpl. rewrite app_nil_r, Nat.add_0_r.
  destruct st; reflexivity.
Qed.

Lemma withEntries_app (st : Store) (a b : list NewEntry) :
  withEntries (withEntries st a) b = withEntries st (a ++ b).
Proof.
  unfold withEntries. simpl.
  rewrite stored_app, length_app, <- app_assoc, Nat.add_assoc. reflexivity.
Qed.

Lemma canInsert_withEntries (id : nat) (st : Store) (news : list NewEntry) :
  canInsert id st -> canInsert id (withEntries st news).
Proof. intros [H | H]; [left | right]; exact H. Qed.

Lemma addCodeEntry_result (e : NewEntry) (st : Store) :
  canInsert (projectId e) st ->
  addCodeEntry e st = Ok (S (seq_code_entries st)) (withEntries st [e]).
Proof.
  intros H. unfold addCodeEntry.
  assert (E : foreign_keys st
              && negb (existsb (fun p => Nat.eqb (p_id p) (projectId e))
                               (projects st)) = false).
  { destruct H as [H | H]; rewrite H; auto. apply andb_false_r. }
  rewrite E. unfold withEntries. simpl. rewrite Nat.add_1_r. reflexivity.
Qed.

Section Run.

Variable basename : text -> text.

Lemma storeUnits_result (id : nat) (file : text) (type : string)
      (units : list CodeUnit) :
  forall st, canInsert id st ->
             forEach units (storeUnit id file type) st
             = Ok tt (withEntries st (map (toEntry id file type) units)).
Proof.
  induction units as [| u units IH]; intros st H; simpl.
  - rewrite withEntries_nil. reflexivity.
  - unfold bind at 1. unfold storeUnit at 1. unfold bind at 1.
    rewrite addCodeEntry_result by exact H. unfold ret.
    rewrite IH by (apply canInsert_withEntries; exact H).
    rewrite withEntries_app. reflexivity.
Qed.

(** One file: both extractors return, and the store gains the entries of
    the functions, then those of the classes. *)
Lemma indexFile_result (id : nat) (file : text * text) (f c p : nat)
      (st : Store) :
  canInsert id st ->
  exists functions classes patterns,
    extractFunctions (snd file) = Some functions
    /\ extractClasses (snd file) = Some classes
    /\ extractPatterns (snd file) = Some patterns
    /\ indexFile id file (f, c, p) st
       = Ok (f + List.length functions, c + List.length classes,
             p + List.length patterns)
            (withEntries st (entriesOf id (fst file) functions classes)).
Proof.
  intros H. unfold indexFile.
  destruct (extractFunctions_total (snd file)) as (fs & Ef & _).
  destruct (extractClasses_total (snd file)) as (cs & Ec & _).
  destruct (extractPatterns_total (snd file)) as (ps & Ep).
  exists fs, cs, ps. rewrite Ef, Ec, Ep. repeat split; auto.
  unfold orHang, bind, ret.
  rewrite storeUnits_result by exact H.
  rewrite storeUnits_result by (apply canInsert_withEntries; exact H).
  rewrite withEntries_app. reflexivity.
Qed.

Lemma entriesOf_projectId (id : nat) (file : text) (fs cs : list CodeUnit) :
  Forall (fun e => projectId e = id) (entriesOf id file fs cs).
Proof.
  unfold entriesOf. apply Forall_app.
  split; apply Forall_forall; intros e He; apply in_map_iff in He;
    destruct He as (u & <- & _); reflexivity.
Qed.

(** All files: the counts grow by what was stored. *)
Lemma indexFiles_result (id : nat) (files : list (text * text)) :
  forall f c p st,
    canInsert id st ->
    exists news f' c' p',
      indexFiles id files (f, c, p) st = Ok (f', c', p') (withEntries st news)
      /\ f' + c' = f + c + List.length news
      /\ Forall (fun e => projectId e = id) news.
Proof.
  induction files as [| file files IH]; intros f c p st H; cbn [indexFiles].
  - exists [], f, c, p. rewrite withEntries_nil. unfold ret.
    repeat split; auto; simpl; lia.
  - unfold bind at 1.
    destruct (indexFile_result id file f c p st H) as (fs & cs & ps & _ & _ & _ & E).
    rewrite E.
    destruct (IH (f + List.length fs) (c + List.length cs)
                 (p + List.length ps)
                 (withEntries st (entriesOf id (fst file) fs cs))
                 (canInsert_withEntries _ _ _ H))
      as (news & f' & c' & p' & E' & Hn & Hid).
    exists (entriesOf id (fst file) fs cs ++ news), f', c', p'.
    rewrite E', withEntries_app. repeat split.
    + rewrite length_app. unfold entriesOf.
      rewrite length_app, !length_map. lia.
    + apply Forall_app. split; auto. apply entriesOf_projectId.
Qed.

Lemma addProject_result (name path now : text) (st : Store) :
  let refused :=
    foreign_keys st
    && existsb (fun ce =>
                  existsb (fun q => Nat.eqb (ce_project_id ce) (p_id q))
                          (filter (fun q => text_eqb (p_name q) name)
                                  (projects st)))
               (code_entries st) in
  (refused = true /\ addProject name path now st = Throw FK_FAILED st)
  \/ (refused = false
      /\ addProject name path now st
         = Ok (S (seq_projects st))
              (mkStore (filter (fun q => negb (text_eqb (p_name q) name))
                               (projects st)
                        ++ [mkProject (S (seq_projects st)) name path 0 now])
                       (code_entries st) (S (seq_projects st))
                       (seq_code_entries st) (foreign_keys st))).
Proof.
  intros refused. unfold addProject. fold refused.
  destruct refused; [left | right]; auto.
Qed.

(** A run that gets past the replacement of the project row ends well, and
    this is the store it leaves. *)
Lemma indexProject_result (path : text) (name : option text)
      (files : list (text * text)) (now : text) (st : Store) :
  Forall (fun q => p_id q <= seq_projects st) (projects st) ->
  let pn := projectNameOf basename path name in
  let id := S (seq_projects st) in
  (foreign_keys st = true
   /\ indexProject basename path name files now st = Throw FK_FAILED st)
  \/ exists news f c p,
       indexProject basename path name files now st
       = Ok (mkIndexResult (List.length files) f c p)
            (mkStore
               (filter (fun q => negb (text_eqb (p_name q) pn)) (projects st)
                ++ [mkProject id pn path (List.length files) now])
               (filter (fun ce => negb (Nat.eqb (ce_project_id ce) id))
                       (code_entries st)
                ++ stored (seq_code_entries st) news)
               id
               (seq_code_entries st + List.length news)
               (foreign_keys st))
       /\ f + c = List.length news
       /\ Forall (fun e => projectId e = id) news
       /\ (foreign_keys st = true ->
           Forall (fun ce => forall q, In q (projects st) -> p_name q = pn ->
                                       ce_project_id ce <> p_id q)
                  (code_entries st)).
Proof.
  intros Hids pn id. unfold indexProject.
  fold (projectNameOf basename path name). fold pn.
  destruct (addProject_result pn path now st) as [[E EA] | [E EA]].
  - left. apply andb_true_iff in E. split; [tauto |].
    unfold bind at 1. rewrite EA. reflexivity.
  - right. unfold bind at 1. rewrite EA. fold id.
    unfold bind at 1. unfold clearProjectEntries at 1.
    cbn [projects code_entries seq_projects seq_code_entries foreign_keys].
    match goal with
    | |- context [bind (indexFiles _ _ _) _ ?s] => set (st2 := s)
    end.
    assert (H2 : canInsert id st2).
    { right. subst st2. cbn [projects]. rewrite existsb_app. simpl.
      rewrite Nat.eqb_refl, orb_true_r. reflexivity. }
    unfold bind at 1.
    destruct (@indexFiles_result id files 0 0 0 st2 H2)
      as (news & f & c & p & E2 & Hn & Hid).
    rewrite E2. exists news, f, c, p. split; [| split; [| split]]; auto.
    + unfold bind, updateProjectFileCount, ret. subst st2. unfold withEntries.
      cbn [projects code_entries seq_projects seq_code_entries foreign_keys].
      f_equal. f_equal.
      rewrite map_app. f_equal.
      * rewrite <- (map_id (filter _ (projects st))) at 2.
        apply map_ext_in. intros q Hq. apply filter_In in Hq.
        destruct Hq as [Hq _]. rewrite Forall_forall in Hids.
        specialize (Hids q Hq).
        destruct (Nat.eqb_spec (p_id q) id) as [Heq | _]; auto.
        subst id. lia.
      * simpl. rewrite Nat.eqb_refl. reflexivity.
    + intros Hfk. rewrite Hfk in E. simpl in E.
      apply Forall_forall. intros ce Hce q Hq Hname Heq.
      assert (X : existsb
                    (fun ce0 => existsb
                                  (fun p0 => Nat.eqb (ce_project_id ce0) (p_id p0))
                                  (filter (fun p0 => text_eqb (p_name p0) pn)
                                          (projects st)))
                    (code_entries st) = true).
      { apply existsb_exists. exists ce. split; auto.
        apply existsb_exists. exists q. split.
        - apply filter_In. split; auto. apply text_eqb_eq. auto.
        - apply Nat.eqb_eq. auto. }
      congruence.
Qed.

End Run.

End RunFacts.
Import RunFacts.

(* ================================================================== *)
(** * Keys stay unique *)
(* ================================================================== *)

Module KeyFacts.

Lemma NoDup_map_filter {A B} (f : A -> B) (g : A -> bool) (l : list A) :
  NoDup (map f l) -> NoDup (map f (filter g l)).
Proof.
  induction l as [| x l IH]; simpl; intros H; [constructor |].
  inversion H as [| ? ? Hx Hl]; subst.
  destruct (g x); simpl; auto. constructor; auto.
  intros Hin. apply Hx. apply in_map_iff in Hin.
  destruct Hin as (y & Hy & Hin). apply filter_In in Hin.
  apply in_map_iff. exists y. tauto.
Qed.

Lemma NoDup_map_inj {A B} (f : A -> B) (l : list A) (x y : A) :
  NoDup (map f l) -> In x l -> In y l -> f x = f y -> x = y.
Proof.
  induction l as [| z l IH]; simpl; intros H Hx Hy E; [tauto |].
  inversion H as [| ? ? Hz Hl]; subst.
  destruct Hx as [-> | Hx], Hy as [-> | Hy]; auto.
  - exfalso. apply Hz. rewrite E. apply in_map. exact Hy.
  - exfalso. apply Hz. rewrite <- E. apply in_map. exact Hx.
Qed.

Lemma find_some_unique {A B} (f : A -> B) (eqb : B -> B -> bool)
      (l : list A) (x : A) :
  (forall a b, eqb a b = true <-> a = b) ->
  NoDup (map f l) -> In x l ->
  find (fun y => eqb (f y) (f x)) l = Some x.
Proof.
  intros Heq. induction l as [| z l IH]; simpl; intros H Hx; [tauto |].
  inversion H as [| ? ? Hz Hl]; subst.
  destruct (eqb (f z) (f x)) eqn:E.
  - apply Heq in E. destruct Hx as [-> | Hx]; auto.
    exfalso. apply Hz. rewrite E. apply in_map. exact Hx.
  - destruct Hx as [-> | Hx]; auto.
    assert (T : eqb (f x) (f x) = true) by (apply Heq; reflexivity).
    congruence.
Qed.

Lemma find_none_iff {A} (g : A -> bool) (l : list A) :
  find g l = None <-> forall x, In x l -> g x = false.
Proof.
  induction l as [| z l IH]; simpl; [tauto |].
  destruct (g z) eqn:E.
  - split; [discriminate |]. intros H. specialize (H z (or_introl eq_refl)).
    congruence.
  - rewrite IH. split.
    + intros H x [<- | Hx]; auto.
    + intros H x Hx. auto.
Qed.

Lemma find_filter_same {A} (f g : A -> bool) (l : list A) :
  (forall x, In x l -> f x = true -> g x = true) ->
  find f (filter g l) = find f l.
Proof.
  induction l as [| z l IH]; simpl; intros H; [reflexivity |].
  destruct (g z) eqn:G; simpl.
  - destruct (f z); auto.
  - destruct (f z) eqn:F.
    + rewrite (H z (or_introl eq_refl) F) in G. discriminate.
    + auto.
Qed.

Lemma find_app_last {A} (f : A -> bool) (l : list A) (x : A) :
  (forall y, In y l -> f y = false) -> f x = true ->
  find f (l ++ [x]) = Some x.
Proof.
  induction l as [| z l IH]; simpl; intros H Hx.
  - rewrite Hx. reflexivity.
  - rewrite (H z (or_introl eq_refl)). apply IH; auto.
Qed.

Lemma getProject_In (name : text) (st : Store) (p : Project) :
  getProject name st = Some p -> In p (projects st) /\ p_name p = name.
Proof.
  unfold getProject. intros H. apply find_some in H.
  destruct H as [H E]. apply text_eqb_eq in E. auto.
Qed.

Lemma getCodeEntry_stored (st : Store) (ce : CodeEntry) :
  NoDup (map ce_id (code_entries st)) -> In ce (code_entries st) ->
  getCodeEntry (ce_id ce) st = Some ce.
Proof.
  intros H Hin. unfold getCodeEntry.
  apply (find_some_unique ce_id Nat.eqb); auto. apply Nat.eqb_eq.
Qed.

Lemma removeProject_result (name : text) (st : Store) (p : Project) :
  getProject name st = Some p ->
  removeProject name st
  = Ok tt (mkStore (filter (fun q => negb (Nat.eqb (p_id q) (p_id p)))
                           (projects st))
                   (filter (fun ce => negb (Nat.eqb (ce_project_id ce) (p_id p)))
                           (code_entries st))
                   (seq_projects st) (seq_code_entries st) (foreign_keys st)).
Proof.
  intros H. unfold removeProject. rewrite H.
  unfold bind, clearProjectEntries, deleteProjectRow. simpl.
  set (kept := filter (fun ce => negb (Nat.eqb (ce_project_id ce) (p_id p)))
                      (code_entries st)).
  assert (E : existsb (fun ce => Nat.eqb (ce_project_id ce) (p_id p)) kept
              = false).
  { destruct (existsb _ kept) eqn:E; auto.
    apply existsb_exists in E. destruct E as (ce & Hin & Hid).
    apply filter_In in Hin. destruct Hin as [_ Hn]. rewrite Hid in Hn.
    discriminate. }
  rewrite E, andb_false_r. reflexivity.
Qed.

Lemma removeProject_ok_inv (name : text) (st st' : Store) :
  removeProject name st = Ok tt st' ->
  exists p, getProject name st = Some p.
Proof.
  unfold removeProject. destruct (getProject name st); [eauto | discriminate].
Qed.

Section Keys.

Variable basename : text -> text.

Lemma indexProject_ok_inv (path : text) (name : option text)
      (files : list (text * text)) (now : text) (st st' : Store)
      (r : IndexResult) :
  Forall (fun q => p_id q <= seq_projects st) (projects st) ->
  indexProject basename path name files now st = Ok r st' ->
  let pn := projectNameOf basename path name in
  let id := S (seq_projects st) in
  exists news,
    st' = mkStore
            (filter (fun q => negb (text_eqb (p_name q) pn)) (projects st)
             ++ [mkProject id pn path (List.length files) now])
            (filter (fun ce => negb (Nat.eqb (ce_project_id ce) id))
                    (code_entries st)
             ++ stored (seq_code_entries st) news)
            id (seq_code_entries st + List.length news) (foreign_keys st)
    /\ filesIndexed r = List.length files
    /\ functionsFound r + classesFound r = List.length news
    /\ Forall (fun e => projectId e = id) news
    /\ (foreign_keys st = true ->
        Forall (fun ce => forall q, In q (projects st) -> p_name q = pn ->
                                    ce_project_id ce <> p_id q)
               (code_entries st)).
Proof.
  intros Hids H pn id.
  destruct (indexProject_result basename path name files now st Hids)
    as [[_ E] | (news & f & c & p & E & Hn & Hid & Hfk)];
    rewrite E in H; [discriminate |].
  inversion H; subst. exists news. repeat split; auto.
Qed.

Lemma indexProject_wf (path : text) (name : option text)
      (files : list (text * text)) (now : text) (st st' : Store)
      (r : IndexResult) :
  wfStore st ->
  indexProject basename path name files now st = Ok r st' ->
  wfStore st'.
Proof.
  intros (W1 & W2 & W3 & W4 & W5) H.
  destruct (indexProject_ok_inv _ _ _ _ _ _ _ W3 H)
    as (news & -> & _ & _ & _ & _).
  set (pn := projectNameOf basename path name).
  rewrite Forall_forall in W3, W5.
  unfold wfStore. cbn [projects code_entries seq_projects seq_code_entries].
  repeat split.
  - rewrite map_app. simpl. apply NoDup_snoc.
    + apply NoDup_map_filter. exact W1.
    + intros Hin. apply in_map_iff in Hin. destruct Hin as (q & Hq & Hin).
      apply filter_In in Hin. destruct Hin as [Hin _].
      specialize (W3 q Hin). lia.
  - rewrite map_app. simpl. apply NoDup_snoc.
    + apply NoDup_map_filter. exact W2.
    + intros Hin. apply in_map_iff in Hin. destruct Hin as (q & Hq & Hin).
      apply filter_In in Hin. destruct Hin as [_ Hn].
      apply negb_true_iff in Hn.
      assert (T : text_eqb (p_name q) pn = true) by (apply text_eqb_eq; auto).
      congruence.
  - apply Forall_app. split.
    + apply Forall_forall. intros q Hq. apply filter_In in Hq.
      destruct Hq as [Hq _]. specialize (W3 q Hq). lia.
    + constructor; auto.
  - rewrite map_app, stored_ids. apply NoDup_app.
    + apply NoDup_map_filter. exact W4.
    + apply seq_NoDup.
    + intros a Ha Hs. apply in_map_iff in Ha. destruct Ha as (ce & <- & Ha).
      apply filter_In in Ha. destruct Ha as [Ha _]. specialize (W5 ce Ha).
      apply in_seq in Hs. lia.
  - apply Forall_app. split.
    + apply Forall_forall. intros ce Hce. apply filter_In in Hce.
      destruct Hce as [Hce _]. specialize (W5 ce Hce). lia.
    + apply Forall_forall. intros ce Hce.
      assert (Hid : In (ce_id ce) (map ce_id (stored (seq_code_entries st) news)))
        by (apply in_map; exact Hce).
      rewrite stored_ids in Hid. apply in_seq in Hid. lia.
Qed.

Lemma removeProject_wf (name : text) (st st' : Store) :
  wfStore st -> removeProject name st = Ok tt st' -> wfStore st'.
Proof.
  intros (W1 & W2 & W3 & W4 & W5) H.
  destruct (removeProject_ok_inv _ _ _ H) as (p & Hp).
  rewrite (removeProject_result _ _ _ Hp) in H. inversion H; subst.
  unfold wfStore. cbn [projects code_entries seq_projects seq_code_entries].
  rewrite Forall_forall in W3, W5.
  repeat split; try (apply NoDup_map_filter; assumption);
    apply Forall_forall; intros x Hx; apply filter_In in Hx;
    destruct Hx as [Hx _]; auto.
Qed.

Lemma indexProject_noOrphans (path : text) (name : option text)
      (files : list (text * text)) (now : text) (st st' : Store)
      (r : IndexResult) :
  wfStore st -> foreign_keys st = true -> noOrphans st ->
  indexProject basename path name files now st = Ok r st' ->
  foreign_keys st' = true /\ noOrphans st'.
Proof.
  intros (_ & _ & W3 & _ & _) Hfk Hno H.
  destruct (indexProject_ok_inv _ _ _ _ _ _ _ W3 H)
    as (news & -> & _ & _ & Hid & Hrep).
  specialize (Hrep Hfk). split; [exact Hfk |].
  unfold noOrphans in *. cbn [projects code_entries].
  rewrite Forall_forall in Hno, Hrep, Hid.
  apply Forall_app. split; apply Forall_forall; intros ce Hce.
  - apply filter_In in Hce. destruct Hce as [Hce _].
    destruct (Hno ce Hce) as (q & Hq & Hqid).
    exists q. split; auto. apply in_or_app. left.
    apply filter_In. split; auto. apply negb_true_iff.
    destruct (text_eqb (p_name q) (projectNameOf basename path name)) eqn:E;
      auto.
    apply text_eqb_eq in E. exfalso. apply (Hrep ce Hce q Hq E). auto.
  - apply stored_In in Hce. destruct Hce as (e & id & He & _ & ->).
    eexists. split; [apply in_or_app; right; left; reflexivity |].
    simpl. symmetry. apply Hid. exact He.
Qed.

Lemma removeProject_noOrphans (name : text) (st st' : Store) :
  noOrphans st -> removeProject name st = Ok tt st' ->
  foreign_keys st' = foreign_keys st /\ noOrphans st'.
Proof.
  intros Hno H.
  destruct (removeProject_ok_inv _ _ _ H) as (p & Hp).
  rewrite (removeProject_result _ _ _ Hp) in H. inversion H; subst.
  split; [reflexivity |].
  unfold noOrphans in *. cbn [projects code_entries].
  rewrite Forall_forall in Hno. apply Forall_forall. intros ce Hce.
  apply filter_In in Hce. destruct Hce as [Hce Hn].
  destruct (Hno ce Hce) as (q & Hq & Hqid).
  exists q. split; auto. apply filter_In. split; auto. rewrite Hqid. exact Hn.
Qed.

End Keys.

End KeyFacts.
Import KeyFacts.

(* ================================================================== *)
(** * Lookups after a change *)
(* ================================================================== *)

Module LookupFacts.

Lemma find_app {A} (f : A -> bool) (l l' : list A) :
  find f (l ++ l') = match find f l with
                     | Some x => Some x
                     | None => find f l'
                     end.
Proof.
  induction l as [| z l IH]; simpl; auto. destruct (f z); auto.
Qed.

Lemma filter_none {A} (f : A -> bool) (l : list A) :
  (forall x, In x l -> f x = false) -> filter f l = [].
Proof.
  induction l as [| z l IH]; simpl; intros H; auto.
  rewrite (H z (or_introl eq_refl)). apply IH. auto.
Qed.

Lemma filter_all {A} (f : A -> bool) (l : list A) :
  (forall x, In x l -> f x = true) -> filter f l = l.
Proof.
  induction l as [| z l IH]; simpl; intros H; auto.
  rewrite (H z (or_introl eq_refl)). f_equal. apply IH. auto.
Qed.

Lemma stored_projectId (last : nat) (news : list NewEntry) (id : nat)
      (ce : CodeEntry) :
  Forall (fun e => projectId e = id) news ->
  In ce (stored last news) -> ce_project_id ce = id.
Proof.
  intros H Hce. apply stored_In in Hce. destruct Hce as (e & n & He & _ & ->).
  rewrite Forall_forall in H. simpl. auto.
Qed.

End LookupFacts.
Import LookupFacts.

(* ================================================================== *)
(** * What the groups of a match hold *)
(* ================================================================== *)

Module GroupFacts.

Lemma skipn_split {A} (i : nat) (l w s' : list A) :
  skipn i l = w ++ s' -> skipn (i + List.length w) l = s'.
Proof.
  intros H. rewrite Nat.add_comm, <- skipn_skipn, H.
  rewrite skipn_app, Nat.sub_diag, skipn_all. reflexivity.
Qed.

Lemma substring_split (i : nat) (content w s' : text) :
  skipn i content = w ++ s' ->
  substring i (i + List.length w) content = w.
Proof.
  intros H. unfold substring.
  rewrite Nat.min_l, Nat.max_r by lia.
  replace (i + List.length w - i) with (List.length w) by lia.
  rewrite H, firstn_app, Nat.sub_diag, firstn_all. simpl.
  apply app_nil_r.
Qed.

Lemma capture_In (n : nat) (caps : captures) (v : text) :
  capture n caps = Some v -> In (n, v) caps.
Proof.
  induction caps as [| [k w] caps IH]; simpl; [discriminate |].
  destruct (Nat.eqb_spec k n).
  - intros H. inversion H; subst. auto.
  - auto.
Qed.

Section Groups.

Variable content : text.

(** Every capture of a match is the text that its group consumed. *)
Lemma m_groups {A} (r : regex) :
  forall (i : nat) (s : text) (caps : captures)
         (k : nat -> text -> captures -> option A) (x : A),
    skipn i content = s ->
    m content r i s caps k = Some x ->
    exists w s' caps',
      s = w ++ s' /\ lang r w
      /\ k (i + List.length w) s' caps' = Some x
      /\ forall n v, In (n, v) caps' ->
                     In (n, v) caps
                     \/ exists g, In (n, g) (groupsOf r) /\ lang g v.
Proof.
  induction r; simpl; intros i s caps k x Hs H.
  - exists [], s, caps. simpl. rewrite Nat.add_0_r. auto.
  - destruct s as [| d s']; [discriminate |].
    destruct (char_eqb d c) eqn:E; [| discriminate].
    apply N.eqb_eq in E; subst d.
    exists [c], s', caps. simpl. rewrite Nat.add_1_r. auto.
  - destruct s as [| d s']; [discriminate |].
    destruct (p d) eqn:E; [| discriminate].
    exists [d], s', caps. simpl. rewrite Nat.add_1_r.
    repeat split; eauto.
  - destruct (IHr1 _ _ _ _ _ Hs H) as (w1 & s1 & caps1 & -> & L1 & H1 & C1).
    destruct (IHr2 _ _ _ _ _ (skipn_split _ _ _ _ Hs) H1)
      as (w2 & s2 & caps2 & -> & L2 & H2 & C2).
    exists (w1 ++ w2), s2, caps2. rewrite <- app_assoc, length_app.
    rewrite Nat.add_assoc. repeat split; eauto.
    intros n v Hin. destruct (C2 n v Hin) as [Hc | (g & Hg & Lg)].
    + destruct (C1 n v Hc) as [Hc1 | (g & Hg & Lg)]; auto.
      right. exists g. split; auto. apply in_or_app. auto.
    + right. exists g. split; auto. apply in_or_app. auto.
  - destruct (m content r1 i s caps k) eqn:E.
    + injection H as ->.
      destruct (IHr1 _ _ _ _ _ Hs E) as (w & s' & caps' & -> & L & Hk & C).
      exists w, s', caps'. repeat split; auto.
      intros n v Hin. destruct (C n v Hin) as [Hc | (g & Hg & Lg)]; auto.
      right. exists g. split; auto. apply in_or_app. auto.
    + destruct (IHr2 _ _ _ _ _ Hs H) as (w & s' & caps' & -> & L & Hk & C).
      exists w, s', caps'. repeat split; auto.
      intros n v Hin. destruct (C n v Hin) as [Hc | (g & Hg & Lg)]; auto.
      right. exists g. split; auto. apply in_or_app. auto.
  - destruct (m content r i s caps k) eqn:E.
    + injection H as ->.
      destruct (IHr _ _ _ _ _ Hs E) as (w & s' & caps' & -> & L & Hk & C).
      exists w, s', caps'. repeat split; auto.
    + exists [], s, caps. simpl. rewrite Nat.add_0_r. auto.
  - destruct (star_sound _ _ _ _ H) as (w & s' & -> & Hw & Hk).
    exists w, s', caps. auto.
  - destruct s as [| d s']; [discriminate |].
    destruct (p d) eqn:E; [| discriminate].
    destruct (star_sound _ _ _ _ H) as (w & s'' & -> & Hw & Hk).
    exists (d :: w), s'', caps. simpl. rewrite E, Hw.
    replace (i + S (List.length w)) with (S i + List.length w) by lia.
    repeat split; auto. discriminate.
  - destruct (IHr _ _ _ _ _ Hs H) as (w & s' & caps' & -> & L & Hk & C).
    exists w, s', ((n, substring i (i + List.length w) content) :: caps').
    repeat split; auto.
    intros n' v [Hin | Hin].
    + inversion Hin; subst. right. exists r. split; auto.
      rewrite (substring_split _ _ _ _ Hs). exact L.
    + destruct (C n' v Hin) as [Hc | (g & Hg & Lg)]; auto.
      right. exists g. auto.
  - destruct (xorb _ _); [| discriminate].
    exists [], s, caps. simpl. rewrite Nat.add_0_r. auto.
Qed.

Lemma execAt_groups (r : regex) (s : text) :
  forall (i : nat) (mt : MatchResult),
    skipn i content = s ->
    execAt content r i s = Some mt ->
    forall n v, In (n, v) (groups mt) ->
                exists g, In (n, g) (groupsOf r) /\ lang g v.
Proof.
  induction s as [| c s IH]; intros i mt Hs H n v Hin; simpl in H.
  - destruct (m content r i [] [] _) eqn:E; [| discriminate].
    inversion H; subst m0; clear H.
    destruct (m_groups _ _ _ _ _ _ Hs E) as (w & s' & caps' & _ & _ & Hk & C).
    inversion Hk; subst mt. simpl in Hin.
    destruct (C n v Hin) as [[] | Hg]; exact Hg.
  - destruct (m content r i (c :: s) [] _) eqn:E.
    + inversion H; subst m0; clear H.
      destruct (m_groups _ _ _ _ _ _ Hs E) as (w & s' & caps' & _ & _ & Hk & C).
      inversion Hk; subst mt. simpl in Hin.
      destruct (C n v Hin) as [[] | Hg]; exact Hg.
    + apply (IH (S i) mt); auto.
      replace (S i) with (i + List.length [c]) by (simpl; lia).
      apply (skipn_split i content [c] s). exact Hs.
Qed.

Lemma exec_groups (r : regex) (lastIndex : nat) (mt : MatchResult) :
  exec content r lastIndex = Some mt ->
  forall n v, capture n (groups mt) = Some v ->
              exists g, In (n, g) (groupsOf r) /\ lang g v.
Proof.
  unfold exec. destruct (Nat.ltb _ _); [discriminate |].
  intros H n v Hc. apply capture_In in Hc.
  eapply execAt_groups; eauto.
Qed.

Lemma exec_inside (r : regex) (lastIndex : nat) (mt : MatchResult) :
  0 < minLen r -> exec content r lastIndex = Some mt ->
  index mt < List.length content.
Proof.
  intros Hmin H. destruct (exec_sound _ _ _ H) as (_ & H2 & w & _ & H3 & L).
  apply lang_minLen in L. lia.
Qed.

End Groups.

End GroupFacts.
Import GroupFacts.

(* ================================================================== *)
(** * Where the units lie *)
(* ================================================================== *)

Module UnitFacts.

Lemma scanBraces_bounds (content s : text) :
  forall (i : nat) (openBraces : Z) (inString : bool)
         (stringChar : option char),
    i + List.length s = List.length content ->
    i <= scanBraces content s i openBraces inString stringChar
         <= List.length content
    /\ (s <> [] -> i < scanBraces content s i openBraces inString stringChar).
Proof.
  induction s as [| c s IH]; intros i ob inS sc Hlen; simpl in *.
  - split; [lia | congruence].
  - assert (Hnext : S i + List.length s = List.length content) by lia.
    assert (R : forall ob' inS' sc',
               i <= scanBraces content s (S i) ob' inS' sc'
                    <= List.length content
               /\ (c :: s <> [] ->
                   i < scanBraces content s (S i) ob' inS' sc')).
    { intros ob' inS' sc'. destruct (IH (S i) ob' inS' sc' Hnext) as [H _].
      split; [lia | intros _; lia]. }
    destruct inS.
    + destruct (isStringChar c sc && notEscaped content i); apply R.
    + destruct (char_eqb c DQUOTE || char_eqb c SQUOTE); [apply R |].
      destruct (char_eqb c LBRACE); [apply R |].
      destruct (char_eqb c RBRACE); [| apply R].
      destruct (ob - 1 =? 0)%Z; [| apply R].
      split; [lia | intros _; lia].
Qed.

(** The closing offset lies between the start and the end of the text,
    and past the start when the start is inside the text. *)
Lemma findClosingBrace_bounds (content : text) (startIndex : nat) :
  startIndex <= List.length content ->
  startIndex <= findClosingBrace content startIndex <= List.length content
  /\ (startIndex < List.length content ->
      startIndex < findClosingBrace content startIndex).
Proof.
  intros H. unfold findClosingBrace.
  destruct (scanBraces_bounds content (skipn startIndex content) startIndex
                              0%Z false None) as [B1 B2].
  { rewrite length_skipn. lia. }
  split; auto. intros Hlt. apply B2. intros E.
  apply (f_equal (@List.length char)) in E. rewrite length_skipn in E.
  simpl in E. lia.
Qed.

Lemma count_app (c : char) (a b : text) :
  count c (a ++ b) = count c a + count c b.
Proof. unfold count. rewrite filter_app, length_app. reflexivity. Qed.

Lemma builtInside_withinFile (content : text) (u : CodeUnit) :
  builtInside content u -> withinFile content u.
Proof.
  intros (nm & idx & Hidx & _ & H). unfold unitAt in H.
  destruct (extractKeywords _); [| discriminate].
  inversion H; subst u; clear H.
  destruct (findClosingBrace_bounds content idx) as [[B1 B2] B3]; [lia |].
  specialize (B3 Hidx).
  set (e := findClosingBrace content idx) in *.
  assert (Hcode : substring idx e content
                  = firstn (e - idx) (skipn idx content)).
  { unfold substring. rewrite Nat.min_l, Nat.max_r by lia. reflexivity. }
  assert (Hpre : substring 0 idx content = firstn idx content).
  { unfold substring. rewrite Nat.min_l, Nat.max_r by lia.
    rewrite Nat.sub_0_r. reflexivity. }
  assert (Hdec : content = firstn idx content
                           ++ firstn (e - idx) (skipn idx content)
                           ++ skipn (e - idx) (skipn idx content)).
  { rewrite (firstn_skipn (e - idx)). symmetry. apply firstn_skipn. }
  exists (firstn idx content), (skipn (e - idx) (skipn idx content)).
  cbn [code lineStart lineEnd]. rewrite Hcode, Hpre, !split_length.
  repeat split; auto.
  - intros E. apply (f_equal (@List.length char)) in E.
    rewrite length_firstn, length_skipn in E. simpl in E. lia.
  - rewrite Hdec at 3. rewrite !count_app. lia.
Qed.

Lemma builtInside_named (content : text) (u : CodeUnit) :
  builtInside content u -> isWordName (name u).
Proof.
  intros (nm & idx & _ & Hnm & H). unfold unitAt in H.
  destruct (extractKeywords _); [| discriminate].
  inversion H; subst u. exact Hnm.
Qed.

Lemma orElse_Some (a b : option text) (v : text) :
  orElse a b = Some v -> a = Some v \/ b = Some v.
Proof.
  unfold orElse. destruct a as [[| c t] |]; auto.
Qed.

(** The groups that hold a name enclose [\w+]. *)
Lemma name_group_is_word (n : nat) (g : regex) (v : text) :
  In n [2; 3; 5] -> In (n, g) (groupsOf functionRegex) -> lang g v ->
  isWordName v.
Proof.
  intros Hn Hg L. cbv [groupsOf functionRegex app] in Hg.
  simpl in Hn, Hg.
  repeat (destruct Hg as [Hg | Hg];
          [inversion Hg; subst; try (exact L); exfalso; intuition discriminate
          |]).
  destruct Hg.
Qed.

Lemma class_group_is_word (g : regex) (v : text) :
  In (1, g) (groupsOf classRegex) -> lang g v -> isWordName v.
Proof.
  intros Hg L. cbv [groupsOf classRegex app] in Hg. simpl in Hg.
  destruct Hg as [Hg | []]. inversion Hg; subst. exact L.
Qed.

Lemma import_group_is_module (g : regex) (v : text) :
  In (1, g) (groupsOf importRegex) -> lang g v ->
  v <> [] /\ forallb notLineTerminator v = true.
Proof.
  intros Hg L. cbv [groupsOf importRegex app] in Hg. simpl in Hg.
  destruct Hg as [Hg | []]. inversion Hg; subst. exact L.
Qed.

Lemma extractFunctions_inside (content : text) :
  exists functions,
    extractFunctions content = Some functions
    /\ Forall (builtInside content) functions.
Proof.
  unfold extractFunctions.
  apply whileExec_inv
    with (P := Forall (builtInside content))
         (Q := fun mt =>
                 index mt < List.length content
                 /\ forall n v, capture n (groups mt) = Some v ->
                                exists g, In (n, g) (groupsOf functionRegex)
                                          /\ lang g v); auto.
  - vm_compute. lia.
  - intros li mt H. split.
    + eapply exec_inside; eauto. vm_compute. lia.
    + eapply exec_groups; eauto.
  - intros mt acc [Hidx Hcap] Hacc. unfold functionBody.
    destruct (orElse _ _) as [[| c nm] |] eqn:E; eauto.
    assert (Hname : isWordName (c :: nm)).
    { apply orElse_Some in E. destruct E as [E | E];
        [| apply orElse_Some in E; destruct E as [E | E]];
        destruct (Hcap _ _ E) as (g & Hg & L);
        eapply name_group_is_word; eauto; simpl; auto. }
    destruct (unitAt_total content (c :: nm) (index mt)) as (u & Hu).
    rewrite Hu. eexists; split; eauto.
    apply Forall_snoc; auto. exists (c :: nm), (index mt). auto.
  - lia.
Qed.

Lemma extractClasses_inside (content : text) :
  exists classes,
    extractClasses content = Some classes
    /\ Forall (builtInside content) classes.
Proof.
  unfold extractClasses.
  apply whileExec_inv
    with (P := Forall (builtInside content))
         (Q := fun mt =>
                 index mt < List.length content
                 /\ capture 1 (groups mt) <> None
                 /\ forall n v, capture n (groups mt) = Some v ->
                                exists g, In (n, g) (groupsOf classRegex)
                                          /\ lang g v); auto.
  - vm_compute. lia.
  - intros li mt H. split; [| split].
    + eapply exec_inside; eauto. vm_compute. lia.
    + eapply exec_captures; eauto. reflexivity.
    + eapply exec_groups; eauto.
  - intros mt acc (Hidx & Hsome & Hcap) Hacc. unfold classBody.
    destruct (capture 1 (groups mt)) as [nm |] eqn:E; [| congruence].
    destruct (Hcap _ _ E) as (g & Hg & L).
    destruct (unitAt_total content nm (index mt)) as (u & Hu).
    rewrite Hu. eexists; split; eauto.
    apply Forall_snoc; auto. exists nm, (index mt).
    repeat split; auto; eapply class_group_is_word; eauto.
  - lia.
Qed.

Lemma extractPatterns_tags (content : text) :
  exists patterns,
    extractPatterns content = Some patterns /\ Forall isImportTag patterns.
Proof.
  unfold extractPatterns.
  apply whileExec_inv
    with (P := Forall isImportTag)
         (Q := fun mt =>
                 capture 1 (groups mt) <> None
                 /\ forall n v, capture n (groups mt) = Some v ->
                                exists g, In (n, g) (groupsOf importRegex)
                                          /\ lang g v); auto.
  - vm_compute. lia.
  - intros li mt H. split.
    + eapply exec_captures; eauto. reflexivity.
    + eapply exec_groups; eauto.
  - intros mt acc (Hsome & Hcap) Hacc. unfold patternBody.
    destruct (capture 1 (groups mt)) as [module |] eqn:E; [| congruence].
    destruct (Hcap _ _ E) as (g & Hg & L).
    eexists; split; eauto. apply Forall_snoc; auto.
    exists module. split; auto. eapply import_group_is_module; eauto.
  - lia.
Qed.

End UnitFacts.
Import UnitFacts.

(* ================================================================== *)
(** * Blocks with nested braces *)
(* ================================================================== *)

Module BlockFacts.

Lemma plain_cases (c : char) :
  plain c = true ->
  (char_eqb c DQUOTE || char_eqb c SQUOTE) = false
  /\ char_eqb c LBRACE = false /\ char_eqb c RBRACE = false.
Proof.
  unfold plain. intros H. apply negb_true_iff in H.
  repeat (apply orb_false_iff in H; destruct H as [H ?]).
  repeat split; auto. apply orb_false_iff. auto.
Qed.

(** Outside a literal and below an open brace, the scan passes over a
    balanced text and is then in the state in which it met it. *)
Lemma scanBraces_balanced (content b : text) :
  Balanced b ->
  forall (rest : text) (i : nat) (d : Z) (sc : option char),
    (0 < d)%Z ->
    scanBraces content (b ++ rest) i d false sc
    = scanBraces content rest (i + List.length b) d false sc.
Proof.
  induction 1 as [| c b Hc Hb IH | b1 b2 H1 IH1 H2 IH2];
    intros rest i d sc Hd.
  - simpl. rewrite Nat.add_0_r. reflexivity.
  - destruct (plain_cases c Hc) as (Q & L & R).
    cbn [app scanBraces]. rewrite Q, L, R. rewrite IH by exact Hd.
    f_equal. simpl. lia.
  - rewrite <- !app_assoc. cbn [app scanBraces].
    change (char_eqb LBRACE DQUOTE || char_eqb LBRACE SQUOTE) with false.
    change (char_eqb LBRACE LBRACE) with true. cbv iota.
    rewrite IH1 by lia. cbn [scanBraces].
    change (char_eqb RBRACE DQUOTE || char_eqb RBRACE SQUOTE) with false.
    change (char_eqb RBRACE LBRACE) with false.
    change (char_eqb RBRACE RBRACE) with true. cbv iota.
    replace (d + 1 - 1)%Z with d by lia.
    destruct (Z.eqb_spec d 0); [lia |].
    rewrite IH2 by exact Hd. f_equal.
    simpl. rewrite ?length_app. simpl. rewrite ?length_app. simpl. lia.
Qed.

(** Outside a literal, the scan passes over a text without braces and
    quotes. *)
Lemma scanBraces_plain (content h : text) :
  forallb plain h = true ->
  forall (rest : text) (i : nat) (d : Z) (sc : option char),
    scanBraces content (h ++ rest) i d false sc
    = scanBraces content rest (i + List.length h) d false sc.
Proof.
  induction h as [| c h IH]; intros H rest i d sc.
  - simpl. rewrite Nat.add_0_r. reflexivity.
  - simpl in H. apply andb_true_iff in H. destruct H as [Hc Hh].
    destruct (plain_cases c Hc) as (Q & L & R).
    cbn [app scanBraces]. rewrite Q, L, R. rewrite IH by exact Hh.
    f_equal. simpl. lia.
Qed.

End BlockFacts.
Import BlockFacts.

(* ================================================================== *)
(** * The keyword set, word by word *)
(* ================================================================== *)

Module KeywordMore.

Lemma setHas_true (x : text) (l : list text) : setHas x l = true <-> In x l.
Proof.
  unfold setHas. rewrite existsb_exists. split.
  - intros (y & Hy & E). apply text_eqb_eq in E. subst. exact Hy.
  - intros H. exists x. split; auto. apply text_eqb_eq. reflexivity.
Qed.

Lemma setAdd_In (x y : text) (l : list text) :
  In y (setAdd x l) <-> In y l \/ y = x.
Proof.
  unfold setAdd. destruct (setHas x l) eqn:E.
  - apply setHas_true in E. split; auto. intros [H | ->]; auto.
  - rewrite in_app_iff. simpl. split.
    + intros [H | [H | []]]; auto.
    + intros [H | ->]; auto.
Qed.

Lemma addKeyword_In (acc : list text) (w t : text) :
  In t (addKeyword acc w)
  <-> In t acc \/ (keeps w /\ t = toLowerCase w).
Proof.
  unfold addKeyword, keeps.
  destruct (setHas w excluded) eqn:E; cbn [negb andb].
  - apply setHas_true in E. split; auto.
    intros [H | [[H _] _]]; [exact H | contradiction].
  - assert (Hn : ~ In w excluded)
      by (intros H; apply setHas_true in H; congruence).
    destruct (Nat.ltb_spec 2 (List.length w)).
    + rewrite setAdd_In. split.
      * intros [H' | H']; auto.
      * intros [H' | [_ H']]; auto.
    + split; auto. intros [Hin | [[_ Hlen] _]]; auto. lia.
Qed.

Lemma fold_addKeyword_In (ws : list text) :
  forall (acc : list text) (t : text),
    In t (fold_left addKeyword ws acc)
    <-> In t acc \/ exists w, In w ws /\ keeps w /\ t = toLowerCase w.
Proof.
  induction ws as [| w ws IH]; intros acc t; simpl.
  - split; auto. intros [H | (w & [] & _)]; auto.
  - rewrite IH, addKeyword_In. split.
    + intros [[H | [Hk ->]] | (w' & Hw' & Hk & ->)]; eauto 6.
    + intros [H | (w' & [<- | Hw'] & Hk & ->)]; eauto 6.
Qed.

(** [split] undoes [join] when no part holds the separator. *)
Lemma split_join (sep : char) (parts : list text) :
  parts <> [] ->
  Forall (fun p => ~ In sep p) parts ->
  split sep (join [sep] parts) = parts.
Proof.
  assert (Hone : forall p, ~ In sep p -> split sep p = [p]).
  { induction p as [| c p IH]; simpl; intros H; auto.
    destruct (char_eqb c sep) eqn:E.
    - apply N.eqb_eq in E. subst. tauto.
    - rewrite IH by tauto. reflexivity. }
  assert (Hcat : forall p rest, ~ In sep p ->
                   split sep (p ++ sep :: rest) = p :: split sep rest).
  { induction p as [| c p IH]; simpl; intros rest H.
    - unfold char_eqb. rewrite N.eqb_refl. reflexivity.
    - destruct (char_eqb c sep) eqn:E.
      + apply N.eqb_eq in E. subst. tauto.
      + rewrite IH by tauto. reflexivity. }
  induction parts as [| p parts IH]; intros Hne Hall; [congruence |].
  inversion Hall as [| ? ? Hp Hrest]; subst.
  destruct parts as [| q parts].
  - simpl. apply Hone. exact Hp.
  - change (join [sep] (p :: q :: parts))
      with (p ++ sep :: join [sep] (q :: parts)).
    rewrite Hcat by exact Hp. rewrite IH; auto. discriminate.
Qed.

Lemma identifier_no_space (t : text) : isIdentifier t -> ~ In SPACE t.
Proof.
  intros (c & rest & -> & Hc & Hr) [H | H].
  - subst c. discriminate.
  - rewrite forallb_forall in Hr. specialize (Hr _ H). discriminate.
Qed.

End KeywordMore.
Import KeywordMore.

(* ================================================================== *)
(** * Facts about listing, statistics and the export *)
(* ================================================================== *)

Module ReportFacts.

Lemma StronglySorted_weaken {A} (R R' : A -> A -> Prop) (l : list A) :
  (forall a b, In a l -> In b l -> R a b -> R' a b) ->
  StronglySorted R l -> StronglySorted R' l.
Proof.
  induction l as [| x l IH]; intros H Hs; [constructor |].
  inversion Hs as [| ? ? Hl Hx]; subst. constructor.
  - apply IH; auto. intros a b Ha Hb. apply H; simpl; auto.
  - rewrite Forall_forall in *. intros y Hy. apply H; simpl; auto.
Qed.

Lemma StronglySorted_filter {A} (R : A -> A -> Prop) (f : A -> bool)
      (l : list A) :
  StronglySorted R l -> StronglySorted R (filter f l).
Proof.
  induction l as [| x l IH]; intros Hs; simpl; [constructor |].
  inversion Hs as [| ? ? Hl Hx]; subst.
  destruct (f x); auto. constructor; auto.
  rewrite Forall_forall in *. intros y Hy. apply filter_In in Hy.
  apply Hx. tauto.
Qed.

Lemma StronglySorted_firstn {A} (R : A -> A -> Prop) (n : nat) (l : list A) :
  StronglySorted R l -> StronglySorted R (firstn n l).
Proof.
  revert l. induction n as [| n IH]; intros l Hl; simpl; [constructor |].
  destruct l as [| r l]; [constructor |].
  inversion Hl; subst. constructor; auto.
  rewrite Forall_forall in *. intros x Hx. apply firstn_In in Hx. auto.
Qed.

(** ** [getProjects] *)

Lemma insertProject_perm (p : Project) (l : list Project) :
  Permutation (insertProject p l) (p :: l).
Proof.
  induction l as [| q l IH]; simpl; auto.
  destruct (projectLeb p q); auto. rewrite IH. apply perm_swap.
Qed.

Lemma insertProject_sorted (p : Project) (l : list Project) :
  StronglySorted newerFirst l -> StronglySorted newerFirst (insertProject p l).
Proof.
  induction l as [| q l IH]; simpl; intros Hl.
  - repeat constructor.
  - inversion Hl as [| ? ? Hs Hall]; subst.
    destruct (projectLeb p q) eqn:E.
    + apply text_leb_lexLe in E. constructor; auto. constructor; auto.
      eapply Forall_impl; [| exact Hall]. intros x Hx.
      unfold newerFirst in *. eapply lexLe_trans; eauto.
    + assert (Hr : newerFirst q p).
      { unfold newerFirst.
        destruct (lexLe_total (p_indexed_at p) (p_indexed_at q)) as [H | H];
          auto.
        apply text_leb_lexLe in H. unfold projectLeb in E.
        destruct (lexLe_total (p_indexed_at q) (p_indexed_at p)) as [H' | H'];
          auto.
        apply text_leb_lexLe in H'. congruence. }
      constructor; auto.
      rewrite (insertProject_perm p l). constructor; auto.
Qed.

(** ** [getStats] *)

Lemma total_app (a b : list nat) : total (a ++ b) = total a + total b.
Proof. unfold total. induction a; simpl; auto. rewrite IHa. lia. Qed.

Lemma total_flat_map {A B} (f : B -> nat) (g : A -> list B) (l : list A) :
  total (map f (flat_map g l)) = total (map (fun a => total (map f (g a))) l).
Proof.
  induction l as [| a l IH]; simpl; auto.
  rewrite map_app, total_app, IH. reflexivity.
Qed.

Lemma sumNat_total (l : list nat) :
  sumNat l = match l with [] => None | _ :: _ => Some (total l) end.
Proof. destruct l; reflexivity. Qed.

Lemma leftJoin_nil (st : Store) : leftJoin st = [] <-> projects st = [].
Proof.
  unfold leftJoin. split.
  - destruct (projects st) as [| p ps]; auto. simpl.
    destruct (entriesOfProject st p); discriminate.
  - intros ->. reflexivity.
Qed.

Lemma rowsOf_files (st : Store) (p : Project) :
  total (map (fun row => p_file_count (fst row)) (rowsOf st p))
  = p_file_count p * Nat.max 1 (List.length (entriesOfProject st p)).
Proof.
  unfold rowsOf. destruct (entriesOfProject st p) as [| ce ces]; simpl; [lia |].
  rewrite map_map. simpl.
  replace (total (map (fun _ => p_file_count p) ces))
    with (p_file_count p * List.length ces).
  - destruct (List.length ces); lia.
  - induction ces; simpl; lia.
Qed.

Lemma rowsOf_type (type : string) (st : Store) (p : Project) :
  total (map (isOfType type) (rowsOf st p))
  = List.length (filter (fun ce => text_eqb (ce_type ce) (js type))
                        (entriesOfProject st p)).
Proof.
  unfold rowsOf. destruct (entriesOfProject st p) as [| ce ces] eqn:E;
    [reflexivity |].
  rewrite map_map. generalize (ce :: ces). intros l.
  induction l as [| x l IH]; simpl; auto.
  unfold isOfType at 1. simpl. destruct (text_eqb (ce_type x) (js type));
    simpl; rewrite IH; reflexivity.
Qed.

Lemma filter_or_length {A} (f g : A -> bool) (l : list A) :
  (forall x, In x l -> f x = true -> g x = false) ->
  List.length (filter (fun x => f x || g x) l)
  = List.length (filter f l) + List.length (filter g l).
Proof.
  induction l as [| x l IH]; intros H; simpl; auto.
  assert (Hx := H x (or_introl eq_refl)).
  assert (IH' := IH (fun y Hy => H y (or_intror Hy))).
  destruct (f x) eqn:F; simpl.
  - rewrite (Hx eq_refl). simpl. rewrite IH'. lia.
  - destruct (g x); simpl; rewrite IH'; lia.
Qed.

Lemma filter_filter_and {A} (f g : A -> bool) (l : list A) :
  filter f (filter g l) = filter (fun x => f x && g x) l.
Proof.
  induction l as [| x l IH]; simpl; auto.
  destruct (g x); simpl; rewrite ?andb_false_r, ?andb_true_r;
    [destruct (f x) |]; rewrite IH; reflexivity.
Qed.

(** The entries of a type that belong to the projects of a list without
    repeated ids, counted project by project or all at once. *)
Lemma count_by_project (type : string) (ces : list CodeEntry)
      (ps : list Project) :
  NoDup (map p_id ps) ->
  total (map (fun p =>
                List.length
                  (filter (fun ce => text_eqb (ce_type ce) (js type))
                          (filter (fun ce => Nat.eqb (p_id p) (ce_project_id ce))
                                  ces)))
             ps)
  = List.length
      (filter (fun ce =>
                 text_eqb (ce_type ce) (js type)
                 && existsb (fun p => Nat.eqb (p_id p) (ce_project_id ce)) ps)
              ces).
Proof.
  induction ps as [| p ps IH]; intros H.
  - simpl. rewrite filter_none; auto. intros x _. apply andb_false_r.
  - inversion H as [| ? ? Hp Hps]; subst.
    set (isF := fun ce : CodeEntry => text_eqb (ce_type ce) (js type)) in *.
    set (ofP := fun ce : CodeEntry => Nat.eqb (p_id p) (ce_project_id ce)).
    set (ofPs := fun ce : CodeEntry =>
                   existsb (fun q => Nat.eqb (p_id q) (ce_project_id ce)) ps)
      in *.
    change (List.length (filter isF (filter ofP ces))
            + total (map (fun p0 =>
                            List.length
                              (filter isF
                                 (filter (fun ce => Nat.eqb (p_id p0)
                                                            (ce_project_id ce))
                                         ces))) ps)
            = List.length (filter (fun ce => isF ce && (ofP ce || ofPs ce)) ces)).
    rewrite (IH Hps), filter_filter_and.
    rewrite (filter_ext (fun ce => isF ce && (ofP ce || ofPs ce))
                        (fun ce => (isF ce && ofP ce) || (isF ce && ofPs ce)))
      by (intros ce; destruct (isF ce); reflexivity).
    rewrite filter_or_length; [reflexivity |].
    intros ce _ Hf. apply andb_true_iff in Hf. destruct Hf as [_ Hf].
    apply Nat.eqb_eq in Hf. apply andb_false_iff. right.
    destruct (ofPs ce) eqn:E; auto. unfold ofPs in E.
    apply existsb_exists in E. destruct E as (q & Hq & Hid).
    apply Nat.eqb_eq in Hid. exfalso. apply Hp.
    apply in_map_iff. exists q. split; auto. congruence.
Qed.

End ReportFacts.
Import ReportFacts.

Module StatsFacts.

Lemma flat_map_nil {A B} (f : A -> list B) (l : list A) :
  flat_map f l = [] <-> forall x, In x l -> f x = [].
Proof.
  induction l as [| a l IH]; simpl.
  - split; auto. intros _ x [].
  - split.
    + intros H. apply app_eq_nil in H. destruct H as [Ha Hl].
      intros x [<- | Hx]; auto. apply IH; auto.
    + intros H. rewrite (H a (or_introl eq_refl)). simpl.
      apply IH. intros x Hx. apply H. auto.
Qed.

Lemma leftJoin_rowsOf (st : Store) : leftJoin st = flat_map (rowsOf st) (projects st).
Proof. reflexivity. Qed.

Lemma rowsOf_lines_nil (st : Store) (p : Project) :
  flat_map lineSpan (rowsOf st p) = [] <-> entriesOfProject st p = [].
Proof.
  unfold rowsOf. destruct (entriesOfProject st p) as [| ce ces].
  - simpl. tauto.
  - simpl. split; discriminate.
Qed.

Lemma flat_map_flat_map {A B C} (f : B -> list C) (g : A -> list B)
      (l : list A) :
  flat_map f (flat_map g l) = flat_map (fun a => flat_map f (g a)) l.
Proof.
  induction l as [| a l IH]; simpl; auto.
  rewrite flat_map_app, IH. reflexivity.
Qed.

Lemma rowsOf_ids (st : Store) (p : Project) (row : Project * option CodeEntry) :
  In row (rowsOf st p) -> fst row = p.
Proof.
  unfold rowsOf. destruct (entriesOfProject st p) as [| ce ces].
  - intros [<- | []]. reflexivity.
  - intros H. apply in_map_iff in H. destruct H as (x & <- & _). reflexivity.
Qed.

Lemma rowsOf_nonempty (st : Store) (p : Project) : rowsOf st p <> [].
Proof.
  unfold rowsOf. destruct (entriesOfProject st p); discriminate.
Qed.

Lemma joined_ids (st : Store) (id : nat) :
  In id (map (fun row => p_id (fst row)) (leftJoin st))
  <-> In id (map p_id (projects st)).
Proof.
  rewrite leftJoin_rowsOf, !in_map_iff. split.
  - intros (row & <- & H). apply in_flat_map in H.
    destruct H as (p & Hp & Hrow). apply rowsOf_ids in Hrow. subst p.
    exists (fst row). auto.
  - intros (p & <- & Hp).
    destruct (rowsOf st p) as [| row rows] eqn:E;
      [exfalso; eapply rowsOf_nonempty; eauto |].
    exists row. split.
    + f_equal. apply (rowsOf_ids st p). rewrite E. left. reflexivity.
    + apply in_flat_map. exists p. split; auto. rewrite E. left. reflexivity.
Qed.

End StatsFacts.
Import StatsFacts.

(* ================================================================== *)
(** * Facts about updating every project *)
(* ================================================================== *)

Module BatchFacts.

Lemma names_after_replacement (l : list Project) (new : Project) :
  NoDup (map p_name l) -> In (p_name new) (map p_name l) ->
  Permutation
    (map p_name (filter (fun q => negb (text_eqb (p_name q) (p_name new))) l
                 ++ [new]))
    (map p_name l).
Proof.
  induction l as [| q l IH]; intros Hnd Hin; [destruct Hin |].
  inversion Hnd as [| ? ? Hq Hl]; subst. cbn [filter map].
  destruct (text_eqb (p_name q) (p_name new)) eqn:E; cbn [negb].
  - apply text_eqb_eq in E.
    rewrite filter_all.
    + rewrite map_app. simpl. rewrite E.
      symmetry. apply Permutation_cons_append.
    + intros x Hx. apply negb_true_iff.
      destruct (text_eqb (p_name x) (p_name new)) eqn:F; auto.
      apply text_eqb_eq in F. exfalso. apply Hq. rewrite E, <- F.
      apply in_map. exact Hx.
  - simpl. apply perm_skip. apply IH; auto.
    destruct Hin as [Hin | Hin]; auto.
    assert (T : text_eqb (p_name q) (p_name new) = true)
      by (apply text_eqb_eq; auto).
    congruence.
Qed.

Section Batch.

Variable basename : text -> text.
Variable filesAt : nat -> text -> list (text * text).
Variable clock : nat -> text.

Lemma indexProject_names (path name : text) (files : list (text * text))
      (now : text) (st : Store) :
  wfStore st -> name <> [] -> In name (projectNames st) ->
  (foreign_keys st = true
   /\ indexProject basename path (Some name) files now st = Throw FK_FAILED st)
  \/ exists r st',
       indexProject basename path (Some name) files now st = Ok r st'
       /\ Permutation (projectNames st') (projectNames st)
       /\ wfStore st'
       /\ foreign_keys st' = foreign_keys st.
Proof.
  intros W Hne Hin.
  assert (W3 : Forall (fun q => p_id q <= seq_projects st) (projects st))
    by (destruct W as (_ & _ & W3 & _); exact W3).
  destruct (indexProject_result basename path (Some name) files now st W3)
    as [H | (news & f & c & p & E & _)]; [left; exact H | right].
  eexists; eexists. split; [exact E |].
  assert (Hpn : projectNameOf basename path (Some name) = name)
    by (unfold projectNameOf; destruct name; congruence).
  split; [| split].
  - unfold projectNames. cbn [projects]. rewrite Hpn.
    destruct W as (_ & W2 & _).
    apply (names_after_replacement
             (projects st)
             (mkProject (S (seq_projects st)) name path (List.length files) now));
      auto.
  - eapply indexProject_wf; eauto.
  - reflexivity.
Qed.

Lemma updateEach_outcome (ps : list Project) :
  forall (k : nat) (st : Store),
    wfStore st ->
    (forall p, In p ps -> p_name p <> [] /\ In (p_name p) (projectNames st)) ->
    batchOutcome st (updateEach basename filesAt clock k ps st).
Proof.
  induction ps as [| p ps IH]; intros k st W Hps; cbn [updateEach].
  - unfold ret, batchOutcome. split; [apply Permutation_refl | exact W].
  - destruct (Hps p (or_introl eq_refl)) as [Hne Hin].
    unfold bind at 1.
    destruct (indexProject_names (p_path p) (p_name p)
                                 (filesAt k (p_path p)) (clock k) st W Hne Hin)
      as [[Hfk E] | (r & st' & E & Hperm & W' & Hfk)]; rewrite E.
    + unfold batchOutcome.
      split; [reflexivity | split; [exact Hfk | split; [| exact W]]].
      apply Permutation_refl.
    + assert (H' : forall q, In q ps ->
                             p_name q <> [] /\ In (p_name q) (projectNames st')).
      { intros q Hq. destruct (Hps q (or_intror Hq)) as [Hn Hi].
        split; auto. eapply Permutation_in; [symmetry; exact Hperm | exact Hi]. }
      specialize (IH (S k) st' W' H').
      destruct (updateEach basename filesAt clock (S k) ps st')
        as [u st'' | e st'' |]; unfold batchOutcome in *.
      * destruct IH as [P W'']. split; [| exact W''].
        etransitivity; eauto.
      * destruct IH as (He & Hf & P & W'').
        split; [exact He | split; [congruence | split; [| exact W'']]].
        etransitivity; eauto.
      * exact IH.
Qed.

End Batch.

End BatchFacts.
Import BatchFacts.

(* ================================================================== *)
(** * Search: filters, case, the empty query, the limit *)
(* ================================================================== *)

Module SearchExtras.

(** X1: every row that a search returns belongs to a stored entry and to
    the stored project that the entry refers to, carries that project's
    name, and passes the filters: under a non-empty project filter its
    project name is the filter, under a non-empty type filter its type is
    the filter. *)
Theorem search_rows_pass_filters
        (st : Store) (query : text) (project type : option text)
        (limit : Z) (row : SearchRow) :
  In row (searchCode query project type limit st) ->
  In (entry row) (code_entries st)
  /\ (exists p, In p (projects st) /\ p_id p = ce_project_id (entry row)
                /\ p_name p = projectName row)
  /\ (forall name, project = Some name -> name <> [] ->
                   projectName row = name)
  /\ (forall kind, type = Some kind -> kind <> [] ->
                   ce_type (entry row) = kind).
Proof.
  intros Hin. apply searchCode_In, candidates_In in Hin.
  destruct Hin as (ce & p & Hce & Hp & Hid & Hw & ->). simpl.
  unfold whereClause in Hw. apply andb_true_iff in Hw. destruct Hw as [Hw Ht].
  apply andb_true_iff in Hw. destruct Hw as [_ Hpr].
  repeat split; auto.
  - exists p. auto.
  - intros name Hn Hne. eapply filterBy_true; eauto.
  - intros kind Hk Hne. eapply filterBy_true; eauto.
Qed.

Lemma search_rows_pass_filters_witness :
  In (mkRow login (js "api") 50)
     (searchCode (js "auth") (Some (js "api")) (Some (js "function")) 10
                 authStore)
  /\ In (entry (mkRow login (js "api") 50)) (code_entries authStore).
Proof.
  assert (H : In (mkRow login (js "api") 50)
                 (searchCode (js "auth") (Some (js "api"))
                             (Some (js "function")) 10 authStore))
    by (vm_compute; right; left; reflexivity).
  split; [exact H |].
  exact (proj1 (search_rows_pass_filters
                  authStore (js "auth") (Some (js "api"))
                  (Some (js "function")) 10 (mkRow login (js "api") 50) H)).
Defined.

(** X2: two queries that differ only in the case of ASCII letters give the
    same search result, row for row and score for score. *)
Theorem search_ignores_query_case
        (st : Store) (q1 q2 : text) (project type : option text) (limit : Z) :
  toLowerCase q1 = toLowerCase q2 ->
  searchCode q1 project type limit st = searchCode q2 project type limit st.
Proof.
  intros H. unfold searchCode.
  rewrite (@candidates_same_letters q1 q2 project type st H). reflexivity.
Qed.

Lemma search_ignores_query_case_witness :
  toLowerCase (js "AUTH") = toLowerCase (js "auth")
  /\ searchCode (js "AUTH") None None 10 authStore
     = searchCode (js "auth") None None 10 authStore.
Proof.
  split; [reflexivity |].
  apply (@search_ignores_query_case authStore (js "AUTH") (js "auth")).
  reflexivity.
Defined.

(** X3: the empty query matches every entry: without filters the rows
    before ordering are exactly the stored entries that refer to a stored
    project, each with that project's name and the score 100. *)
Theorem empty_query_matches_everything (st : Store) (row : SearchRow) :
  In row (candidates [] None None st)
  <-> exists ce p, In ce (code_entries st) /\ In p (projects st)
                   /\ ce_project_id ce = p_id p
                   /\ row = mkRow ce (p_name p) 100.
Proof.
  split.
  - intros H. apply candidates_In in H.
    destruct H as (ce & p & Hce & Hp & Hid & _ & ->).
    exists ce, p. repeat split; auto.
    unfold relevance. rewrite likeQuery_empty. reflexivity.
  - intros (ce & p & Hce & Hp & Hid & ->).
    replace 100 with (relevance [] ce)
      by (unfold relevance; rewrite likeQuery_empty; reflexivity).
    apply candidates_complete; auto.
    unfold whereClause. rewrite likeQuery_empty. reflexivity.
Qed.

End SearchExtras.

(* ================================================================== *)
(** * The store: keys, lookups, removal, re-indexing *)
(* ================================================================== *)

Module StoreExtras.

(** X5: every store that runs of the indexer and removals lead to from an
    empty database has unique project ids, unique project names and unique
    entry ids, all given out by the counters; and under foreign-key
    enforcement every entry in it refers to a stored project. *)
Theorem reachable_stores_keep_keys
        (basename : text -> text) (st : Store) :
  Reachable basename st ->
  wfStore st /\ (foreign_keys st = true -> noOrphans st).
Proof.
  induction 1 as [fk | st st' path name files now r Hr [IHw IHo] H
                  | st st' name Hr [IHw IHo] H].
  - split.
    + unfold wfStore, emptyStore. simpl. repeat split; constructor.
    + intros _. constructor.
  - split; [eapply indexProject_wf; eauto |].
    intros Hfk.
    assert (E : foreign_keys st' = foreign_keys st).
    { destruct IHw as (_ & _ & W3 & _).
      destruct (indexProject_ok_inv _ _ _ _ _ _ _ _ W3 H) as (news & -> & _).
      reflexivity. }
    rewrite E in Hfk.
    eapply indexProject_noOrphans; eauto.
  - split; [eapply removeProject_wf; eauto |].
    intros Hfk.
    assert (E : foreign_keys st' = foreign_keys st).
    { destruct (removeProject_ok_inv _ _ _ H) as (p & Hp).
      rewrite (removeProject_result _ _ _ Hp) in H.
      inversion H; reflexivity. }
    rewrite E in Hfk.
    exact (proj2 (removeProject_noOrphans _ _ _ (IHo Hfk) H)).
Qed.

Lemma reachable_stores_keep_keys_witness :
  Reachable lastSegment (indexedOnce true) /\ wfStore (indexedOnce true).
Proof.
  assert (E : indexProject lastSegment (js "/src/api") (Some (js "api"))
                           firstFiles (js "t1") (emptyStore true)
              = Ok (mkIndexResult 1 1 0 0) (indexedOnce true))
    by (vm_compute; reflexivity).
  assert (R : Reachable lastSegment (indexedOnce true))
    by (exact (@reach_index lastSegment _ _ _ _ _ _ _
                            (@reach_empty lastSegment true) E)).
  split; [exact R |].
  exact (proj1 (reachable_stores_keep_keys lastSegment (indexedOnce true) R)).
Defined.

(** X6: in a store whose entry ids were given out by the counter, an entry
    that can be inserted is inserted under the next id, the full code of
    that id is then the code of the entry, and every id given out before
    still fetches what it fetched. *)
Theorem inserted_entry_can_be_shown (e : NewEntry) (st : Store) :
  Forall (fun ce => ce_id ce <= seq_code_entries st) (code_entries st) ->
  canInsert (projectId e) st ->
  exists st',
    addCodeEntry e st = Ok (S (seq_code_entries st)) st'
    /\ getCode (S (seq_code_entries st)) st' = Ok (entryCode e) st'
    /\ forall id, id <= seq_code_entries st ->
                  getCodeEntry id st' = getCodeEntry id st.
Proof.
  intros Hids Hcan. exists (withEntries st [e]).
  rewrite Forall_forall in Hids.
  split; [apply addCodeEntry_result; exact Hcan |]. split.
  - unfold getCode, getCodeEntry, withEntries. cbn [code_entries stored].
    rewrite find_app_last.
    + reflexivity.
    + intros ce Hce. specialize (Hids ce Hce). apply Nat.eqb_neq. lia.
    + simpl. apply Nat.eqb_refl.
  - intros id Hid. unfold getCodeEntry, withEntries. cbn [code_entries stored].
    rewrite find_app. destruct (find _ (code_entries st)); auto.
    cbn [find ce_id rowOf].
    destruct (Nat.eqb_spec (S (seq_code_entries st)) id); auto. lia.
Qed.

Lemma inserted_entry_can_be_shown_witness :
  canInsert 1 (indexedOnce true)
  /\ exists st',
       addCodeEntry (toEntry 1 (js "b.ts") "function"
                             (mkUnit (js "g") (js "function g() {}") 1 2 []))
                    (indexedOnce true)
       = Ok 2 st'
       /\ getCode 2 st' = Ok (js "function g() {}") st'
       /\ forall id, id <= 1 ->
                     getCodeEntry id st' = getCodeEntry id (indexedOnce true).
Proof.
  assert (C : canInsert 1 (indexedOnce true)) by (right; reflexivity).
  split; [exact C |].
  apply (inserted_entry_can_be_shown
           (toEntry 1 (js "b.ts") "function"
                    (mkUnit (js "g") (js "function g() {}") 1 2 []))
           (indexedOnce true)).
  - repeat constructor.
  - exact C.
Defined.

(** X7: after a run of the indexer that ends well, the project can be
    looked up under its name and has the new id, the path, the number of
    files of the run and the time of the run; the result reports that
    number of files; and the functions and classes it reports are as many
    as the entries stored under the new id. *)
Theorem indexed_project_is_found_with_its_counts
        (basename : text -> text) (path : text) (name : option text)
        (files : list (text * text)) (now : text) (st st' : Store)
        (r : IndexResult) :
  Forall (fun q => p_id q <= seq_projects st) (projects st) ->
  indexProject basename path name files now st = Ok r st' ->
  getProject (projectNameOf basename path name) st'
  = Some (mkProject (S (seq_projects st)) (projectNameOf basename path name)
                    path (List.length files) now)
  /\ filesIndexed r = List.length files
  /\ List.length
       (filter (fun ce => Nat.eqb (ce_project_id ce) (S (seq_projects st)))
               (code_entries st'))
     = functionsFound r + classesFound r.
Proof.
  intros Hids H.
  destruct (indexProject_ok_inv basename _ _ _ _ _ _ _ Hids H)
    as (news & -> & Hf & Hn & Hid & _).
  repeat split; auto.
  - unfold getProject. cbn [projects]. apply find_app_last.
    + intros q Hq. apply filter_In in Hq. destruct Hq as [_ Hq].
      apply negb_true_iff in Hq. exact Hq.
    + simpl. apply text_eqb_eq. reflexivity.
  - cbn [code_entries]. rewrite filter_app, length_app.
    rewrite filter_none.
    + rewrite filter_all.
      * simpl. rewrite stored_length. lia.
      * intros ce Hce. apply Nat.eqb_eq.
        eapply stored_projectId; eauto.
    + intros ce Hce. apply filter_In in Hce. destruct Hce as [_ Hce].
      apply negb_true_iff in Hce. exact Hce.
Qed.

Lemma indexed_project_is_found_with_its_counts_witness :
  indexProject lastSegment (js "/src/api") (Some (js "api")) firstFiles
               (js "t1") (emptyStore true)
  = Ok (mkIndexResult 1 1 0 0) (indexedOnce true)
  /\ getProject (js "api") (indexedOnce true)
     = Some (mkProject 1 (js "api") (js "/src/api") 1 (js "t1")).
Proof.
  assert (E : indexProject lastSegment (js "/src/api") (Some (js "api"))
                           firstFiles (js "t1") (emptyStore true)
              = Ok (mkIndexResult 1 1 0 0) (indexedOnce true))
    by (vm_compute; reflexivity).
  split; [exact E |].
  exact (proj1 (indexed_project_is_found_with_its_counts
                  lastSegment (js "/src/api") (Some (js "api")) firstFiles
                  (js "t1") (emptyStore true) (indexedOnce true)
                  (mkIndexResult 1 1 0 0) (Forall_nil _) E)).
Defined.

(** X8: in a store with unique project ids and names, removing a project
    that exists ends well; afterwards the name is not found, every other
    name is found as before, the entries are those of before less the ones
    of the removed project, and no search returns a row under the removed
    name. *)
Theorem removed_project_is_gone (name : text) (st : Store) (p : Project) :
  wfStore st ->
  getProject name st = Some p ->
  exists st',
    removeProject name st = Ok tt st'
    /\ getProject name st' = None
    /\ (forall other, other <> name ->
                      getProject other st' = getProject other st)
    /\ code_entries st'
       = filter (fun ce => negb (Nat.eqb (ce_project_id ce) (p_id p)))
                (code_entries st)
    /\ (forall query project type limit row,
           In row (searchCode query project type limit st') ->
           projectName row <> name).
Proof.
  intros (W1 & W2 & _) Hp.
  destruct (getProject_In _ _ _ Hp) as [Hin Hname].
  eexists. split; [apply removeProject_result; exact Hp |].
  assert (Hgone : forall q,
             In q (filter (fun q => negb (Nat.eqb (p_id q) (p_id p)))
                          (projects st)) ->
             p_name q <> name).
  { intros q Hq Hn. apply filter_In in Hq. destruct Hq as [Hq Hid].
    apply negb_true_iff, Nat.eqb_neq in Hid. apply Hid.
    f_equal. apply (NoDup_map_inj p_name (projects st)); auto. congruence. }
  repeat split.
  - unfold getProject. cbn [projects]. apply find_none_iff.
    intros q Hq. destruct (text_eqb (p_name q) name) eqn:E; auto.
    apply text_eqb_eq in E. exfalso. exact (Hgone q Hq E).
  - intros other Hother. unfold getProject. cbn [projects].
    apply find_filter_same. intros q Hq E. apply text_eqb_eq in E.
    apply negb_true_iff, Nat.eqb_neq. intros Hid.
    apply Hother. rewrite <- E, <- Hname. f_equal.
    apply (NoDup_map_inj p_id (projects st)); auto.
  - intros query project type limit row Hrow.
    apply searchCode_In, candidates_In in Hrow.
    destruct Hrow as (ce & q & _ & Hq & _ & _ & ->). simpl.
    apply Hgone. exact Hq.
Qed.

Lemma removed_project_is_gone_witness :
  wfStore (indexedOnce true)
  /\ exists st',
       removeProject (js "api") (indexedOnce true) = Ok tt st'
       /\ getProject (js "api") st' = None.
Proof.
  assert (W : wfStore (indexedOnce true))
    by (unfold wfStore; simpl; repeat split; repeat constructor; simpl; tauto).
  split; [exact W |].
  destruct (removed_project_is_gone
              (js "api") (indexedOnce true)
              (mkProject 1 (js "api") (js "/src/api") 1 (js "t1"))
              W eq_refl) as (st' & H1 & H2 & _).
  exists st'. split; assumption.
Defined.

(** X10: under foreign-key enforcement, when the project of a non-empty
    name has an entry, indexing under that name, from whatever path, throws
    the refusal of the database and leaves the store as it was, and so does
    updating that project. *)
Theorem project_with_entries_cannot_be_reindexed
        (basename : text -> text) (path projectName : text)
        (files : list (text * text)) (now : text) (st : Store)
        (q : Project) (ce : CodeEntry) :
  foreign_keys st = true ->
  projectName <> [] ->
  getProject projectName st = Some q ->
  In ce (code_entries st) -> ce_project_id ce = p_id q ->
  indexProject basename path (Some projectName) files now st
  = Throw FK_FAILED st
  /\ updateProject basename projectName files now st = Throw FK_FAILED st.
Proof.
  intros Hfk Hne Hq Hce Hid.
  destruct (getProject_In _ _ _ Hq) as [Hin Hname].
  assert (Hpn : forall p, projectNameOf basename p (Some projectName)
                          = projectName)
    by (intros p; unfold projectNameOf; destruct projectName; congruence).
  assert (T : forall p, indexProject basename p (Some projectName) files now st
                        = Throw FK_FAILED st).
  { intros p. unfold indexProject.
    fold (projectNameOf basename p (Some projectName)). rewrite Hpn.
    unfold bind at 1.
    destruct (addProject_result projectName p now st)
      as [[_ E] | [E _]]; [rewrite E; reflexivity |].
    exfalso. rewrite Hfk in E. simpl in E.
    assert (X : existsb
                  (fun ce0 =>
                     existsb (fun p0 => Nat.eqb (ce_project_id ce0) (p_id p0))
                             (filter (fun p0 => text_eqb (p_name p0) projectName)
                                     (projects st)))
                  (code_entries st) = true).
    { apply existsb_exists. exists ce. split; auto.
      apply existsb_exists. exists q. split.
      - apply filter_In. split; auto. apply text_eqb_eq. auto.
      - apply Nat.eqb_eq. auto. }
    congruence. }
  split; [apply T |].
  unfold updateProject. rewrite Hq. unfold bind. rewrite T. reflexivity.
Qed.

Lemma project_with_entries_cannot_be_reindexed_witness :
  foreign_keys (indexedOnce true) = true
  /\ updateProject lastSegment (js "api") secondFiles (js "t2")
                   (indexedOnce true)
     = Throw FK_FAILED (indexedOnce true).
Proof.
  split; [reflexivity |].
  exact (proj2 (project_with_entries_cannot_be_reindexed
                  lastSegment (js "/src/api") (js "api") secondFiles
                  (js "t2") (indexedOnce true)
                  (mkProject 1 (js "api") (js "/src/api") 1 (js "t1"))
                  fooEntry eq_refl ltac:(discriminate) eq_refl
                  (or_introl eq_refl) eq_refl)).
Defined.

End StoreExtras.

(* ================================================================== *)
(** * The extractor: where units lie, nested blocks, keywords, imports *)
(* ================================================================== *)

Module ExtractorExtras.

(** X11: for every source text, every function or class unit is a
    non-empty slice of the text, its start line is one more than the
    newlines before the slice, its end line is at most one past the last
    line of the text, and its name is a non-empty run of the characters
    [A-Za-z0-9_]. *)
Theorem units_lie_within_the_file :
  forall content : text,
    allUnits content (fun u => withinFile content u /\ isWordName (name u)).
Proof.
  intros content.
  destruct (extractFunctions_inside content) as (fs & Hf & Ff).
  destruct (extractClasses_inside content) as (cs & Hc & Fc).
  exists fs, cs. repeat split; auto.
  apply Forall_app. split; eapply Forall_impl; eauto; intros u Hu; split;
    (apply builtInside_withinFile || apply (builtInside_named content));
    exact Hu.
Qed.

(** X12: from a start offset within the text, the closing offset is never
    before the start and never past the end of the text, and it is past
    the start when the start is before the end; so that a body is never
    empty. *)
Theorem closing_offset_stays_in_text (content : text) (startIndex : nat) :
  startIndex <= List.length content ->
  startIndex <= findClosingBrace content startIndex <= List.length content
  /\ (startIndex < List.length content ->
      startIndex < findClosingBrace content startIndex).
Proof. apply findClosingBrace_bounds. Qed.

Lemma closing_offset_stays_in_text_witness :
  3 <= List.length ifStatement
  /\ 3 <= findClosingBrace ifStatement 3 <= List.length ifStatement.
Proof.
  assert (H : 3 <= List.length ifStatement) by (vm_compute; lia).
  split; [exact H |].
  exact (proj1 (closing_offset_stays_in_text ifStatement 3 H)).
Defined.

(** X13: when the text from the start offset on is a header without
    braces and quotes, an opening brace, a body without quotes in which
    every brace has its partner, and a closing brace, the closing offset
    is the offset just after that closing brace, whatever follows it and
    however deep the body nests. *)
Theorem closing_brace_of_nested_block (pre h b rest : text) :
  forallb plain h = true ->
  Balanced b ->
  findClosingBrace (pre ++ h ++ [LBRACE] ++ b ++ [RBRACE] ++ rest)
                   (List.length pre)
  = List.length pre + List.length h + List.length b + 2.
Proof.
  intros Hh Hb. unfold findClosingBrace.
  rewrite skipn_app, Nat.sub_diag, skipn_all. cbn [app skipn].
  change (h ++ LBRACE :: b ++ RBRACE :: rest)
    with (h ++ (LBRACE :: b ++ RBRACE :: rest)).
  rewrite scanBraces_plain by exact Hh. cbn [scanBraces].
  change (char_eqb LBRACE DQUOTE || char_eqb LBRACE SQUOTE) with false.
  change (char_eqb LBRACE LBRACE) with true. cbv iota.
  rewrite scanBraces_balanced by (exact Hb || lia). cbn [scanBraces].
  change (char_eqb RBRACE DQUOTE || char_eqb RBRACE SQUOTE) with false.
  change (char_eqb RBRACE LBRACE) with false.
  change (char_eqb RBRACE RBRACE) with true. cbv iota.
  change (0 + 1 - 1 =? 0)%Z with true. cbv iota. lia.
Qed.

Lemma closing_brace_of_nested_block_witness :
  forallb plain (js "f() ") = true
  /\ Balanced (js "a{b}c")
  /\ findClosingBrace (js "x;" ++ js "f() " ++ [LBRACE] ++ js "a{b}c"
                          ++ [RBRACE] ++ js " y")
                      (List.length (js "x;"))
     = List.length (js "x;") + List.length (js "f() ")
       + List.length (js "a{b}c") + 2.
Proof.
  assert (Hb : Balanced (js "a{b}c")).
  { apply bal_plain; [reflexivity |].
    exact (@bal_block (js "b") (js "c")
             (@bal_plain 98%N [] eq_refl bal_nil)
             (@bal_plain 99%N [] eq_refl bal_nil)). }
  split; [reflexivity |]. split; [exact Hb |].
  exact (closing_brace_of_nested_block (js "x;") (js "f() ") (js "a{b}c")
                                       (js " y") eq_refl Hb).
Defined.

(** X14: for every code text the keyword set holds exactly the
    lower-casings of the words of the code that are longer than two
    characters and whose spelling in the code is not in the stoplist; the
    keywords string is that set joined by single spaces. *)
Theorem keyword_set_is_the_kept_words :
  forall code : text,
    exists ws ks,
      words code = Some ws
      /\ keywordSet code = Some ks
      /\ extractKeywords code = Some (join [SPACE] ks)
      /\ forall t, In t ks
                   <-> exists w, In w ws /\ keeps w /\ t = toLowerCase w.
Proof.
  intros code. destruct (words_total code) as (ws & Hws & _).
  exists ws, (fold_left addKeyword ws []).
  unfold extractKeywords, keywordSet. rewrite Hws. repeat split; auto.
  - intros H. apply fold_addKeyword_In in H. destruct H as [[] | H]. exact H.
  - intros H. apply fold_addKeyword_In. right. exact H.
Qed.

(** X15: for every code text the keywords string splits at its spaces
    into exactly the keyword set, in the order in which the set was
    built; it is the empty string when the set is empty. *)
Theorem keywords_string_splits_into_the_set :
  forall code : text,
    exists ks kw,
      keywordSet code = Some ks
      /\ extractKeywords code = Some kw
      /\ (ks <> [] -> split SPACE kw = ks)
      /\ (ks = [] -> kw = []).
Proof.
  intros code. destruct (words_total code) as (ws & Hws & Hlang).
  exists (fold_left addKeyword ws []), (join [SPACE] (fold_left addKeyword ws [])).
  unfold extractKeywords, keywordSet. rewrite Hws. repeat split; auto.
  - intros Hne. apply split_join; auto.
    destruct (@fold_addKeyword_inv ws ws []) as [_ Hall].
    + intros w Hw. split; auto. apply wordRegex_identifier.
      rewrite Forall_forall in Hlang. auto.
    + split; constructor.
    + eapply Forall_impl; [| exact Hall].
      intros t (Hid & _). apply identifier_no_space. exact Hid.
  - intros ->. reflexivity.
Qed.

(** X16: for every source text the pattern pass returns, and every tag it
    returns is [import:] followed by a module specifier that is not empty
    and holds no line terminator. *)
Theorem import_tags_name_a_module :
  forall content : text,
    exists patterns,
      extractPatterns content = Some patterns
      /\ Forall isImportTag patterns.
Proof. exact extractPatterns_tags. Qed.

End ExtractorExtras.

(* ================================================================== *)
(** * Listing, statistics, export *)
(* ================================================================== *)

Module ReportExtras.

(** X17: the list of projects holds every stored project exactly once,
    and from one project to any later one the text of [indexed_at] does
    not grow. *)
Theorem projects_are_listed_newest_first :
  forall st : Store,
    Permutation (getProjects st) (projects st)
    /\ StronglySorted newerFirst (getProjects st).
Proof.
  intros st. unfold getProjects. split.
  - induction (projects st) as [| p ps IH]; simpl; auto.
    rewrite insertProject_perm. auto.
  - induction (projects st) as [| p ps IH]; simpl; [constructor |].
    apply insertProject_sorted. exact IH.
Qed.

(** X18: the statistics hold SQL's [NULL] for the files and for the three
    counts by type exactly when no project is stored, and for the lines
    exactly when no stored project has an entry. *)
Theorem stats_are_null_without_rows :
  forall st : Store,
    (totalFiles (getStats st) = None <-> projects st = [])
    /\ (totalFunctions (getStats st) = None <-> projects st = [])
    /\ (totalClasses (getStats st) = None <-> projects st = [])
    /\ (totalPatterns (getStats st) = None <-> projects st = [])
    /\ (totalLines (getStats st) = None
        <-> forall p, In p (projects st) -> entriesOfProject st p = []).
Proof.
  intros st.
  assert (Hsum : forall f : Project * option CodeEntry -> nat,
             sumNat (map f (leftJoin st)) = None <-> projects st = []).
  { intros f. rewrite <- leftJoin_nil.
    destruct (leftJoin st); simpl; split; auto; discriminate. }
  unfold getStats. cbn [totalFiles totalFunctions totalClasses totalPatterns
                        totalLines].
  repeat split; try apply Hsum.
  - intros H p Hp. apply rowsOf_lines_nil.
    destruct (flat_map lineSpan (leftJoin st)) eqn:E; [| discriminate].
    rewrite leftJoin_rowsOf, flat_map_flat_map in E.
    apply (proj1 (flat_map_nil _ _) E). exact Hp.
  - intros H.
    assert (E : flat_map lineSpan (leftJoin st) = []).
    { rewrite leftJoin_rowsOf, flat_map_flat_map. apply flat_map_nil.
      intros p Hp. apply rowsOf_lines_nil. auto. }
    rewrite E. reflexivity.
Qed.

(** X19: the total of files adds the file count of a project once for
    each of its entries, and once when it has none. *)
Theorem stats_count_files_once_per_entry :
  forall st : Store,
    totalFiles (getStats st)
    = match projects st with
      | [] => None
      | _ :: _ =>
          Some (total (map (fun p =>
                              p_file_count p
                              * Nat.max 1 (List.length (entriesOfProject st p)))
                           (projects st)))
      end.
Proof.
  intros st. unfold getStats. cbn [totalFiles]. rewrite sumNat_total.
  destruct (projects st) as [| p ps] eqn:E.
  - apply leftJoin_nil in E. rewrite E. reflexivity.
  - destruct (map _ (leftJoin st)) eqn:M.
    + apply map_eq_nil in M. apply leftJoin_nil in M. congruence.
    + rewrite <- M, leftJoin_rowsOf, total_flat_map, E. f_equal.
      f_equal. apply map_ext. intros q. apply rowsOf_files.
Qed.

(** X20: in a store with unique project ids that holds a project, the
    statistics count every stored project once, and count as functions,
    classes and patterns the entries of that type that refer to a stored
    project; entries that refer to no stored project are not counted. *)
Theorem stats_count_entries_of_stored_projects (st : Store) :
  NoDup (map p_id (projects st)) ->
  projects st <> [] ->
  let counted (type : string) :=
    Some (List.length
            (filter (fun ce =>
                       text_eqb (ce_type ce) (js type)
                       && existsb (fun p => Nat.eqb (p_id p) (ce_project_id ce))
                                  (projects st))
                    (code_entries st))) in
  totalProjects (getStats st) = List.length (projects st)
  /\ totalFunctions (getStats st) = counted "function"%string
  /\ totalClasses (getStats st) = counted "class"%string
  /\ totalPatterns (getStats st) = counted "pattern"%string.
Proof.
  intros Hnd Hne counted.
  assert (Htype : forall type,
             sumNat (map (isOfType type) (leftJoin st)) = counted type).
  { intros type. rewrite sumNat_total.
    destruct (map _ (leftJoin st)) eqn:M.
    - apply map_eq_nil in M. apply leftJoin_nil in M. congruence.
    - rewrite <- M, leftJoin_rowsOf, total_flat_map. unfold counted. f_equal.
      rewrite <- (count_by_project type (code_entries st) (projects st) Hnd).
      f_equal. apply map_ext. intros p. apply rowsOf_type. }
  unfold getStats. cbn [totalProjects totalFunctions totalClasses totalPatterns].
  repeat split; try apply Htype.
  rewrite <- (length_map p_id (projects st)).
  apply Permutation_length. apply NoDup_Permutation; auto.
  - apply NoDup_nodup.
  - intros id. rewrite nodup_In. apply joined_ids.
Qed.

Lemma stats_count_entries_of_stored_projects_witness :
  NoDup (map p_id (projects authStore))
  /\ totalProjects (getStats authStore) = List.length (projects authStore).
Proof.
  assert (H : NoDup (map p_id (projects authStore)))
    by (simpl; repeat constructor; simpl; tauto).
  split; [exact H |].
  exact (proj1 (stats_count_entries_of_stored_projects
                  authStore H ltac:(discriminate))).
Defined.

(** X21: exporting under a non-empty project name that is not stored
    throws nothing and writes the three lines of the header and nothing
    else. *)
Theorem export_of_unknown_project_is_the_header
        (name : text) (st : Store) :
  name <> [] ->
  getProject name st = None ->
  exportContext (Some name) st = HEADER.
Proof.
  intros Hne H. unfold exportContext, exportedProjects.
  destruct name as [| c n]; [congruence |]. rewrite H.
  cbn [map List.concat]. apply app_nil_r.
Qed.

Lemma export_of_unknown_project_is_the_header_witness :
  getProject (js "web") authStore = None
  /\ exportContext (Some (js "web")) authStore = HEADER.
Proof.
  split; [reflexivity |].
  exact (export_of_unknown_project_is_the_header
           (js "web") authStore ltac:(discriminate) eq_refl).
Defined.

(** X22: the functions, and likewise the classes, that the export shows
    for a project are at most 20, stand in ascending order of their names,
    are stored entries of that type, and under a non-empty project name
    are entries of the project of that name. *)
Theorem export_shows_twenty_by_name
        (st : Store) (project : Project) (type : string) :
  let rows := shown (ofType type (entriesFor st project)) in
  List.length rows <= 20
  /\ StronglySorted
       (fun a b => lexLe (ce_name (entry a)) (ce_name (entry b))) rows
  /\ forall r, In r rows ->
               ce_type (entry r) = js type
               /\ In (entry r) (code_entries st)
               /\ (p_name project <> [] -> projectName r = p_name project).
Proof.
  intros rows. subst rows. unfold shown, ofType, entriesFor.
  split; [apply firstn_le_length |]. split.
  - apply StronglySorted_firstn, StronglySorted_filter.
    apply StronglySorted_weaken with (R := rowOrder).
    + intros a b Ha Hb Hab.
      assert (Hrel : forall r,
                 In r (searchCode [] (Some (p_name project)) None 1000 st) ->
                 rowRelevance r = 100).
      { intros r Hr. apply searchCode_In, candidates_In in Hr.
        destruct Hr as (ce & p & _ & _ & _ & _ & ->). simpl.
        unfold relevance. rewrite likeQuery_empty. reflexivity. }
      destruct Hab as [Hlt | [_ Hle]]; auto.
      rewrite (Hrel a Ha), (Hrel b Hb) in Hlt. lia.
    + unfold searchCode. apply applyLimit_sorted, orderBy_sorted.
  - intros r Hr. apply firstn_In in Hr. apply filter_In in Hr.
    destruct Hr as [Hr Ht]. apply text_eqb_eq in Ht.
    destruct (search_rows_pass_filters_aux st [] (Some (p_name project)) None
                                           1000%Z r Hr) as (Hin & Hp).
    repeat split; auto.
Qed.

End ReportExtras.

(* ================================================================== *)
(** * Indexing one project, updating all *)
(* ================================================================== *)

Module BatchExtras.

(** X23: in a store whose project ids were given out by the counter, a
    run of the indexer that ends well leaves every project of another name
    to be found exactly as before, and leaves stored every entry whose
    project id was given out before the run. *)
Theorem indexing_leaves_other_projects_alone
        (basename : text -> text) (path : text) (name : option text)
        (files : list (text * text)) (now : text) (st st' : Store)
        (r : IndexResult) :
  Forall (fun q => p_id q <= seq_projects st) (projects st) ->
  indexProject basename path name files now st = Ok r st' ->
  (forall other, other <> projectNameOf basename path name ->
                 getProject other st' = getProject other st)
  /\ (forall ce, In ce (code_entries st) ->
                 ce_project_id ce <= seq_projects st ->
                 In ce (code_entries st')).
Proof.
  intros Hids H. split.
  - destruct (indexProject_ok_inv basename _ _ _ _ _ _ _ Hids H)
      as (news & -> & _).
    intros other Hother. unfold getProject. cbn [projects].
    rewrite find_app, find_filter_same.
    + destruct (find _ (projects st)); auto. simpl.
      destruct (text_eqb _ other) eqn:E; auto.
      apply text_eqb_eq in E. congruence.
    + intros q _ E. apply text_eqb_eq in E. apply negb_true_iff.
      destruct (text_eqb (p_name q) (projectNameOf basename path name)) eqn:F;
        auto.
      apply text_eqb_eq in F. congruence.
  - intros ce Hce Hid. eapply indexProject_keeps_entries; eauto.
Qed.

Lemma indexing_leaves_other_projects_alone_witness :
  indexProject lastSegment (js "/src/web") (Some (js "web")) secondFiles
               (js "t2") (indexedOnce true)
  = Ok (mkIndexResult 1 1 0 0)
       (mkStore [mkProject 1 (js "api") (js "/src/api") 1 (js "t1");
                 mkProject 2 (js "web") (js "/src/web") 1 (js "t2")]
                [fooEntry; barEntry] 2 2 true)
  /\ In fooEntry
        (code_entries
           (mkStore [mkProject 1 (js "api") (js "/src/api") 1 (js "t1");
                     mkProject 2 (js "web") (js "/src/web") 1 (js "t2")]
                    [fooEntry; barEntry] 2 2 true)).
Proof.
  assert (E : indexProject lastSegment (js "/src/web") (Some (js "web"))
                           secondFiles (js "t2") (indexedOnce true)
              = Ok (mkIndexResult 1 1 0 0)
                   (mkStore [mkProject 1 (js "api") (js "/src/api") 1 (js "t1");
                             mkProject 2 (js "web") (js "/src/web") 1 (js "t2")]
                            [fooEntry; barEntry] 2 2 true))
    by (vm_compute; reflexivity).
  split; [exact E |].
  apply (proj2 (indexing_leaves_other_projects_alone
                  lastSegment (js "/src/web") (Some (js "web")) secondFiles
                  (js "t2") (indexedOnce true) _ _
                  ltac:(repeat constructor) E)).
  - left. reflexivity.
  - simpl. lia.
Defined.

(** X24: in a store with unique keys in which no project has the empty
    name, updating all projects ends, either well or, under foreign-key
    enforcement only, with the refusal of the database; either way the
    store then holds the same project names as before and its keys are
    unique. *)
Theorem updating_all_keeps_the_project_names
        (basename : text -> text) (filesAt : nat -> text -> list (text * text))
        (clock : nat -> text) (st : Store) :
  wfStore st ->
  (forall p, In p (projects st) -> p_name p <> []) ->
  batchOutcome st (updateAllProjects basename filesAt clock st).
Proof.
  intros W Hne. unfold updateAllProjects.
  apply updateEach_outcome; auto.
  intros p Hp.
  assert (Hin : In p (projects st)).
  { eapply Permutation_in; [| exact Hp].
    unfold getProjects. clear.
    induction (projects st) as [| q qs IH]; simpl; auto.
    rewrite insertProject_perm. auto. }
  split; auto. unfold projectNames. apply in_map. exact Hin.
Qed.

Lemma updating_all_keeps_the_project_names_witness :
  wfStore (indexedOnce true)
  /\ batchOutcome (indexedOnce true)
                  (updateAllProjects lastSegment (fun _ _ => secondFiles)
                                     (fun _ => js "t2") (indexedOnce true)).
Proof.
  assert (W : wfStore (indexedOnce true))
    by (unfold wfStore; simpl; repeat split; repeat constructor; simpl; tauto).
  split; [exact W |].
  apply (updating_all_keeps_the_project_names
           lastSegment (fun _ _ => secondFiles) (fun _ => js "t2")
           (indexedOnce true) W).
  intros p [<- | []]. discriminate.
Defined.

End BatchExtras.
